(** * HORUS-Kemet-AI: the Cursor agents scripts, embedded and verified

    Shallow embedding of [cursor_agents_cli.py] and of the content decoder
    and identifier reader of [cursor_agent_fetcher.py].

    Conventions of the embedding.
    - A Python [str] is a sequence of code points.  The model keeps the
      code points 0..255, one [ascii] per code point.  In that range the
      two regular expressions of the scripts, compiled with
      [re.IGNORECASE], match an ASCII letter of the pattern against its
      two ASCII cases only.  The identifier extractor is also read on
      strings of all code points ([Unicode]), where the flag lets
      U+0130, U+0131 and U+017F into its parameter pattern; the two
      readings agree on the code points below 256.
    - A [dict] is an association list in insertion order; a [dict] built
      by [json.loads] has pairwise different keys ([wf_json]).
    - Calls into libraries whose code is not part of the scripts (gzip,
      BeautifulSoup, json.loads, requests, urllib) are parameters of the
      sections that use them; [None] or an error constructor stands for
      a raised exception. *)

From Stdlib Require Import List String Ascii ZArith NArith Bool Arith Lia.
From Stdlib Require DecimalString DecimalPos DecimalZ.
Import ListNotations.
Local Open Scope list_scope.
Local Open Scope string_scope.

(** ** Strings *)

Module Str.

(** Python's [in] on strings, as a proposition. *)
Definition substring_of (m s : string) : Prop :=
  exists pre post, s = pre ++ m ++ post.

Fixpoint forallb (p : ascii -> bool) (s : string) : bool :=
  match s with
  | "" => true
  | String c r => p c && forallb p r
  end.

(** The longest prefix of [s] whose characters all satisfy [p], and the
    rest: a greedy character-class repetition. *)
Fixpoint span (p : ascii -> bool) (s : string) : string * string :=
  match s with
  | "" => ("", "")
  | String c r =>
      if p c then let '(a, b) := span p r in (String c a, b)
      else ("", s)
  end.

Fixpoint rev_onto (s acc : string) : string :=
  match s with
  | "" => acc
  | String c r => rev_onto r (String c acc)
  end.

Definition rev (s : string) : string := rev_onto s "".

(** Truth value of a string: the empty string is false. *)
Definition truthy (s : string) : bool :=
  match s with "" => false | _ => true end.

End Str.

(** ** Characters and case *)

Definition in_range (lo hi c : ascii) : bool :=
  (N_of_ascii lo <=? N_of_ascii c)%N && (N_of_ascii c <=? N_of_ascii hi)%N.

(** The ASCII part of case folding: A-Z to a-z. *)
Definition ascii_lower (c : ascii) : ascii :=
  if in_range "A" "Z" c then ascii_of_N (N_of_ascii c + 32) else c.

(** [str.lower()] on one code point below 256: the ASCII capitals and the
    capitals U+00C0..U+00DE, the multiplication sign U+00D7 apart. *)
Definition char_lower (c : ascii) : ascii :=
  if in_range "A" "Z" c
     || (in_range (ascii_of_N 192) (ascii_of_N 222) c
         && negb (N_of_ascii c =? 215)%N)
  then ascii_of_N (N_of_ascii c + 32) else c.

Fixpoint lower (s : string) : string :=
  match s with
  | "" => ""
  | String c r => String (char_lower c) (lower r)
  end.

(** ** The two regular expressions *)

(** One position of a pattern: a predicate on the character read. *)
Definition atom := ascii -> bool.

(** A literal under [re.IGNORECASE]. *)
Definition ci_lit (p : ascii) : atom :=
  fun c => Ascii.eqb (ascii_lower c) (ascii_lower p).

(** [[0-9a-f]] under [re.IGNORECASE]. *)
Definition is_hex : atom :=
  fun c => in_range "0" "9" c || in_range "a" "f" c || in_range "A" "F" c.

Definition ci_word (w : string) : list atom :=
  map ci_lit (list_ascii_of_string w).

(** Matches a fixed-length pattern at the start of [s]; gives the text
    matched and the rest of [s]. *)
Fixpoint match_seq (pat : list atom) (s : string) : option (string * string) :=
  match pat with
  | [] => Some ("", s)
  | p :: pat' =>
      match s with
      | String c r =>
          if p c then
            match match_seq pat' r with
            | Some (m, rest) => Some (String c m, rest)
            | None => None
            end
          else None
      | "" => None
      end
  end.

(** [re.search]: the match at the leftmost position where one exists. *)
Fixpoint re_search {A} (match_at : string -> option A) (s : string) : option A :=
  match match_at s with
  | Some x => Some x
  | None =>
      match s with
      | "" => None
      | String _ r => re_search match_at r
      end
  end.

(** [bc-[0-9a-f]{8}-[0-9a-f]{4}-[0-9a-f]{4}-[0-9a-f]{4}-[0-9a-f]{12}] *)
Definition BCID_REGEX : list atom :=
  (ci_word "bc-" ++ repeat is_hex 8 ++ [ci_lit "-"] ++ repeat is_hex 4
    ++ [ci_lit "-"] ++ repeat is_hex 4 ++ [ci_lit "-"] ++ repeat is_hex 4
    ++ [ci_lit "-"] ++ repeat is_hex 12)%list.

Definition BCID_match_at (s : string) : option string :=
  option_map fst (match_seq BCID_REGEX s).

(** [BCID_REGEX.search(s)], then [.group(0)]. *)
Definition BCID_search (s : string) : option string :=
  re_search BCID_match_at s.

(** [[?&]] and [[^&#]]. *)
Definition is_sep : atom := fun c => Ascii.eqb c "?" || Ascii.eqb c "&".
Definition not_amp_hash : atom :=
  fun c => negb (Ascii.eqb c "&" || Ascii.eqb c "#").

(** One alternative of [(?:selectedBcId|bcId)], then [=([^&#]+)]; gives
    group 1. *)
Definition param_alt (name : string) (s : string) : option string :=
  match match_seq (ci_word name ++ [ci_lit "="])%list s with
  | Some (_, rest) =>
      match fst (Str.span not_amp_hash rest) with
      | "" => None
      | g => Some g
      end
  | None => None
  end.

(** [[?&](?:selectedBcId|bcId)=([^&#]+)] at the start of [s]. *)
Definition param_match_at (s : string) : option string :=
  match s with
  | String c r =>
      if is_sep c then
        match param_alt "selectedBcId" r with
        | Some g => Some g
        | None => param_alt "bcId" r
        end
      else None
  | "" => None
  end.

(** ** Identifier extractor ([parse_bcid_from_url]) *)

Definition parse_bcid_from_url (url : string) : option string :=
  let fallback := BCID_search url in
  match re_search param_match_at url with
  | Some candidate =>
      match BCID_search candidate with
      | Some bcid => Some bcid
      | None => fallback
      end
  | None => fallback
  end.

(** ** The identifier extractor on every [str]

    [parse_bcid_from_url] once more, on strings with all their code
    points.  Beyond U+00FF the pattern of the parameter matches more
    than the two ASCII cases of its letters: [re.IGNORECASE] lowers the
    code point read ([Py_UNICODE_TOLOWER], which sends U+0130 to i and
    the Kelvin sign U+212A to k) and compares it with the lowered
    pattern character and with the equivalents that [sre_compile] keeps
    for it (U+0131 for i, U+017F for s). *)

Module Unicode.
#[local] Open Scope N_scope.
#[local] Open Scope list_scope.

(** A [str]: its code points. *)
Definition str : Type := list N.

Definition ord (c : ascii) : N := N_of_ascii c.

Definition of_string (s : string) : str := map ord (list_ascii_of_string s).

(** One position of a pattern. *)
Definition atom : Type := N -> bool.

Definition between (lo hi c : N) : bool := (lo <=? c) && (c <=? hi).

(** The ASCII character that stands for [c] in a comparison under
    [re.IGNORECASE]: the lowercase letter, for a code point that the
    flag puts together with an ASCII letter; [c] itself otherwise. *)
Definition fold (c : N) : N :=
  if between 65 90 c then c + 32                 (* A-Z *)
  else if (c =? 304) || (c =? 305) then 105      (* U+0130, U+0131: i *)
  else if c =? 383 then 115                      (* U+017F: s *)
  else if c =? 8490 then 107                     (* U+212A: k *)
  else c.

(** An ASCII literal under [re.IGNORECASE]. *)
Definition ci_lit (p : ascii) : atom := fun c => fold c =? fold (ord p).

(** [[0-9a-f]] under [re.IGNORECASE]: no code point beyond ASCII lowers
    to a digit or to one of a-f. *)
Definition is_hex : atom :=
  fun c => between 48 57 c || between 97 102 c || between 65 70 c.

Definition ci_word (w : string) : list atom :=
  map ci_lit (list_ascii_of_string w).

Fixpoint match_seq (pat : list atom) (s : str) : option (str * str) :=
  match pat with
  | [] => Some ([], s)
  | p :: pat' =>
      match s with
      | c :: r =>
          if p c then
            match match_seq pat' r with
            | Some (m, rest) => Some (c :: m, rest)
            | None => None
            end
          else None
      | [] => None
      end
  end.

(** [re.search]: the match at the leftmost position where one exists. *)
Fixpoint re_search {A} (match_at : str -> option A) (s : str) : option A :=
  match match_at s with
  | Some x => Some x
  | None =>
      match s with
      | [] => None
      | _ :: r => re_search match_at r
      end
  end.

(** A greedy character-class repetition: the longest prefix in the
    class, and the rest. *)
Fixpoint span (p : atom) (s : str) : str * str :=
  match s with
  | [] => ([], [])
  | c :: r =>
      if p c then let '(a, b) := span p r in (c :: a, b)
      else ([], s)
  end.

(** [bc-[0-9a-f]{8}-[0-9a-f]{4}-[0-9a-f]{4}-[0-9a-f]{4}-[0-9a-f]{12}] *)
Definition BCID_REGEX : list atom :=
  ci_word "bc-" ++ repeat is_hex 8 ++ [ci_lit "-"] ++ repeat is_hex 4
    ++ [ci_lit "-"] ++ repeat is_hex 4 ++ [ci_lit "-"] ++ repeat is_hex 4
    ++ [ci_lit "-"] ++ repeat is_hex 12.

Definition BCID_match_at (s : str) : option str :=
  option_map fst (match_seq BCID_REGEX s).

(** [BCID_REGEX.search(s)], then [.group(0)]. *)
Definition BCID_search (s : str) : option str :=
  re_search BCID_match_at s.

(** [[?&]] and [[^&#]]. *)
Definition is_sep : atom := fun c => (c =? 63) || (c =? 38).
Definition not_amp_hash : atom := fun c => negb ((c =? 38) || (c =? 35)).

(** One alternative of [(?:selectedBcId|bcId)], then [=([^&#]+)]; gives
    group 1. *)
Definition param_alt (name : string) (s : str) : option str :=
  match match_seq (ci_word name ++ [ci_lit "="]) s with
  | Some (_, rest) =>
      match fst (span not_amp_hash rest) with
      | [] => None
      | g => Some g
      end
  | None => None
  end.

(** [[?&](?:selectedBcId|bcId)=([^&#]+)] at the start of [s]. *)
Definition param_match_at (s : str) : option str :=
  match s with
  | c :: r =>
      if is_sep c then
        match param_alt "selectedBcId" r with
        | Some g => Some g
        | None => param_alt "bcId" r
        end
      else None
  | [] => None
  end.

Definition parse_bcid_from_url (url : str) : option str :=
  let fallback := BCID_search url in
  match re_search param_match_at url with
  | Some candidate =>
      match BCID_search candidate with
      | Some bcid => Some bcid
      | None => fallback
      end
  | None => fallback
  end.

(** *** Vocabulary of its properties *)

(** Python's [in] on strings. *)
Definition substring_of (m s : str) : Prop :=
  exists pre post, s = pre ++ m ++ post.

Definition matches (pat : list atom) (m : str) : Prop :=
  Forall2 (fun (p : atom) c => p c = true) pat m.

(** The identifier grammar. *)
Definition is_bcid (m : str) : Prop := matches BCID_REGEX m.

Definition contains_bcid (s : str) : Prop :=
  exists m, is_bcid m /\ substring_of m s.

(** [m] is the leftmost identifier inside [s]. *)
Definition first_bcid (s m : str) : Prop :=
  exists a b, s = a ++ m ++ b /\ is_bcid m /\
    forall a' m' b', s = a' ++ m' ++ b' -> is_bcid m' ->
      (List.length a <= List.length a')%nat.

(** The code points that [re.IGNORECASE] takes for the lowercase letter
    [p]: the letter, its capital, and beyond ASCII the dotted capital
    U+0130 and the dotless U+0131 for i, the long s U+017F for s, the
    Kelvin sign U+212A for k. *)
Definition reads_as (p : ascii) (c : N) : Prop :=
  c = ord p \/ c + 32 = ord p \/
  (p = "i"%char /\ (c = 304 \/ c = 305)) \/
  (p = "s"%char /\ c = 383) \/
  (p = "k"%char /\ c = 8490).

(** [name] spells the lowercase word [w], letter by letter. *)
Definition spells (w : string) (name : str) : Prop :=
  Forall2 reads_as (list_ascii_of_string w) name.

Definition param_name (name : str) : Prop :=
  spells "selectedbcid" name \/ spells "bcid" name.

(** [suf] starts with a [selectedBcId] or [bcId] parameter of value [v]:
    a [?] or [&], the name as [re.IGNORECASE] reads it, [=], and the
    value, which is not empty and runs up to the next [&] or [#] or to
    the end. *)
Definition param_at (suf v : str) : Prop :=
  exists sep name post,
    suf = sep :: name ++ [ord "="] ++ v ++ post /\
    is_sep sep = true /\ param_name name /\
    v <> [] /\ forallb not_amp_hash v = true /\
    (post = [] \/ exists c r, post = c :: r /\ not_amp_hash c = false).

Definition url_has_param (url v : str) : Prop :=
  exists pre suf, url = pre ++ suf /\ param_at suf v.

(** [v] is the value of the leftmost such parameter of [url]. *)
Definition first_param (url v : str) : Prop :=
  exists pre suf, url = pre ++ suf /\ param_at suf v /\
    forall pre' suf' v', url = pre' ++ suf' ->
      (List.length pre' < List.length pre)%nat -> ~ param_at suf' v'.

(** The extractor gives, for every such parameter of [url] whose value
    holds an identifier, an identifier found inside that value. *)
Definition returns_param_identifier (url : str) : Prop :=
  forall v, url_has_param url v -> contains_bcid v ->
    exists m, parse_bcid_from_url url = Some m /\
              is_bcid m /\ substring_of m v.

(** The long s, U+017F. *)
Definition long_s : N := 383.

End Unicode.

(** ** JSON values, as [json.loads] builds them *)

#[local] Set Warnings "-register-all".
Inductive json : Type :=
| JNull
| JBool (b : bool)
| JInt (n : Z)
| JFloat (bits : Z)   (* the binary64 pattern; never inspected here *)
| JStr (s : string)
| JArr (items : list json)
| JObj (fields : list (string * json)).

Definition dict := list (string * json).

(** One component of a traversal path: a key of a [dict] or an index of a
    [list]. *)
Inductive step : Type :=
| Key (k : string)
| Idx (i : nat).

Definition path := list step.

Fixpoint dict_get (d : dict) (k : string) : option json :=
  match d with
  | [] => None
  | (k', v) :: d' => if String.eqb k' k then Some v else dict_get d' k
  end.

Definition dict_has (d : dict) (k : string) : bool :=
  match dict_get d k with Some _ => true | None => false end.

(** [d[k] = v]: replaces the value in place, or appends a new entry. *)
Fixpoint dict_set (d : dict) (k : string) (v : json) : dict :=
  match d with
  | [] => [(k, v)]
  | (k', v') :: d' =>
      if String.eqb k' k then (k', v) :: d' else (k', v') :: dict_set d' k v
  end.

Definition dict_keys (d : dict) : list string := map fst d.
Definition dict_values (d : dict) : list json := map snd d.

(** Every [dict] of the tree has pairwise different keys. *)
Fixpoint wf_json (j : json) : Prop :=
  match j with
  | JArr items =>
      (fix all (l : list json) : Prop :=
         match l with [] => True | x :: l' => wf_json x /\ all l' end) items
  | JObj fields =>
      NoDup (dict_keys fields) /\
      (fix all (l : dict) : Prop :=
         match l with [] => True | (_, v) :: l' => wf_json v /\ all l' end)
        fields
  | _ => True
  end.

(** ** Object finder ([iterate_json_nodes], [find_bc_objects]) *)

(** The generator, as the list of what it yields. *)
Fixpoint iterate_json_nodes (node : json) (p : path) : list (path * json) :=
  (p, node) ::
  match node with
  | JObj fields =>
      (fix items (l : dict) : list (path * json) :=
         match l with
         | [] => []
         | (key, value) :: l' =>
             (iterate_json_nodes value (p ++ [Key key]) ++ items l')%list
         end) fields
  | JArr xs =>
      (fix elems (idx : nat) (l : list json) : list (path * json) :=
         match l with
         | [] => []
         | value :: l' =>
             (iterate_json_nodes value (p ++ [Idx idx]) ++ elems (S idx) l')%list
         end) 0 xs
  | _ => []
  end.

Definition str_values (vs : list json) : list string :=
  flat_map (fun v => match v with JStr s => [s] | _ => [] end) vs.

(** The candidate strings of a [dict] node: the four common fields, then
    every string value. *)
Definition candidates (node : dict) : list string :=
  (flat_map
     (fun field =>
        match dict_get node field with
        | Some (JStr value) => [value]
        | _ => []
        end)
     ["id"; "bcId"; "bc_id"; "bcid"]
   ++ str_values (dict_values node))%list.

(** [bcid_filter and bcid.lower() != bcid_filter.lower()] *)
Definition filtered_out (bcid_filter : option string) (bcid : string) : bool :=
  match bcid_filter with
  | Some f => Str.truthy f && negb (String.eqb (lower bcid) (lower f))
  | None => false
  end.

(** The loop over the candidates of one node, with its [continue]s and
    its [break]. *)
Fixpoint evaluate_candidates (bcid_filter : option string) (node : json)
    (cands : list string) (results : list json) : list json :=
  match cands with
  | [] => results
  | candidate :: rest =>
      match BCID_search candidate with
      | None => evaluate_candidates bcid_filter node rest results
      | Some bcid =>
          if filtered_out bcid_filter bcid
          then evaluate_candidates bcid_filter node rest results
          else (results ++ [node])%list
      end
  end.

Definition visit (bcid_filter : option string) (results : list json)
    (node : json) : list json :=
  match node with
  | JObj fields =>
      evaluate_candidates bcid_filter node (candidates fields) results
  | _ => results
  end.

Definition find_bc_objects (data : json) (bcid_filter : option string)
  : list json :=
  fold_left (fun results '(_path, node) => visit bcid_filter results node)
    (iterate_json_nodes data []) [].

(** ** Summarizer ([summarize_object])

    The function reads one [dict] and fills a new one.  The store of
    [dict] objects is explicit: an address is an index into the store,
    and an operation of the interpreter either gives a result and the
    next store, or raises ([None]). *)

Module Heap.

Definition loc := nat.
Definition heap := list dict.
Definition M (A : Type) : Type := heap -> option (A * heap).

Definition ret {A} (x : A) : M A := fun h => Some (x, h).

Definition bind {A B} (m : M A) (f : A -> M B) : M B :=
  fun h => match m h with
           | Some (x, h') => f x h'
           | None => None
           end.

(** [{}] *)
Definition dict_new : M loc :=
  fun h => Some (List.length h, (h ++ [[]])%list).

Definition read {A} (l : loc) (f : dict -> option A) : M A :=
  fun h => match nth_error h l with
           | Some d => match f d with
                       | Some x => Some (x, h)
                       | None => None
                       end
           | None => None
           end.

Fixpoint store_at (h : heap) (l : loc) (d : dict) : option heap :=
  match h, l with
  | [], _ => None
  | _ :: h', O => Some (d :: h')
  | d0 :: h', S l' => option_map (cons d0) (store_at h' l' d)
  end.

(** [key in d] *)
Definition contains (l : loc) (key : string) : M bool :=
  read l (fun d => Some (dict_has d key)).

(** [d[key]]; raises [KeyError] on a missing key. *)
Definition getitem (l : loc) (key : string) : M json :=
  read l (fun d => dict_get d key).

(** [d[key] = value] *)
Definition setitem (l : loc) (key : string) (value : json) : M unit :=
  fun h => match nth_error h l with
           | Some d => option_map (pair tt) (store_at h l (dict_set d key value))
           | None => None
           end.

(** [len(d)] *)
Definition len (l : loc) : M nat := read l (fun d => Some (List.length d)).

(** [list(d.keys())] *)
Definition keys (l : loc) : M (list string) :=
  read l (fun d => Some (dict_keys d)).

(** [for x in xs: body(x)] *)
Fixpoint for_each {A} (xs : list A) (body : A -> M unit) : M unit :=
  match xs with
  | [] => ret tt
  | x :: xs' => bind (body x) (fun _ => for_each xs' body)
  end.

End Heap.

Notation "x <- m ;; k" := (Heap.bind m (fun x => k))
  (at level 61, m at next level, right associativity).
Notation "m ;;; k" := (Heap.bind m (fun _ => k))
  (at level 61, right associativity).

Definition keys_of_interest : list string :=
  [ "id"; "bcId"; "name"; "title"; "displayName"; "description";
    "createdAt"; "updatedAt"; "ownerId"; "visibility"; "slug"; "type" ].

(** The body of the first loop: [if key in obj: summary[key] = obj[key]]. *)
Definition copy_allowlisted (obj summary : Heap.loc) (key : string)
  : Heap.M unit :=
  present <- Heap.contains obj key ;;
  if (present : bool) then
    value <- Heap.getitem obj key ;;
    Heap.setitem summary key value
  else Heap.ret tt.

(** The body of the second loop:
    [if key not in summary: summary[key] = obj[key]]. *)
Definition copy_fallback (obj summary : Heap.loc) (key : string)
  : Heap.M unit :=
  copied <- Heap.contains summary key ;;
  if (copied : bool) then Heap.ret tt
  else
    value <- Heap.getitem obj key ;;
    Heap.setitem summary key value.

Definition summarize_object (obj : Heap.loc) : Heap.M Heap.loc :=
  summary <- Heap.dict_new ;;
  Heap.for_each keys_of_interest (copy_allowlisted obj summary) ;;;
  n <- Heap.len summary ;;
  (if (n <=? 2)%nat then
     ks <- Heap.keys obj ;;
     (* cap to avoid huge output *)
     Heap.for_each (firstn 10 ks) (copy_fallback obj summary)
   else Heap.ret tt) ;;;
  Heap.ret summary.

(** The summary of a [dict] held alone in a store. *)
Definition summarize (obj : dict) : option dict :=
  match summarize_object 0 [obj] with
  | Some (summary, h) => nth_error h summary
  | None => None
  end.

(** ** The command line tool ([main] of [cursor_agents_cli.py]) *)

(** Exception classes the tool tells apart.  A constructor stands for the
    exceptions of its class that belong to no class listed before it
    ([requests.HTTPError] is a subclass of [requests.RequestException]). *)
Inductive exn : Type :=
| HTTPError
| RequestException
| OSError
| JSONDecodeError
| OtherException.

(** The collaborators of the tool: the HTTP client, the file system, the
    HTML parser and the JSON parser.  [inl e] is a raised exception. *)
Class Platform : Type := {
  (** seconds, a [float] *)
  duration : Type;
  (** [requests.get(url, headers=, timeout=)]: status code and text *)
  requests_get : string -> list (string * string) -> duration -> exn + (Z * string);
  (** [open(path, "r", encoding="utf-8").read()] *)
  read_text : string -> exn + string;
  (** [json.dump(data, open(path, "w", encoding="utf-8"))] *)
  write_json : string -> json -> option exn;
  (** the [.text] of the tag that
      [soup.find("script", {"id": "__NEXT_DATA__", "type": "application/json"})]
      finds, if it finds one *)
  soup_find_next_data : string -> option string;
  (** [json.loads] *)
  json_loads : string -> exn + json;
}.

Inductive output_format : Type := FmtSummary | FmtJson | FmtPretty.

Record Args `{Platform} : Type := {
  a_url : string;
  a_bcid : option string;
  a_cookie : option string;
  a_cookie_file : option string;
  a_timeout : duration;
  a_format : output_format;
  a_output : option string;
}.

Inductive stream : Type := Stdout | Stderr.

Inductive message : Type :=
| WarnNoBcid                        (* [warn] No bcId found in arguments or URL... *)
| ErrCookieFile                     (* [error] Failed to read cookie file *)
| ErrHTTP                           (* [error] HTTP error *)
| ErrRequest                        (* [error] Request failed *)
| ErrNoNextData                     (* [error] Could not locate Next.js __NEXT_DATA__ *)
| WarnWriteFailed                   (* [warn] Failed to write output file *)
| WarnNoObjectsFor (bcid : string)  (* [warn] No objects found for bcId ... *)
| WarnNoObjects                     (* [warn] No bc-* objects found in page data *)
| OutJson (matches : list json)     (* json.dump(matches, sys.stdout); print() *)
| OutPretty (matches : list json)   (* json.dumps(matches, indent=2) *)
| OutSummaries (summaries : list dict).

Definition event : Type := stream * message.

(** How a run ends: [return code], or an exception that nothing catches. *)
Inductive outcome : Type :=
| Exit (code : Z)
| Uncaught (e : exn).

Definition run : Type := list event * outcome.

Definition say (e : event) (r : run) : run := (e :: fst r, snd r).
Definition emit (es : list event) (r : run) : run := ((es ++ fst r)%list, snd r).
Definition done (o : outcome) : run := ([], o).

Definition opt_truthy (s : option string) : bool :=
  match s with Some x => Str.truthy x | None => false end.

(** Code points below 256 that [str.strip()] removes. *)
Definition is_space (c : ascii) : bool :=
  let n := N_of_ascii c in
  ((9 <=? n) && (n <=? 13) || (28 <=? n) && (n <=? 32)
   || (n =? 133) || (n =? 160))%N.

Definition lstrip (s : string) : string := snd (Str.span is_space s).
Definition strip (s : string) : string :=
  Str.rev (lstrip (Str.rev (lstrip s))).

Definition build_cookie_header `{Platform}
    (raw_cookie cookie_file : option string)
  : list event * (exn + option string) :=
  if opt_truthy raw_cookie then
    ([], inr (option_map strip raw_cookie))
  else
    match cookie_file with
    | Some file =>
        if Str.truthy file then
          match read_text file with
          | inr content => ([], inr (Some (strip content)))
          | inl OSError => ([(Stderr, ErrCookieFile)], inr None)
          | inl e => ([], inl e)
          end
        else ([], inr None)
    | None => ([], inr None)
    end.

Definition base_headers : list (string * string) :=
  [ ("User-Agent",
     "Mozilla/5.0 (X11; Linux x86_64) AppleWebKit/537.36 (KHTML, like Gecko) Chrome/128.0.0.0 Safari/537.36");
    ("Accept", "text/html,application/xhtml+xml,application/xml;q=0.9,*/*;q=0.8");
    ("Accept-Language", "en-US,en;q=0.9");
    ("Cache-Control", "no-cache");
    ("Pragma", "no-cache");
    ("Connection", "keep-alive") ].

(** [Response.raise_for_status()] of requests: raises [HTTPError] for the
    client and server error codes, 400 to 599. *)
Definition raise_for_status (status_code : Z) : option exn :=
  if ((400 <=? status_code) && (status_code <? 600))%Z
  then Some HTTPError else None.

(** [headers], with the [Cookie] entry when there is a cookie. *)
Definition request_headers (cookie_header : option string)
  : list (string * string) :=
  match cookie_header with
  | Some c => if Str.truthy c then (base_headers ++ [("Cookie", c)])%list
              else base_headers
  | None => base_headers
  end.

Definition fetch_html `{Platform} (url : string)
    (cookie_header : option string) (timeout : duration) : exn + string :=
  let headers := request_headers cookie_header in
  match requests_get url headers timeout with
  | inl e => inl e
  | inr (status_code, text) =>
      match raise_for_status status_code with
      | Some e => inl e
      | None => inr text
      end
  end.

(** Python's [None] is the value [JNull]: a body that is the JSON text
    [null] parses to [None] as well. *)
Definition extract_next_data `{Platform} (html : string) : exn + json :=
  match soup_find_next_data html with
  | None => inr JNull
  | Some text =>
      if Str.truthy text then
        match json_loads text with
        | inr data => inr data
        | inl JSONDecodeError => inr JNull
        | inl e => inl e
        end
      else inr JNull
  end.

(** [[summarize_object(obj) for obj in matches]] *)
Fixpoint summarize_all (matches : list json) : option (list dict) :=
  match matches with
  | [] => Some []
  | JObj obj :: rest =>
      match summarize obj, summarize_all rest with
      | Some s, Some ss => Some (s :: ss)
      | _, _ => None
      end
  | _ :: _ => None
  end.

Definition report `{Platform} (fmt : output_format) (matches : list json) : run :=
  match fmt with
  | FmtJson => say (Stdout, OutJson matches) (done (Exit 0))
  | FmtPretty => say (Stdout, OutPretty matches) (done (Exit 0))
  | FmtSummary =>
      match summarize_all matches with
      | Some summaries => say (Stdout, OutSummaries summaries) (done (Exit 0))
      | None => done (Uncaught OtherException)
      end
  end.

Definition search_and_report `{Platform} (fmt : output_format)
    (data : json) (bcid : option string) : run :=
  match find_bc_objects data bcid with
  | [] =>
      (* still a valid run *)
      match bcid with
      | Some b => if Str.truthy b
                  then say (Stdout, WarnNoObjectsFor b) (done (Exit 0))
                  else say (Stdout, WarnNoObjects) (done (Exit 0))
      | None => say (Stdout, WarnNoObjects) (done (Exit 0))
      end
  | matches => report fmt matches
  end.

Definition main `{Platform} (args : Args) : run :=
  let bcid :=
    if opt_truthy (a_bcid args) then a_bcid args
    else parse_bcid_from_url (a_url args) in
  emit (if opt_truthy bcid then [] else [(Stderr, WarnNoBcid)])
  (let '(notes, cookie) := build_cookie_header (a_cookie args) (a_cookie_file args) in
   emit notes
   match cookie with
   | inl e => done (Uncaught e)
   | inr cookie_header =>
       match fetch_html (a_url args) cookie_header (a_timeout args) with
       | inl HTTPError => say (Stderr, ErrHTTP) (done (Exit 2))
       | inl RequestException => say (Stderr, ErrRequest) (done (Exit 2))
       | inl e => done (Uncaught e)
       | inr html =>
           match extract_next_data html with
           | inl e => done (Uncaught e)
           | inr JNull => say (Stderr, ErrNoNextData) (done (Exit 3))
           | inr data =>
               match a_output args with
               | Some file =>
                   if Str.truthy file then
                     match write_json file data with
                     | None => search_and_report (a_format args) data bcid
                     | Some OSError =>
                         say (Stderr, WarnWriteFailed)
                           (search_and_report (a_format args) data bcid)
                     | Some e => done (Uncaught e)
                     end
                   else search_and_report (a_format args) data bcid
               | None => search_and_report (a_format args) data bcid
               end
           end
       end
   end).

(** [parser.parse_args(argv)], lines 154 to 172 of [main]: the
    namespace of the arguments, or the [SystemExit] that argparse raises
    by itself before [main] does anything else, with the code 2 after an
    error of usage and the code 0 after [--help]. *)
Class Argparse {P : Platform} : Type := {
  parse_args : list string -> Z + @Args P;
}.

(** [main(argv)] from its first line: argparse ends the process, or the
    lines 174 to 225 run on the namespace. *)
Inductive started : Type :=
| ParserExit (code : Z)
| Ran (r : run).

Definition main_argv {P : Platform} {A : @Argparse P} (argv : list string)
  : started :=
  match parse_args argv with
  | inl code => ParserExit code
  | inr args => Ran (main args)
  end.


(** ** The fetcher ([CursorAgentFetcher] of [cursor_agent_fetcher.py])

    Here a [str] is a list of code points and [bytes] a list of bytes:
    the content decoder has to produce every code point. *)

Module CursorAgentFetcher.

Definition bytes := list Byte.byte.
Definition text := list N.

Definition byte_of_N (n : N) : Byte.byte :=
  match Byte.of_N n with Some b => b | None => Byte.x00 end.

(** A code point that UTF-8 can encode: not a surrogate, at most U+10FFFF. *)
Definition scalar_value (cp : N) : bool :=
  ((cp <? 55296) || (57343 <? cp) && (cp <=? 1114111))%N.

(** [str.encode("utf-8")] of one code point. *)
Definition utf8_encode_cp (cp : N) : list N :=
  (if cp <? 128 then [cp]
   else if cp <? 2048 then [192 + cp / 64; 128 + cp mod 64]
   else if cp <? 65536 then
     [224 + cp / 4096; 128 + (cp / 64) mod 64; 128 + cp mod 64]
   else
     [240 + cp / 262144; 128 + (cp / 4096) mod 64;
      128 + (cp / 64) mod 64; 128 + cp mod 64])%N.

(** [s.encode("utf-8")]; [None] is [UnicodeEncodeError]. *)
Fixpoint utf8_encode (s : text) : option bytes :=
  match s with
  | [] => Some []
  | cp :: s' =>
      if scalar_value cp then
        option_map (app (map byte_of_N (utf8_encode_cp cp))) (utf8_encode s')
      else None
  end.

(** A continuation byte, [10xxxxxx]. *)
Definition is_cont (b : N) : bool := ((128 <=? b) && (b <? 192))%N.

(** [content.decode("utf-8")], strict; [None] is [UnicodeDecodeError].
    A sequence is refused when it is cut short, when a continuation byte
    is missing, when it is longer than its code point needs, and when it
    gives a surrogate or a value above U+10FFFF. *)
Fixpoint utf8_decode (content : bytes) : option text :=
  match content with
  | [] => Some []
  | c0 :: r0 =>
      let b0 := Byte.to_N c0 in
      if (b0 <? 128)%N then option_map (cons b0) (utf8_decode r0)
      else if (b0 <? 192)%N then None
      else
        match r0 with
        | [] => None
        | c1 :: r1 =>
            let b1 := Byte.to_N c1 in
            if negb (is_cont b1) then None
            else if (b0 <? 224)%N then
              let cp := ((b0 - 192) * 64 + (b1 - 128))%N in
              if (cp <? 128)%N then None
              else option_map (cons cp) (utf8_decode r1)
            else
              match r1 with
              | [] => None
              | c2 :: r2 =>
                  let b2 := Byte.to_N c2 in
                  if negb (is_cont b2) then None
                  else if (b0 <? 240)%N then
                    let cp := ((b0 - 224) * 4096 + (b1 - 128) * 64
                               + (b2 - 128))%N in
                    if ((cp <? 2048) || negb (scalar_value cp))%N then None
                    else option_map (cons cp) (utf8_decode r2)
                  else
                    match r2 with
                    | [] => None
                    | c3 :: r3 =>
                        let b3 := Byte.to_N c3 in
                        if negb (is_cont b3) then None
                        else if (b0 <? 248)%N then
                          let cp := ((b0 - 240) * 262144 + (b1 - 128) * 4096
                                     + (b2 - 128) * 64 + (b3 - 128))%N in
                          if ((cp <? 65536) || negb (scalar_value cp))%N
                          then None
                          else option_map (cons cp) (utf8_decode r3)
                        else None
                    end
              end
        end
  end.

(** [content.decode("latin-1")]: each byte is its own code point.  The
    codec has an error path like every codec; no byte takes it. *)
Definition latin1_decode (content : bytes) : option text :=
  Some (map Byte.to_N content).

(** The base64 alphabet, as code points. *)
Definition b64_char (n : N) : N :=
  (if n <? 26 then 65 + n
   else if n <? 52 then 97 + (n - 26)
   else if n <? 62 then 48 + (n - 52)
   else if n =? 62 then 43 else 47)%N.

(** [base64.b64encode(content).decode("ascii")] *)
Fixpoint b64encode (content : bytes) : text :=
  match content with
  | [] => []
  | [a] =>
      let x := Byte.to_N a in
      [b64_char (x / 4); b64_char ((x mod 4) * 16); 61; 61]%N
  | [a; b] =>
      let x := Byte.to_N a in
      let y := Byte.to_N b in
      [b64_char (x / 4); b64_char ((x mod 4) * 16 + y / 16);
       b64_char ((y mod 16) * 4); 61]%N
  | a :: b :: c :: rest =>
      let x := Byte.to_N a in
      let y := Byte.to_N b in
      let z := Byte.to_N c in
      (b64_char (x / 4) :: b64_char ((x mod 4) * 16 + y / 16)
       :: b64_char ((y mod 16) * 4 + z / 64) :: b64_char (z mod 64)
       :: b64encode rest)%N
  end.

(** The gzip module.  [None] from [gzip_decompress] is a raised
    exception. *)
Class Gzip : Type := {
  gzip_compress : bytes -> bytes;
  gzip_decompress : bytes -> option bytes;
}.

(** What RFC 1952 and the module's documentation promise. *)
Class GzipLaws (G : Gzip) : Prop := {
  gzip_magic : forall b, exists r, gzip_compress b = Byte.x1f :: Byte.x8b :: r;
  gzip_round_trip : forall b, gzip_decompress (gzip_compress b) = Some b;
}.

(** An instance of the interface that frames without compressing: the
    two magic bytes, then the content. *)
Definition stored_gzip : Gzip := {|
  gzip_compress := fun b => Byte.x1f :: Byte.x8b :: b;
  gzip_decompress := fun b =>
    match b with
    | c0 :: c1 :: r =>
        if Byte.eqb c0 Byte.x1f && Byte.eqb c1 Byte.x8b then Some r else None
    | _ => None
    end;
|}.

(** The progress lines the decoder prints. *)
Inductive note : Type :=
| Decompressed          (* Decompressed gzipped content *)
| DecompressFailed      (* Failed to decompress gzip *)
| BinaryAsBase64.       (* Content appears to be binary, encoding as base64 *)

(** [content.startswith(b"\x1f\x8b")] *)
Definition starts_with_gzip_magic (content : bytes) : bool :=
  match content with
  | c0 :: c1 :: _ => Byte.eqb c0 Byte.x1f && Byte.eqb c1 Byte.x8b
  | _ => false
  end.

(** The first half of [decode_content]: the gzip frame is removed when
    there is one and it decompresses. *)
Definition gunzip_if_framed `{Gzip} (content : bytes) : list note * bytes :=
  if starts_with_gzip_magic content then
    match gzip_decompress content with
    | Some content' => ([Decompressed], content')
    | None => ([DecompressFailed], content)
    end
  else ([], content).

(** The second half: the chain of codecs. *)
Definition decode_text (content : bytes) : list note * text :=
  match utf8_decode content with
  | Some s => ([], s)
  | None =>
      match latin1_decode content with
      | Some s => ([], s)
      | None => ([BinaryAsBase64], b64encode content)
      end
  end.

Definition decode_content `{Gzip} (content : bytes) : list note * text :=
  let '(notes, content') := gunzip_if_framed content in
  let '(notes', s) := decode_text content' in
  ((notes ++ notes')%list, s).

(** [urlparse(url).query] and [parse_qs] of urllib, composed: the values
    of each parameter of the query, or a raised exception. *)
Class Urllib : Type := {
  parse_query : string -> exn + list (string * list string);
}.

Fixpoint params_get (params : list (string * list string)) (k : string)
  : option (list string) :=
  match params with
  | [] => None
  | (k', vs) :: rest => if String.eqb k' k then Some vs else params_get rest k
  end.

(** [extract_agent_id]: [params.get('selectedBcId', [None])[0]], with
    every exception caught, reported and turned into [None].  The second
    component tells whether the report was printed. *)
Definition extract_agent_id `{Urllib} (url : string) : option string * bool :=
  match parse_query url with
  | inl _ => (None, true)
  | inr params =>
      match params_get params "selectedBcId" with
      | None => (None, false)
      | Some (v :: _) => (Some v, false)
      | Some [] => (None, true)   (* IndexError, caught *)
      end
  end.

End CursorAgentFetcher.

(** ** Vocabulary of the properties *)

(** [m] is a whole match of a fixed-length pattern. *)
Definition matches (pat : list atom) (m : string) : Prop :=
  Forall2 (fun (p : atom) c => p c = true) pat (list_ascii_of_string m).

(** The identifier grammar. *)
Definition is_bcid (m : string) : Prop := matches BCID_REGEX m.

Definition contains_bcid (s : string) : Prop :=
  exists m, is_bcid m /\ Str.substring_of m s.

(** [m] is the leftmost identifier inside [s]. *)
Definition first_bcid (s m : string) : Prop :=
  exists a b, s = a ++ m ++ b /\ is_bcid m /\
    forall a' m' b', s = a' ++ m' ++ b' -> is_bcid m' ->
      String.length a <= String.length a'.

Definition param_name (name : string) : Prop :=
  lower name = "selectedbcid" \/ lower name = "bcid".

(** [suf] starts with a [selectedBcId] or [bcId] parameter of value [v]:
    a [?] or [&], the name in any case, [=], and the value, which is not
    empty and runs up to the next [&] or [#] or to the end. *)
Definition param_at (suf v : string) : Prop :=
  exists sep name post,
    suf = String sep (name ++ "=" ++ v ++ post) /\
    is_sep sep = true /\ param_name name /\
    v <> "" /\ Str.forallb not_amp_hash v = true /\
    (post = "" \/ exists c r, post = String c r /\ not_amp_hash c = false).

(** [v] is the value of the leftmost such parameter of [url]. *)
Definition first_param (url v : string) : Prop :=
  exists pre suf, url = pre ++ suf /\ param_at suf v /\
    forall pre' suf' v', url = pre' ++ suf' ->
      String.length pre' < String.length pre -> ~ param_at suf' v'.

(** A pattern character that is an ASCII letter. *)
Definition letter (p : ascii) : bool := in_range "a" "z" (ascii_lower p).

(** [extract] gives [None] for every URL that holds no identifier. *)
Definition returns_none_without_identifier
    (extract : string -> option string) : Prop :=
  forall url, ~ contains_bcid url -> extract url = None.

(** The nodes of a tree, in the order of the traversal. *)
Definition nodes (data : json) : list json :=
  map snd (iterate_json_nodes data []).

Definition visited (data node : json) : Prop :=
  exists p, In (p, node) (iterate_json_nodes data []).

(** The node that a path leads to. *)
Fixpoint json_at (j : json) (q : path) : option json :=
  match q with
  | [] => Some j
  | Key k :: q' =>
      match j with
      | JObj fields =>
          match dict_get fields k with
          | Some v => json_at v q'
          | None => None
          end
      | _ => None
      end
  | Idx i :: q' =>
      match j with
      | JArr items =>
          match nth_error items i with
          | Some v => json_at v q'
          | None => None
          end
      | _ => None
      end
  end.

(** Number of nodes, and of [dict] nodes, of a tree. *)
Fixpoint node_count (j : json) : nat :=
  S match j with
    | JArr items =>
        (fix sum (l : list json) : nat :=
           match l with [] => 0 | x :: l' => node_count x + sum l' end) items
    | JObj fields =>
        (fix sum (l : dict) : nat :=
           match l with [] => 0 | (_, v) :: l' => node_count v + sum l' end)
          fields
    | _ => 0
    end.

Fixpoint dict_count (j : json) : nat :=
  match j with
  | JArr items =>
      (fix sum (l : list json) : nat :=
         match l with [] => 0 | x :: l' => dict_count x + sum l' end) items
  | JObj fields =>
      S ((fix sum (l : dict) : nat :=
            match l with [] => 0 | (_, v) :: l' => dict_count v + sum l' end)
           fields)
  | _ => 0
  end.

(** A candidate string that ends the loop over the candidates: it holds
    an identifier, and its leftmost identifier passes the filter. *)
Definition passes (bcid_filter : option string) (candidate : string) : bool :=
  match BCID_search candidate with
  | Some bcid => negb (filtered_out bcid_filter bcid)
  | None => false
  end.

(** The nodes that the finder emits. *)
Definition accepted (bcid_filter : option string) (node : json) : bool :=
  match node with
  | JObj fields => existsb (passes bcid_filter) (candidates fields)
  | _ => false
  end.

(** [node] is a [dict] with a string value that holds an identifier [m]
    with the property [P]. *)
Definition has_identifier (P : string -> Prop) (node : json) : Prop :=
  exists fields k s m,
    node = JObj fields /\ In (k, JStr s) fields /\
    is_bcid m /\ Str.substring_of m s /\ P m.

(** [node] is a [dict] with a string value whose leftmost identifier [m]
    has the property [P]. *)
Definition has_leftmost_identifier (P : string -> Prop) (node : json) : Prop :=
  exists fields k s m,
    node = JObj fields /\ In (k, JStr s) fields /\ first_bcid s m /\ P m.

(** Equality up to case, as the finder tests it. *)
Definition same_identifier (target m : string) : Prop :=
  lower m = lower target.

(** The children of a node with the step that leads to each. *)
Definition children (node : json) : list (step * json) :=
  match node with
  | JObj fields => map (fun kv => (Key (fst kv), snd kv)) fields
  | JArr items =>
      map (fun iv => (Idx (fst iv), snd iv))
        (combine (seq 0 (List.length items)) items)
  | _ => []
  end.

Definition is_dict (node : json) : bool :=
  match node with JObj _ => true | _ => false end.

(** The allowlisted fields that a [dict] has, in the order of the
    allowlist. *)
Definition hit (d : dict) (key : string) : dict :=
  match dict_get d key with Some v => [(key, v)] | None => [] end.

Definition allowlist_hits (d : dict) : dict :=
  flat_map (hit d) keys_of_interest.

(** The fields among the first ten of [d] whose key [s] does not have. *)
Definition fallback_fields (d s : dict) : dict :=
  filter (fun kv => negb (dict_has s (fst kv))) (firstn 10 d).

(** The effect of one turn of each loop on the summary. *)
Definition copy_if_present (d s : dict) (key : string) : dict :=
  match dict_get d key with Some v => dict_set s key v | None => s end.

Definition copy_if_new (d s : dict) (key : string) : dict :=
  if dict_has s key then s else copy_if_present d s key.

(** The summary as a function of the object. *)
Definition summary_of (d : dict) : dict :=
  let s := fold_left (copy_if_present d) keys_of_interest [] in
  if (List.length s <=? 2)%nat
  then fold_left (copy_if_new d) (firstn 10 (dict_keys d)) s
  else s.

(** The output file, when one is asked for, is written, or the write
    fails with [OSError]. *)
Definition output_written `{Platform} (args : Args) (data : json) : Prop :=
  match a_output args with
  | Some file =>
      Str.truthy file = true ->
      write_json file data = None \/ write_json file data = Some OSError
  | None => True
  end.

(** A platform for the examples: four pages of one site, no readable
    cookie file, a JSON parser that knows the empty object. *)
Definition next_data_page : string :=
  "<script id=__NEXT_DATA__ type=application/json>{}</script>".
Definition broken_page : string :=
  "<script id=__NEXT_DATA__ type=application/json>{oops</script>".
Definition login_page : string := "<html><body>Sign in</body></html>".

Definition example_platform : Platform := {|
  duration := unit;
  requests_get := fun url _ _ =>
    if String.eqb url "https://cursor.com/agents" then inr (200%Z, next_data_page)
    else if String.eqb url "https://cursor.com/broken" then inr (200%Z, broken_page)
    else if String.eqb url "https://cursor.com/login" then inr (200%Z, login_page)
    else if String.eqb url "https://cursor.com/missing" then inr (404%Z, "")
    else inl RequestException;
  read_text := fun _ => inl OSError;
  write_json := fun _ _ => None;
  soup_find_next_data := fun html =>
    if String.eqb html next_data_page then Some "{}"
    else if String.eqb html broken_page then Some "{oops"
    else None;
  json_loads := fun text =>
    if String.eqb text "{}" then inr (JObj []) else inl JSONDecodeError;
|}.

(** [--url url], every other option left out. *)
Definition example_args (url : string) : @Args example_platform :=
  @Build_Args example_platform url None None None tt FmtSummary None.

(** The object of the scenario of the specification. *)
Definition scenario_object : dict :=
  [ ("id", JStr "bc-00000000-0000-0000-0000-000000000000"); ("name", JStr "X");
    ("extra1", JInt 1); ("extra2", JInt 2); ("extra3", JInt 3);
    ("extra4", JInt 4); ("extra5", JInt 5); ("extra6", JInt 6);
    ("extra7", JInt 7); ("extra8", JInt 8); ("extra9", JInt 9);
    ("extra10", JInt 10); ("extra11", JInt 11); ("extra12", JInt 12);
    ("extra13", JInt 13); ("extra14", JInt 14); ("extra15", JInt 15) ].

(** An object that reaches twelve entries: two allowlisted fields after
    more than ten others. *)
Definition twelve_fields : dict :=
  [ ("k0", JInt 0); ("k1", JInt 1); ("k2", JInt 2); ("k3", JInt 3);
    ("k4", JInt 4); ("k5", JInt 5); ("k6", JInt 6); ("k7", JInt 7);
    ("k8", JInt 8); ("k9", JInt 9); ("k10", JInt 10);
    ("slug", JStr "s"); ("type", JStr "t") ].

(** ** Vocabulary of the further properties *)

(** The acceptance test read on the string values alone, in the order of
    the fields. *)
Definition values_accept (bcid_filter : option string) (node : json) : bool :=
  match node with
  | JObj fields => existsb (passes bcid_filter) (str_values (dict_values fields))
  | _ => false
  end.

(** What the finder adds for the node itself. *)
Definition own_match (bcid_filter : option string) (node : json) : list json :=
  if accepted bcid_filter node then [node] else [].

(** A gzip module whose [decompress] raises on every input. *)
Definition failing_gzip : CursorAgentFetcher.Gzip := {|
  CursorAgentFetcher.gzip_compress := fun b => b;
  CursorAgentFetcher.gzip_decompress := fun _ => None;
|}.



(** No white space at either end. *)
Definition trimmed (s : string) : Prop :=
  (forall c r, s = String c r -> is_space c = false) /\
  (forall r c, s = r ++ String c "" -> is_space c = false).

(** A platform for the examples whose one page carries the payload
    [null]. *)
Definition null_page : string :=
  "<script id=__NEXT_DATA__ type=application/json>null</script>".

Definition null_platform : Platform := {|
  duration := unit;
  requests_get := fun _ _ _ => inr (200%Z, null_page);
  read_text := fun _ => inr " sid=1 ";
  write_json := fun _ _ => Some OSError;
  soup_find_next_data := fun html =>
    if String.eqb html null_page then Some "null" else None;
  json_loads := fun text =>
    if String.eqb text "null" then inr JNull else inl JSONDecodeError;
|}.


(** ** The fetcher, continued ([fetch_agent_data],
    [try_alternative_endpoints], [main] of [cursor_agent_fetcher.py])

    The functions print and make requests.  A run takes the number of
    requests the process has made so far and gives the lines printed,
    the result and the number of requests made then.  The answer of the
    network to a request and the clock may depend on that number. *)

Module AgentFetch.
Import CursorAgentFetcher.

(** Exception classes the fetcher tells apart; a constructor stands for
    the exceptions of its class that belong to no class listed before. *)
Inductive fexn : Type :=
| ETimeout          (* requests.exceptions.Timeout *)
| EConnection       (* requests.exceptions.ConnectionError *)
| EJSONDecode       (* json.JSONDecodeError *)
| EOther.

(** A [requests.Response], with what [response.json()] gives. *)
Record Response : Type := {
  r_status_code : Z;
  r_reason : string;
  r_content_type : option string;   (* headers.get('content-type') *)
  r_content : bytes;
  r_json : fexn + json;
}.

(** The error messages, by their templates. *)
Inductive error_text : Type :=
| AgentNotFound                          (* Agent not found (404). ... *)
| AccessForbidden                        (* Access forbidden (403). ... *)
| HttpStatus (status : Z) (reason : string)   (* HTTP {status}: {reason} *)
| TimedOut (timeout : Z)                 (* Request timed out after ... *)
| ConnectionFailed                       (* Connection error. ... *)
| Unexpected (e : fexn)                  (* Unexpected error: {e} *)
| NoEndpoints.                           (* No accessible endpoints found ... *)

(** The collaborators: the session, the clock, [str.lower], and
    [extract_agent_info], whose body stays with BeautifulSoup: it
    catches every exception, prints a warning then, and returns a
    [dict]. *)
Class Session : Type := {
  (** [session.get(url, timeout=)], as the request number [n] *)
  session_get : nat -> string -> Z -> fexn + Response;
  (** [time.strftime('%Y-%m-%d %H:%M:%S UTC', time.gmtime())] *)
  strftime_now : nat -> string;
  (** [int(time.time())] *)
  time_seconds : nat -> Z;
  (** [str.lower] *)
  text_lower : text -> text;
  extracted_info : Type;
  (** the [dict], and whether the warning was printed *)
  extract_agent_info : text -> extracted_info * bool;
}.

(** The three shapes of [AgentData.data]. *)
Inductive payload `{Session} : Type :=
| JsonData (json_data : json)
| HtmlData (raw_html : text) (info : extracted_info)
| TextData (content : text).

Record AgentData `{Session} : Type := {
  agent_id : option string;
  url : option string;
  status_code : option Z;
  content_type : option string;
  response_size : option nat;
  error_message : option error_text;
  timestamp : option string;
  data : option payload;
}.

Inductive line `{Session} : Type :=
| ErrorExtractingId                 (* Error extracting agent ID: ... *)
| Fetching (url : string)           (* Fetching data from: {url} *)
| FetchedJson                       (* Successfully fetched JSON data *)
| FetchedHtml                       (* Successfully fetched HTML data *)
| FetchedText                       (* Successfully fetched text data *)
| ErrorExtractingInfo               (* Error extracting agent info: ... *)
| Decoder (n : note)
| Failed (e : error_text)           (* the line of each failure *)
| TryingAlternatives                (* Trying alternative endpoints... *)
| Trying (alt_url : string)         (* Trying: {alt_url} *)
| AlternativeWorked (alt_url : string)
| NoAlternativeWorked
| MainUrlFailed (agent_id : string) (* Main URL failed, trying ... *)
| Summary (agent_data : AgentData)  (* print_summary *)
| Saved (output_file : string)
| ErrorSaving.

(** The file system of [save_data]:
    [json.dump(asdict(agent_data), open(output_file, 'w'))], and whether
    it returned rather than raised. *)
Class Files `{Session} : Type := {
  dump_agent_data : string -> AgentData -> bool;
}.

Section Runs.
Context {Se : Session} {Fi : @Files Se} {Gz : Gzip} {Ur : Urllib}.

Definition Run (A : Type) : Type := nat -> list line * A * nat.

Definition ret {A} (x : A) : Run A := fun n => ([], x, n).

Definition bind {A B} (m : Run A) (f : A -> Run B) : Run B :=
  fun n =>
    let '(l1, x, n1) := m n in
    let '(l2, y, n2) := f x n1 in
    ((l1 ++ l2)%list, y, n2).

Definition print (l : line) : Run unit := fun n => ([l], tt, n).
Definition prints (ls : list line) : Run unit := fun n => (ls, tt, n).
Definition request (url : string) (timeout : Z) : Run (fexn + Response) :=
  fun n => ([], session_get n url timeout, S n).
Definition now : Run string := fun n => ([], strftime_now n, n).
Definition clock : Run Z := fun n => ([], time_seconds n, n).

(** Python's [in] on strings. *)
Fixpoint starts_with (needle hay : text) : bool :=
  match needle, hay with
  | [], _ => true
  | a :: needle', b :: hay' => (a =? b)%N && starts_with needle' hay'
  | _ :: _, [] => false
  end.

Fixpoint text_in (needle hay : text) : bool :=
  starts_with needle hay ||
  match hay with
  | [] => false
  | _ :: hay' => text_in needle hay'
  end.

(** ['<html' in s.lower() or '<!doctype' in s.lower()] *)
Definition looks_like_html (decoded_content : text) : bool :=
  text_in [60; 104; 116; 109; 108]%N (text_lower decoded_content)
  || text_in [60; 33; 100; 111; 99; 116; 121; 112; 101]%N
       (text_lower decoded_content).

(** [s[:5000] + '...' if len(s) > 5000 else s] *)
Definition truncate_html (decoded_content : text) : text :=
  if (5000 <? List.length decoded_content)%nat
  then (firstn 5000 decoded_content ++ [46; 46; 46]%N)%list
  else decoded_content.

(** What the [except] clauses of [fetch_agent_data] store. *)
Definition failure (timeout : Z) (e : fexn) : error_text :=
  match e with
  | ETimeout => TimedOut timeout
  | EConnection => ConnectionFailed
  | _ => Unexpected e
  end.

(** The branch for status 200: JSON first, then the decoded content. *)
Definition read_body (response : Response) : list line * (fexn + option payload) :=
  match r_json response with
  | inr JNull => ([FetchedJson], inr None)
  | inr json_data => ([FetchedJson], inr (Some (JsonData json_data)))
  | inl EJSONDecode =>
      let '(notes, decoded_content) := decode_content (r_content response) in
      if looks_like_html decoded_content then
        let '(info, warned) := extract_agent_info decoded_content in
        ((map Decoder notes ++ [FetchedHtml]
          ++ (if warned then [ErrorExtractingInfo] else []))%list,
         inr (Some (HtmlData (truncate_html decoded_content) info)))
      else
        ((map Decoder notes ++ [FetchedText])%list,
         inr (Some (TextData decoded_content)))
  | inl e => ([], inl e)
  end.

Definition fetch_agent_data (timeout : Z) (url0 : string) : Run AgentData :=
  bind now (fun stamp =>
  let '(id, reported) := extract_agent_id url0 in
  bind (prints (if reported then [ErrorExtractingId] else [])) (fun _ =>
  let agent_data :=
    {| agent_id := id; url := Some url0; status_code := None;
       content_type := None; response_size := None; error_message := None;
       timestamp := Some stamp; data := None |} in
  bind (print (Fetching url0)) (fun _ =>
  bind (request url0 timeout) (fun got =>
  match got with
  | inl e =>
      bind (print (Failed (failure timeout e))) (fun _ =>
      ret {| agent_id := id; url := Some url0; status_code := None;
             content_type := None; response_size := None;
             error_message := Some (failure timeout e);
             timestamp := Some stamp; data := None |})
  | inr response =>
      let status := r_status_code response in
      let ctype :=
        match r_content_type response with
        | Some c => c
        | None => "unknown"
        end in
      let size := List.length (r_content response) in
      let answered err dat :=
        {| agent_id := id; url := Some url0; status_code := Some status;
           content_type := Some ctype; response_size := Some size;
           error_message := err; timestamp := Some stamp; data := dat |} in
      if (status =? 200)%Z then
        let '(lines, body) := read_body response in
        match body with
        | inr dat => bind (prints lines) (fun _ => ret (answered None dat))
        | inl e =>
            bind (prints lines) (fun _ =>
            bind (print (Failed (failure timeout e))) (fun _ =>
            ret (answered (Some (failure timeout e)) None)))
        end
      else
        let err :=
          if (status =? 404)%Z then AgentNotFound
          else if (status =? 403)%Z then AccessForbidden
          else HttpStatus status (r_reason response) in
        bind (print (Failed err)) (fun _ => ret (answered (Some err) None))
  end)))).

Definition alternative_urls (id : string) : list string :=
  [ "https://cursor.com/api/agents/" ++ id;
    "https://api.cursor.com/agents/" ++ id;
    "https://cursor.com/agents/" ++ id ++ ".json";
    "https://cursor.com/agents/data/" ++ id ].

(** [AgentData(error_message="No accessible endpoints found ...")] *)
Definition no_endpoints : AgentData :=
  {| agent_id := None; url := None; status_code := None;
     content_type := None; response_size := None;
     error_message := Some NoEndpoints; timestamp := None; data := None |}.

Definition is_200 (agent_data : AgentData) : bool :=
  match status_code agent_data with
  | Some s => (s =? 200)%Z
  | None => false
  end.

(** The loop over the alternative URLs, with its early [return]; the
    pause of one second after a failure leaves no trace. *)
Fixpoint try_each (timeout : Z) (urls : list string) : Run AgentData :=
  match urls with
  | [] => bind (print NoAlternativeWorked) (fun _ => ret no_endpoints)
  | alt_url :: rest =>
      bind (print (Trying alt_url)) (fun _ =>
      bind (fetch_agent_data timeout alt_url) (fun agent_data =>
      if is_200 agent_data then
        bind (print (AlternativeWorked alt_url)) (fun _ => ret agent_data)
      else try_each timeout rest))
  end.

Definition try_alternative_endpoints (timeout : Z) (base_url id : string)
  : Run AgentData :=
  bind (print TryingAlternatives) (fun _ =>
  try_each timeout (alternative_urls id)).

(** The answer of the address number [i] of [urls] when it is requested
    as request [n + i]. *)
Definition answer_at (timeout : Z) (urls : list string) (n i : nat) : AgentData :=
  snd (fst (fetch_agent_data timeout (nth i urls "") (n + i))).

Definition save_data (agent_data : AgentData) (output_file : string) : Run unit :=
  if dump_agent_data output_file agent_data
  then print (Saved output_file) else print ErrorSaving.

Record FetchArgs : Type := {
  f_url : string;
  f_output : option string;
  f_timeout : Z;
  f_try_alternatives : bool;
}.

Definition main (args : FetchArgs) : Run Z :=
  bind (fetch_agent_data (f_timeout args) (f_url args)) (fun agent_data =>
  bind
    (match agent_id agent_data with
     | Some id =>
         if negb (is_200 agent_data) && f_try_alternatives args && Str.truthy id
         then
           bind (print (MainUrlFailed id)) (fun _ =>
           bind (try_alternative_endpoints (f_timeout args) (f_url args) id)
             (fun alt_data =>
           ret (if is_200 alt_data then alt_data else agent_data)))
         else ret agent_data
     | None => ret agent_data
     end) (fun agent_data =>
  bind (print (Summary agent_data)) (fun _ =>
  bind
    (match f_output args with
     | Some output_file =>
         if Str.truthy output_file then save_data agent_data output_file
         else ret tt
     | None => ret tt
     end) (fun _ =>
  ret (if is_200 agent_data then 0 else 1)%Z)))).

End Runs.

(** [parser.parse_args()], lines 279 to 286 of [main]: the namespace of
    the arguments, or the [SystemExit] that argparse raises by itself,
    with the code 2 after an error of usage (no URL, a timeout that is
    no integer) and the code 0 after [--help]. *)
Class Argparse : Type := {
  parse_args : list string -> Z + FetchArgs;
}.

(** How [sys.exit(main())] ends: argparse exits, or [main] returns. *)
Inductive ending : Type :=
| ParserExit (code : Z)
| Returned (code : Z).

Section Entry.
Context {Se : Session} {Fi : @Files Se} {Gz : Gzip} {Ur : Urllib}
  {Ap : Argparse}.

(** [main()] from its first line. *)
Definition main_argv (argv : list string) : Run ending :=
  match parse_args argv with
  | inl code => ret (ParserExit code)
  | inr args => bind (main args) (fun code => ret (Returned code))
  end.

End Entry.

End AgentFetch.

(** A session for the examples: the agents page refuses (403), the
    second alternative address answers with JSON, a third address
    answers 200 with a body that [response.json()] chokes on, and
    nothing else can be reached. *)
Definition example_response (status : Z) (body : AgentFetch.fexn + json) : AgentFetch.Response :=
  {| AgentFetch.r_status_code := status;
     AgentFetch.r_reason := "";
     AgentFetch.r_content_type := Some "application/json";
     AgentFetch.r_content := [Byte.x7b; Byte.x7d];
     AgentFetch.r_json := body |}.

Definition example_session : AgentFetch.Session := {|
  AgentFetch.session_get := fun _ url _ =>
    if String.eqb url "https://cursor.com/agents?selectedBcId=a1"
    then inr (example_response 403 (inr (JObj [])))
    else if String.eqb url "https://api.cursor.com/agents/a1"
    then inr (example_response 200 (inr (JObj [])))
    else if String.eqb url "https://cursor.com/agents/odd"
    then inr (example_response 200 (inl AgentFetch.EOther))
    else if String.eqb url "https://cursor.com/agents/page"
    then inr (example_response 200 (inl AgentFetch.EJSONDecode))
    else inl AgentFetch.EConnection;
  AgentFetch.strftime_now := fun _ => "2024-01-01 00:00:00 UTC";
  AgentFetch.time_seconds := fun n => (1704067200 + Z.of_nat n)%Z;
  AgentFetch.text_lower := fun s => s;
  AgentFetch.extracted_info := unit;
  AgentFetch.extract_agent_info := fun _ => (tt, false);
|}.

Definition example_files : @AgentFetch.Files example_session :=
  {| AgentFetch.dump_agent_data := fun _ _ => true |}.

Definition example_urllib : CursorAgentFetcher.Urllib := {|
  CursorAgentFetcher.parse_query := fun url =>
    if String.eqb url "https://cursor.com/agents?selectedBcId=a1"
    then inr [("selectedBcId", ["a1"])] else inr [];
|}.


Definition example_fetch_argparse : AgentFetch.Argparse := {|
  AgentFetch.parse_args := fun argv =>
    match argv with
    | [arg] =>
        if String.eqb arg "--help" then inl 0%Z
        else inr {| AgentFetch.f_url := arg; AgentFetch.f_output := None;
                    AgentFetch.f_timeout := 30;
                    AgentFetch.f_try_alternatives := false |}
    | _ => inl 2%Z
    end;
|}.

(** ** The web viewer (the handlers of [web_viewer.py])

    [agent_data_store] is passed from handler to handler; a handler
    that fetches is a run of the fetcher.  Nothing raises inside the
    [try] of [fetch_agent] in this model, so its answer 500 does not
    appear. *)

Module WebViewer.
Import CursorAgentFetcher AgentFetch.

Section Handlers.
Context {Se : Session} {Gz : Gzip} {Ur : Urllib}.

(** [agent_data_store]: a [dict] from keys to records, in insertion
    order. *)
Definition store : Type := list (string * AgentData).

Fixpoint store_get (st : store) (k : string) : option AgentData :=
  match st with
  | [] => None
  | (k', v) :: st' => if String.eqb k' k then Some v else store_get st' k
  end.

(** [agent_data_store[k] = v] *)
Fixpoint store_set (st : store) (k : string) (v : AgentData) : store :=
  match st with
  | [] => [(k, v)]
  | (k', v') :: st' =>
      if String.eqb k' k then (k', v) :: st' else (k', v') :: store_set st' k v
  end.

Definition store_keys (st : store) : list string := map fst st.

(** One line of the table of [list_agents]. *)
Record row : Type := {
  row_timestamp : string;
  row_url : option string;
  row_agent_id : option string;
  row_status_code : option Z;
  row_fetch_time : option string;
}.

(** What a handler answers, with its status code. *)
Inductive reply : Type :=
| UrlRequired                        (* jsonify({'error': 'URL is required'}), 400 *)
| RedirectToView (timestamp : string)          (* redirect(url_for('view_agent', ...)) *)
| NotFoundText                       (* "Agent data not found", 404 *)
| NotFoundJson                       (* jsonify({'error': ...}), 404 *)
| ViewPage (agent_data : AgentData) (timestamp : string)
| AgentJson (agent_data : AgentData)           (* jsonify(asdict(...)) *)
| ListPage (agents : list row).

Definition http_status (r : reply) : Z :=
  match r with
  | UrlRequired => 400
  | RedirectToView _ => 302
  | NotFoundText | NotFoundJson => 404
  | ViewPage _ _ | AgentJson _ | ListPage _ => 200
  end.

(** [str(int(time.time()))] *)
Definition str_int (z : Z) : string :=
  DecimalString.NilZero.string_of_int (Z.to_int z).

(** [POST /fetch]; [form_url] is [request.form.get('url')]. *)
Definition fetch_agent (form_url : option string) (st : store)
  : Run (reply * store) :=
  let url0 := strip (match form_url with Some u => u | None => "" end) in
  if Str.truthy url0 then
    bind (fetch_agent_data 30 url0) (fun agent_data =>
    bind clock (fun seconds =>
    let timestamp0 := str_int seconds in
    ret (RedirectToView timestamp0, store_set st timestamp0 agent_data)))
  else ret (UrlRequired, st).

(** [GET /view/<timestamp>] *)
Definition view_agent (timestamp0 : string) (st : store) : reply :=
  match store_get st timestamp0 with
  | None => NotFoundText
  | Some agent_data => ViewPage agent_data timestamp0
  end.

(** [GET /api/data/<timestamp>] *)
Definition get_agent_data (timestamp0 : string) (st : store) : reply :=
  match store_get st timestamp0 with
  | None => NotFoundJson
  | Some agent_data => AgentJson agent_data
  end.

(** [GET /list] *)
Definition list_agents (st : store) : reply :=
  ListPage
    (map (fun '(timestamp0, d) =>
            {| row_timestamp := timestamp0; row_url := url d;
               row_agent_id := agent_id d; row_status_code := status_code d;
               row_fetch_time := timestamp d |}) st).

End Handlers.

End WebViewer.

(** A session whose clock stands still, and a store with two
    records, for the examples. *)
Definition frozen_session : AgentFetch.Session := {|
  AgentFetch.session_get := @AgentFetch.session_get example_session;
  AgentFetch.strftime_now := @AgentFetch.strftime_now example_session;
  AgentFetch.time_seconds := fun _ => 1704067200%Z;
  AgentFetch.text_lower := @AgentFetch.text_lower example_session;
  AgentFetch.extracted_info := @AgentFetch.extracted_info example_session;
  AgentFetch.extract_agent_info :=
    @AgentFetch.extract_agent_info example_session;
|}.

Definition example_store : @WebViewer.store example_session :=
  let first :=
    @WebViewer.fetch_agent example_session CursorAgentFetcher.stored_gzip example_urllib
      (Some " https://cursor.com/agents/page ") [] 0 in
  let second :=
    @WebViewer.fetch_agent example_session CursorAgentFetcher.stored_gzip example_urllib
      (Some "https://cursor.com/agents?selectedBcId=a1")
      (snd (snd (fst first))) 7 in
  snd (snd (fst second)).

(** * Facts *)

Module StrFacts.
Import Str.

Lemma app_nil_r (s : string) : s ++ "" = s.
Proof. induction s; simpl; congruence. Qed.

Lemma app_assoc (a b c : string) : (a ++ b) ++ c = a ++ b ++ c.
Proof. induction a; simpl; congruence. Qed.

Lemma length_app (a b : string) :
  String.length (a ++ b) = String.length a + String.length b.
Proof. induction a; simpl; congruence. Qed.

(** Two splittings of one string at the same offset agree. *)
Lemma app_inj_length (a b a' b' : string) :
  a ++ b = a' ++ b' -> String.length a = String.length a' ->
  a = a' /\ b = b'.
Proof.
  revert a'; induction a as [|c a IH]; intros [|c' a']; simpl;
    intros E L; try discriminate.
  - now split.
  - injection E as -> E. injection L as L.
    destruct (IH _ E L) as [-> ->]. now split.
Qed.

(** Of two prefixes of one string, the shorter is a prefix of the longer. *)
Lemma app_split_le (a b a' b' : string) :
  a ++ b = a' ++ b' -> String.length a <= String.length a' ->
  exists d, a' = a ++ d /\ b = d ++ b'.
Proof.
  revert a'; induction a as [|c a IH]; intros a'; simpl; intros E L.
  - exists a'. now split.
  - destruct a' as [|c' a']; simpl in *; [lia|].
    injection E as -> E.
    destruct (IH a' E ltac:(lia)) as (d & -> & ->).
    exists d. now split.
Qed.

Lemma substring_of_trans (a b c : string) :
  substring_of a b -> substring_of b c -> substring_of a c.
Proof.
  intros (p1 & q1 & ->) (p2 & q2 & ->).
  exists (p2 ++ p1), (q1 ++ q2).
  now rewrite !app_assoc.
Qed.

Lemma substring_of_suffix (m pre suf : string) :
  substring_of m suf -> substring_of m (pre ++ suf).
Proof.
  intros (p & q & ->). exists (pre ++ p), q. now rewrite app_assoc.
Qed.

Lemma list_of_app (a b : string) :
  list_ascii_of_string (a ++ b)
  = (list_ascii_of_string a ++ list_ascii_of_string b)%list.
Proof. induction a; simpl; congruence. Qed.

Lemma span_app p s : fst (span p s) ++ snd (span p s) = s.
Proof.
  induction s as [|c r IH]; simpl; [reflexivity|].
  destruct (p c); [|reflexivity].
  destruct (span p r); simpl in *. congruence.
Qed.

Lemma span_all p s : forallb p (fst (span p s)) = true.
Proof.
  induction s as [|c r IH]; simpl; [reflexivity|].
  destruct (p c) eqn:E; [|reflexivity].
  destruct (span p r); simpl in *. now rewrite E.
Qed.

Lemma span_stop p s :
  snd (span p s) = "" \/
  exists c r, snd (span p s) = String c r /\ p c = false.
Proof.
  induction s as [|c r IH]; simpl; [now left|].
  destruct (p c) eqn:E.
  - destruct (span p r); simpl in *. exact IH.
  - right. now exists c, r.
Qed.

Lemma span_unique p v post :
  forallb p v = true ->
  (post = "" \/ exists c r, post = String c r /\ p c = false) ->
  span p (v ++ post) = (v, post).
Proof.
  induction v as [|c v IH]; simpl; intros Hv Hp.
  - destruct Hp as [->|(c & r & -> & E)]; simpl; [reflexivity|].
    now rewrite E.
  - apply andb_true_iff in Hv as [-> Hv]. now rewrite IH.
Qed.

End StrFacts.

(** ** The regular expressions against their languages *)

Module Regex.
Import Str StrFacts.

Lemma match_seq_sound pat : forall s m rest,
  match_seq pat s = Some (m, rest) -> s = m ++ rest /\ matches pat m.
Proof.
  induction pat as [|p pat IH]; simpl; intros s m rest H.
  - injection H as <- <-. split; [reflexivity|constructor].
  - destruct s as [|c r]; [discriminate|].
    destruct (p c) eqn:Ep; [|discriminate].
    destruct (match_seq pat r) as [[m' rest']|] eqn:E; [|discriminate].
    injection H as <- <-. destruct (IH _ _ _ E) as [-> Hm].
    split; [reflexivity|]. now constructor.
Qed.

Lemma match_seq_complete pat : forall m rest,
  matches pat m -> match_seq pat (m ++ rest) = Some (m, rest).
Proof.
  unfold matches.
  induction pat as [|p pat IH]; intros m rest H.
  - destruct m; simpl in H; inversion H. reflexivity.
  - destruct m as [|c m]; simpl in H; inversion H; subst.
    simpl. rewrite H3. now rewrite IH.
Qed.

Lemma matches_app p q a b :
  matches p a -> matches q b -> matches (p ++ q)%list (a ++ b).
Proof.
  unfold matches. rewrite list_of_app. apply Forall2_app.
Qed.

Lemma matches_length pat m :
  matches pat m -> String.length m = List.length pat.
Proof.
  unfold matches. revert m.
  induction pat as [|p pat IH]; intros [|c m] H; simpl in *;
    inversion H; subst; auto.
Qed.

(** [re.search] gives the match of the leftmost position that has one. *)
Lemma re_search_Some {A} (f : string -> option A) : forall s x,
  re_search f s = Some x ->
  exists pre suf, s = pre ++ suf /\ f suf = Some x /\
    forall pre' suf', s = pre' ++ suf' ->
      String.length pre' < String.length pre -> f suf' = None.
Proof.
  induction s as [|c r IH]; simpl; intros x H.
  - destruct (f "") eqn:E; [|discriminate]. injection H as ->.
    exists "", "". repeat split; auto. simpl; intros; lia.
  - destruct (f (String c r)) eqn:E.
    + injection H as ->. exists "", (String c r).
      repeat split; auto. simpl; intros; lia.
    + destruct (IH _ H) as (pre & suf & -> & Hf & Hmin).
      exists (String c pre), suf. repeat split; auto.
      intros [|c' pre'] suf' Heq Hlen; simpl in *.
      * now subst suf'.
      * injection Heq as <- Heq. apply (Hmin pre'); [assumption|lia].
Qed.

Lemma re_search_None {A} (f : string -> option A) : forall s,
  re_search f s = None -> forall pre suf, s = pre ++ suf -> f suf = None.
Proof.
  induction s as [|c r IH]; simpl; intros H pre suf Heq.
  - destruct pre; [|discriminate]. simpl in Heq. subst suf.
    now destruct (f "").
  - destruct (f (String c r)) eqn:E; [discriminate|].
    destruct pre as [|c' pre]; simpl in Heq.
    + now subst suf.
    + injection Heq as <- Heq. now apply (IH H pre).
Qed.

Lemma re_search_first {A} (f : string -> option A) : forall pre suf x,
  f suf = Some x ->
  (forall pre' suf', pre ++ suf = pre' ++ suf' ->
     String.length pre' < String.length pre -> f suf' = None) ->
  re_search f (pre ++ suf) = Some x.
Proof.
  induction pre as [|c pre IH]; intros suf x Hf Hmin.
  - simpl. destruct suf; simpl; now rewrite Hf.
  - simpl. rewrite (Hmin "" (String c (pre ++ suf))) by (simpl; auto; lia).
    apply IH; [assumption|].
    intros pre' suf' Heq Hlen.
    apply (Hmin (String c pre') suf'); simpl; [congruence|lia].
Qed.

Lemma re_search_no_match {A} (f : string -> option A) s :
  (forall pre suf, s = pre ++ suf -> f suf = None) -> re_search f s = None.
Proof.
  intros H. destruct (re_search f s) eqn:E; [|reflexivity].
  destruct (re_search_Some _ _ _ E) as (pre & suf & Heq & Hf & _).
  rewrite (H _ _ Heq) in Hf. discriminate.
Qed.

(** The identifier pattern. *)

Lemma BCID_match_at_iff suf m :
  BCID_match_at suf = Some m <-> is_bcid m /\ exists rest, suf = m ++ rest.
Proof.
  unfold BCID_match_at, is_bcid. split.
  - destruct (match_seq BCID_REGEX suf) as [[m' rest]|] eqn:E;
      [|discriminate].
    simpl. intros [= <-]. destruct (match_seq_sound _ _ _ _ E) as [-> Hm].
    split; [assumption|now exists rest].
  - intros [Hm [rest ->]]. now rewrite match_seq_complete.
Qed.

Lemma BCID_search_sound s m :
  BCID_search s = Some m -> first_bcid s m.
Proof.
  intros H. destruct (re_search_Some _ _ _ H) as (pre & suf & -> & Hf & Hmin).
  apply BCID_match_at_iff in Hf as [Hm [rest ->]].
  exists pre, rest. repeat split; auto.
  intros a' m' b' Heq Hm'.
  destruct (Nat.le_gt_cases (String.length pre) (String.length a'))
    as [|Hlt]; [assumption|].
  specialize (Hmin _ _ Heq Hlt).
  assert (BCID_match_at (m' ++ b') = Some m') as E
    by (apply BCID_match_at_iff; split; [assumption|now exists b']).
  congruence.
Qed.

Lemma BCID_search_contains s m :
  BCID_search s = Some m -> is_bcid m /\ substring_of m s.
Proof.
  intros H. destruct (BCID_search_sound _ _ H) as (a & b & -> & Hm & _).
  split; [assumption|now exists a, b].
Qed.

Lemma BCID_search_None_iff s :
  BCID_search s = None <-> ~ contains_bcid s.
Proof.
  split.
  - intros H (m & Hm & pre & post & ->).
    pose proof (re_search_None _ _ H pre (m ++ post) eq_refl) as E.
    assert (BCID_match_at (m ++ post) = Some m) as E'
      by (apply BCID_match_at_iff; split; [assumption|now exists post]).
    congruence.
  - intros H. apply re_search_no_match. intros pre suf ->.
    destruct (BCID_match_at suf) as [m|] eqn:E; [|reflexivity].
    apply BCID_match_at_iff in E as [Hm [rest ->]].
    exfalso. apply H. exists m. split; [assumption|now exists pre, rest].
Qed.

Lemma BCID_search_complete s m :
  first_bcid s m -> BCID_search s = Some m.
Proof.
  intros (a & b & -> & Hm & Hmin).
  apply re_search_first.
  - apply BCID_match_at_iff. split; [assumption|now exists b].
  - intros pre' suf' Heq Hlen.
    destruct (BCID_match_at suf') as [m'|] eqn:E; [|reflexivity].
    apply BCID_match_at_iff in E as [Hm' [rest ->]].
    specialize (Hmin _ _ _ Heq Hm'). lia.
Qed.

End Regex.

(** ** The parameter pattern against [param_at] *)

Module ParamRegex.
Import Str StrFacts Regex.

Ltac by_cases c :=
  destruct c as [[] [] [] [] [] [] [] []]; vm_compute;
  solve [ reflexivity | discriminate | intros; reflexivity
        | intros; discriminate | intros; congruence
        | split; intros; solve [reflexivity | discriminate | congruence] ].

Lemma char_lower_letter c : letter c = true -> char_lower c = ascii_lower c.
Proof. unfold letter. by_cases c. Qed.

Lemma ascii_lower_letter c :
  in_range "a" "z" (char_lower c) = true -> ascii_lower c = char_lower c.
Proof. by_cases c. Qed.

Lemma ci_lit_eq c : ci_lit "=" c = true -> c = "="%char.
Proof. unfold ci_lit. by_cases c. Qed.

Lemma ci_lit_lower p c :
  letter p = true -> (ci_lit p c = true <-> char_lower c = char_lower p).
Proof.
  intros Hp. unfold ci_lit. rewrite Ascii.eqb_eq.
  rewrite (char_lower_letter p Hp). split; intros H.
  - rewrite <- H. apply char_lower_letter. unfold letter. now rewrite H.
  - rewrite <- H. apply ascii_lower_letter. now rewrite H.
Qed.

(** A word of letters matches, case apart, the strings that lower to it. *)
Lemma ci_word_lower w : forall name,
  forallb letter w = true ->
  (matches (ci_word w) name <-> lower name = lower w).
Proof.
  unfold matches, ci_word.
  induction w as [|p w IH]; intros name Hw; simpl in *.
  - split.
    + intros H. destruct name; simpl in H; inversion H. reflexivity.
    + destruct name; simpl; [constructor|discriminate].
  - apply andb_true_iff in Hw as [Hp Hw].
    destruct name as [|c name]; simpl.
    + split; [intros H; inversion H|discriminate].
    + split.
      * intros H. inversion H; subst.
        apply (ci_lit_lower p c Hp) in H3. rewrite H3.
        f_equal. now apply IH.
      * intros [= Hc Hn]. constructor.
        -- now apply ci_lit_lower.
        -- now apply IH.
Qed.

Lemma matches_app_inv p : forall q m,
  matches (p ++ q)%list m ->
  exists a b, m = a ++ b /\ matches p a /\ matches q b.
Proof.
  unfold matches.
  induction p as [|x p IH]; intros q m H; simpl in *.
  - exists "", m. repeat split; [constructor|assumption].
  - destruct m as [|c m]; simpl in H; inversion H; subst.
    destruct (IH _ _ H5) as (a & b & -> & Ha & Hb).
    exists (String c a), b. repeat split; [|assumption].
    simpl. now constructor.
Qed.

Lemma matches_eq_sign b : matches [ci_lit "="] b <-> b = "=".
Proof.
  unfold matches. split.
  - intros H. destruct b as [|c [|c' b]]; simpl in H; inversion H; subst;
      try match goal with X : Forall2 _ [] (_ :: _) |- _ => inversion X end.
    now rewrite (ci_lit_eq c H3).
  - intros ->. simpl. constructor; [reflexivity|constructor].
Qed.

Lemma param_alt_iff w r v :
  forallb letter w = true ->
  (param_alt w r = Some v <->
   exists name post,
     r = name ++ "=" ++ v ++ post /\ lower name = lower w /\
     v <> "" /\ forallb not_amp_hash v = true /\
     (post = "" \/ exists c t, post = String c t /\ not_amp_hash c = false)).
Proof.
  intros Hw. unfold param_alt. split.
  - destruct (match_seq _ r) as [[mm rest]|] eqn:E; [|discriminate].
    destruct (match_seq_sound _ _ _ _ E) as [-> Hm].
    destruct (matches_app_inv _ _ _ Hm) as (name & b & -> & Hn & Hb).
    apply matches_eq_sign in Hb as ->.
    apply (ci_word_lower w name Hw) in Hn.
    pose proof (span_app not_amp_hash rest) as Happ.
    pose proof (span_all not_amp_hash rest) as Hall.
    pose proof (span_stop not_amp_hash rest) as Hstop.
    destruct (fst (span not_amp_hash rest)) as [|c g] eqn:Eg; [discriminate|].
    intros [= <-].
    exists name, (snd (span not_amp_hash rest)).
    repeat split; auto; [|discriminate].
    now rewrite app_assoc, Happ.
  - intros (name & post & -> & Hn & Hv & Hall & Hpost).
    apply (ci_word_lower w name Hw) in Hn.
    replace (name ++ "=" ++ v ++ post) with ((name ++ "=") ++ v ++ post)
      by apply app_assoc.
    rewrite match_seq_complete
      by (apply matches_app; [assumption|now apply matches_eq_sign]).
    rewrite (span_unique _ _ _ Hall Hpost). simpl.
    destruct v; [contradiction|reflexivity].
Qed.

Lemma param_alt_other w r v name post :
  forallb letter w = true ->
  r = name ++ "=" ++ v ++ post ->
  String.length (lower name) < String.length (lower w) ->
  param_alt w r = None.
Proof.
  intros Hw -> Hlen.
  destruct (param_alt w _) as [g|] eqn:E; [|reflexivity].
  exfalso. unfold param_alt in E.
  destruct (match_seq _ _) as [[mm rest]|] eqn:E'; [|discriminate].
  destruct (match_seq_sound _ _ _ _ E') as [Heq Hm].
  destruct (matches_app_inv _ _ _ Hm) as (name' & b & -> & Hn & Hb).
  apply matches_eq_sign in Hb as ->.
  apply (ci_word_lower w name' Hw) in Hn.
  assert (Lw : forall s, String.length (lower s) = String.length s)
    by (induction s; simpl; congruence).
  rewrite Lw in Hlen. rewrite <- Hn, Lw in Hlen.
  rewrite !app_assoc in Heq.
  destruct (app_split_le name _ name' _ Heq ltac:(lia)) as (d & -> & Hd).
  clear - Hn Hw Hd Hlen.
  (* the character of the longer name at the [=] of the shorter one *)
  rewrite length_app in Hlen.
  destruct d as [|c d]; [simpl in Hlen; lia|].
  simpl in Hd. injection Hd as <- _.
  assert (L : forall a b, lower (a ++ b) = lower a ++ lower b)
    by (induction a; simpl; intros; congruence).
  rewrite L in Hn. simpl in Hn.
  assert (In (char_lower "=") (list_ascii_of_string (lower w))) as Hin.
  { rewrite <- Hn, list_of_app. apply in_or_app. right. now left. }
  clear - Hin Hw.
  induction w as [|p w IH]; simpl in *; [contradiction|].
  apply andb_true_iff in Hw as [Hp Hw].
  destruct Hin as [H|H]; [|now apply IH].
  rewrite (char_lower_letter p Hp) in H. unfold letter in Hp.
  rewrite H in Hp. discriminate.
Qed.

Lemma param_match_at_iff suf v :
  param_match_at suf = Some v <-> param_at suf v.
Proof.
  unfold param_match_at, param_at, param_name. split.
  - destruct suf as [|sep r]; [discriminate|].
    destruct (is_sep sep) eqn:Es; [|discriminate].
    destruct (param_alt "selectedBcId" r) as [g|] eqn:E1.
    + intros [= ->].
      apply param_alt_iff in E1 as (name & post & -> & Hn & H); [|reflexivity].
      exists sep, name, post.
      split; [reflexivity|]. split; [assumption|]. split; [now left|tauto].
    + intros E2.
      apply param_alt_iff in E2 as (name & post & -> & Hn & H); [|reflexivity].
      exists sep, name, post.
      split; [reflexivity|]. split; [assumption|]. split; [now right|tauto].
  - intros (sep & name & post & -> & Es & Hn & Hv & Hall & Hpost).
    rewrite Es. destruct Hn as [Hn|Hn].
    + assert (param_alt "selectedBcId" (name ++ "=" ++ v ++ post) = Some v)
        as -> ; [|reflexivity].
      apply param_alt_iff; [reflexivity|].
      exists name, post. repeat split; auto.
    + rewrite (param_alt_other "selectedBcId" _ v name post);
        [|reflexivity|reflexivity|rewrite Hn; simpl; lia].
      apply param_alt_iff; [reflexivity|].
      exists name, post. repeat split; auto.
Qed.

Lemma param_search_sound url v :
  re_search param_match_at url = Some v -> first_param url v.
Proof.
  intros H. destruct (re_search_Some _ _ _ H) as (pre & suf & -> & Hf & Hmin).
  exists pre, suf. repeat split; [now apply param_match_at_iff|].
  intros pre' suf' v' Heq Hlen Hp.
  apply param_match_at_iff in Hp. rewrite (Hmin _ _ Heq Hlen) in Hp.
  discriminate.
Qed.

Lemma param_search_complete url v :
  first_param url v -> re_search param_match_at url = Some v.
Proof.
  intros (pre & suf & -> & Hp & Hmin).
  apply re_search_first; [now apply param_match_at_iff|].
  intros pre' suf' Heq Hlen.
  destruct (param_match_at suf') as [v'|] eqn:E; [|reflexivity].
  apply param_match_at_iff in E. now destruct (Hmin _ _ _ Heq Hlen E).
Qed.

Lemma param_value_substring suf v : param_at suf v -> substring_of v suf.
Proof.
  intros (sep & name & post & -> & _).
  exists (String sep (name ++ "=")), post. simpl. now rewrite app_assoc.
Qed.

End ParamRegex.

(** ** Identifier extractor *)

Module IdentifierExtractor.
Import Str StrFacts Regex ParamRegex.

Lemma is_bcid_by_match m : BCID_match_at m = Some m -> is_bcid m.
Proof. intros H. now apply BCID_match_at_iff in H. Qed.

Lemma contains_bcid_by_search s m : BCID_search s = Some m -> contains_bcid s.
Proof. intros H. exists m. now apply BCID_search_contains. Qed.

Lemma BCID_search_substring c s :
  substring_of c s -> BCID_search s = None -> BCID_search c = None.
Proof.
  rewrite !BCID_search_None_iff. intros Hc Hs (m & Hm & Hin).
  apply Hs. exists m. split; [assumption|].
  now apply (substring_of_trans m c s).
Qed.

(** An identifier has 39 characters. *)
Lemma is_bcid_length m : is_bcid m -> String.length m = 39.
Proof. intros H. now rewrite (matches_length _ _ H). Qed.

(** Without such a parameter, or when the value of the leftmost one holds
    no identifier, the result is that of the search over the whole URL. *)
Lemma parse_bcid_from_url_fallback (url : string) :
  (forall v, first_param url v -> ~ contains_bcid v) ->
  parse_bcid_from_url url = BCID_search url.
Proof.
  intros H. unfold parse_bcid_from_url.
  destruct (re_search param_match_at url) as [candidate|] eqn:E;
    [|reflexivity].
  apply param_search_sound, H, BCID_search_None_iff in E. now rewrite E.
Qed.

(** The value is searched, not compared: the result can be shorter than
    the parameter value. *)
Example parse_bcid_from_url_inside_value :
  parse_bcid_from_url "https://cursor.com/agents?bcid=id:BC-89BDB1CE-F9E2-4DB0-A1F4-E703B692633A;"
  = Some "BC-89BDB1CE-F9E2-4DB0-A1F4-E703B692633A".
Proof. vm_compute. reflexivity. Qed.

(** The scenario of the specification. *)
Example parse_bcid_from_url_scenario :
  parse_bcid_from_url
    "https://cursor.com/agents?selectedBcId=bc-89bdb1ce-f9e2-4db0-a1f4-e703b692633a"
  = Some "bc-89bdb1ce-f9e2-4db0-a1f4-e703b692633a".
Proof. vm_compute. reflexivity. Qed.

Import CursorAgentFetcher.

(** The reader of the fetcher is another function: it gives the first
    raw value of [selectedBcId] as urllib reports it, and [None] with a
    report whenever urllib raises. *)
Lemma extract_agent_id_raw `{Urllib} url params v vs :
  parse_query url = inr params ->
  params_get params "selectedBcId" = Some (v :: vs) ->
  extract_agent_id url = (Some v, false).
Proof. intros H1 H2. unfold extract_agent_id. now rewrite H1, H2. Qed.

Lemma extract_agent_id_catches `{Urllib} url e :
  parse_query url = inl e -> extract_agent_id url = (None, true).
Proof. intros H1. unfold extract_agent_id. now rewrite H1. Qed.

End IdentifierExtractor.

(** ** The identifier extractor on every [str] *)

Module UnicodeRegex.
Import Unicode.
#[local] Open Scope list_scope.

Lemma substring_of_str_trans (a b c : str) :
  substring_of a b -> substring_of b c -> substring_of a c.
Proof.
  intros (p1 & q1 & ->) (p2 & q2 & ->).
  exists (p2 ++ p1), (q1 ++ q2). now rewrite <- !List.app_assoc.
Qed.

Lemma substring_of_str_suffix (m pre suf : str) :
  substring_of m suf -> substring_of m (pre ++ suf).
Proof.
  intros (p & q & ->). exists (pre ++ p), q. now rewrite <- List.app_assoc.
Qed.

Lemma match_seq_str_sound pat : forall s m rest,
  match_seq pat s = Some (m, rest) -> s = m ++ rest /\ matches pat m.
Proof.
  induction pat as [|p pat IH]; cbn [match_seq]; intros s m rest H.
  - injection H as <- <-. split; [reflexivity|constructor].
  - destruct s as [|c r]; [discriminate|].
    destruct (p c) eqn:Ep; [|discriminate].
    destruct (match_seq pat r) as [[m' rest']|] eqn:E; [|discriminate].
    injection H as <- <-. destruct (IH _ _ _ E) as [-> Hm].
    split; [reflexivity|]. now constructor.
Qed.

Lemma match_seq_str_complete pat : forall m rest,
  matches pat m -> match_seq pat (m ++ rest) = Some (m, rest).
Proof.
  unfold matches. induction pat as [|p pat IH]; intros m rest H.
  - inversion H. reflexivity.
  - inversion H as [|p' c pat' m' Hc Hm]; subst.
    cbn [match_seq app]. rewrite Hc. now rewrite IH.
Qed.

Lemma matches_str_app_inv p : forall q m,
  matches (p ++ q) m -> exists a b, m = a ++ b /\ matches p a /\ matches q b.
Proof.
  unfold matches. intros q m H. apply Forall2_app_inv_l in H.
  destruct H as (a & b & Ha & Hb & ->). now exists a, b.
Qed.

(** [re.search] gives the match of the leftmost position that has one. *)
Lemma re_search_str_Some {A} (f : str -> option A) : forall s x,
  re_search f s = Some x ->
  exists pre suf, s = pre ++ suf /\ f suf = Some x /\
    forall pre' suf', s = pre' ++ suf' ->
      List.length pre' < List.length pre -> f suf' = None.
Proof.
  induction s as [|c r IH]; cbn [re_search]; intros x H.
  - destruct (f []) eqn:E; [|discriminate]. injection H as ->.
    exists [], []. split; [reflexivity|]. split; [assumption|].
    cbn; intros; lia.
  - destruct (f (c :: r)) eqn:E.
    + injection H as ->. exists [], (c :: r).
      split; [reflexivity|]. split; [assumption|]. cbn; intros; lia.
    + destruct (IH _ H) as (pre & suf & -> & Hf & Hmin).
      exists (c :: pre), suf. split; [reflexivity|]. split; [assumption|].
      intros [|c' pre'] suf' Heq Hlen; cbn in *.
      * now subst suf'.
      * injection Heq as <- Heq. apply (Hmin pre'); [assumption|lia].
Qed.

Lemma re_search_str_None {A} (f : str -> option A) : forall s,
  re_search f s = None -> forall pre suf, s = pre ++ suf -> f suf = None.
Proof.
  induction s as [|c r IH]; cbn [re_search]; intros H pre suf Heq.
  - destruct pre; [|discriminate]. cbn in Heq. subst suf.
    now destruct (f []).
  - destruct (f (c :: r)) eqn:E; [discriminate|].
    destruct pre as [|c' pre]; cbn in Heq.
    + now subst suf.
    + injection Heq as <- Heq. now apply (IH H pre).
Qed.

Lemma re_search_str_first {A} (f : str -> option A) : forall pre suf x,
  f suf = Some x ->
  (forall pre' suf', pre ++ suf = pre' ++ suf' ->
     List.length pre' < List.length pre -> f suf' = None) ->
  re_search f (pre ++ suf) = Some x.
Proof.
  induction pre as [|c pre IH]; intros suf x Hf Hmin.
  - cbn [app]. destruct suf; cbn [re_search]; now rewrite Hf.
  - cbn [app re_search].
    rewrite (Hmin [] (c :: pre ++ suf)) by (cbn; auto; lia).
    apply IH; [assumption|].
    intros pre' suf' Heq Hlen.
    apply (Hmin (c :: pre') suf'); cbn; [congruence|lia].
Qed.

Lemma re_search_str_no_match {A} (f : str -> option A) s :
  (forall pre suf, s = pre ++ suf -> f suf = None) -> re_search f s = None.
Proof.
  intros H. destruct (re_search f s) eqn:E; [|reflexivity].
  destruct (re_search_str_Some _ _ _ E) as (pre & suf & Heq & Hf & _).
  rewrite (H _ _ Heq) in Hf. discriminate.
Qed.

(** The identifier pattern. *)

Lemma BCID_match_at_str_iff suf m :
  BCID_match_at suf = Some m <-> is_bcid m /\ exists rest, suf = m ++ rest.
Proof.
  unfold BCID_match_at, is_bcid. split.
  - destruct (match_seq BCID_REGEX suf) as [[m' rest]|] eqn:E;
      [|discriminate].
    cbn. intros [= <-]. destruct (match_seq_str_sound _ _ _ _ E) as [-> Hm].
    split; [assumption|now exists rest].
  - intros [Hm [rest ->]]. now rewrite match_seq_str_complete.
Qed.

Lemma BCID_search_str_sound s m :
  BCID_search s = Some m -> first_bcid s m.
Proof.
  intros H.
  destruct (re_search_str_Some _ _ _ H) as (pre & suf & -> & Hf & Hmin).
  apply BCID_match_at_str_iff in Hf as [Hm [rest ->]].
  exists pre, rest. split; [reflexivity|]. split; [assumption|].
  intros a' m' b' Heq Hm'.
  destruct (Nat.le_gt_cases (List.length pre) (List.length a'))
    as [|Hlt]; [assumption|].
  specialize (Hmin _ _ Heq Hlt).
  assert (BCID_match_at (m' ++ b') = Some m') as E
    by (apply BCID_match_at_str_iff; split; [assumption|now exists b']).
  congruence.
Qed.

Lemma BCID_search_str_contains s m :
  BCID_search s = Some m -> is_bcid m /\ substring_of m s.
Proof.
  intros H. destruct (BCID_search_str_sound _ _ H) as (a & b & -> & Hm & _).
  split; [assumption|now exists a, b].
Qed.

Lemma BCID_search_str_None_iff s :
  BCID_search s = None <-> ~ contains_bcid s.
Proof.
  split.
  - intros H (m & Hm & pre & post & ->).
    pose proof (re_search_str_None _ _ H pre (m ++ post) eq_refl) as E.
    assert (BCID_match_at (m ++ post) = Some m) as E'
      by (apply BCID_match_at_str_iff; split; [assumption|now exists post]).
    congruence.
  - intros H. apply re_search_str_no_match. intros pre suf ->.
    destruct (BCID_match_at suf) as [m|] eqn:E; [|reflexivity].
    apply BCID_match_at_str_iff in E as [Hm [rest ->]].
    exfalso. apply H. exists m. split; [assumption|now exists pre, rest].
Qed.

Lemma BCID_search_str_complete s m :
  first_bcid s m -> BCID_search s = Some m.
Proof.
  intros (a & b & -> & Hm & Hmin).
  apply re_search_str_first.
  - apply BCID_match_at_str_iff. split; [assumption|now exists b].
  - intros pre' suf' Heq Hlen.
    destruct (BCID_match_at suf') as [m'|] eqn:E; [|reflexivity].
    apply BCID_match_at_str_iff in E as [Hm' [rest ->]].
    specialize (Hmin _ _ _ Heq Hm'). lia.
Qed.

Lemma BCID_search_str_substring c s :
  substring_of c s -> BCID_search s = None -> BCID_search c = None.
Proof.
  rewrite !BCID_search_str_None_iff. intros Hc Hs (m & Hm & Hin).
  apply Hs. exists m. split; [assumption|].
  now apply (substring_of_str_trans m c s).
Qed.

(** The greedy repetition. *)

Lemma span_str_app p s : fst (span p s) ++ snd (span p s) = s.
Proof.
  induction s as [|c r IH]; cbn [span]; [reflexivity|].
  destruct (p c); [|reflexivity].
  destruct (span p r); cbn in *. congruence.
Qed.

Lemma span_str_all p s : forallb p (fst (span p s)) = true.
Proof.
  induction s as [|c r IH]; cbn [span]; [reflexivity|].
  destruct (p c) eqn:E; [|reflexivity].
  destruct (span p r); cbn in *. now rewrite E.
Qed.

Lemma span_str_stop p s :
  snd (span p s) = [] \/
  exists c r, snd (span p s) = c :: r /\ p c = false.
Proof.
  induction s as [|c r IH]; cbn [span]; [now left|].
  destruct (p c) eqn:E.
  - destruct (span p r); cbn in *. exact IH.
  - right. now exists c, r.
Qed.

Lemma span_str_unique p v post :
  forallb p v = true ->
  (post = [] \/ exists c r, post = c :: r /\ p c = false) ->
  span p (v ++ post) = (v, post).
Proof.
  induction v as [|c v IH]; cbn [forallb app]; intros Hv Hp.
  - destruct Hp as [->|(c & r & -> & E)]; cbn [span]; [reflexivity|].
    now rewrite E.
  - apply andb_true_iff in Hv as [Hc Hv]. cbn [span]. rewrite Hc.
    now rewrite IH.
Qed.

(** The letters of the parameter pattern. *)

#[local] Open Scope N_scope.

Lemma ord_inj a b : ord a = ord b -> a = b.
Proof.
  unfold ord. intros H. rewrite <- (ascii_N_embedding a), <- (ascii_N_embedding b).
  now rewrite H.
Qed.

(** A code point folds to the lowercase letter [p] exactly when it
    reads as [p]. *)
Lemma fold_reads_as (p : ascii) (c : N) :
  between 97 122 (ord p) = true -> (fold c = ord p <-> reads_as p c).
Proof.
  intros Hp. unfold fold, reads_as, between in *.
  apply andb_true_iff in Hp as [Hlo Hhi].
  apply N.leb_le in Hlo, Hhi.
  assert (p = "i"%char <-> ord p = 105) as Hi
    by (split; [now intros ->|intros H; now apply ord_inj]).
  assert (p = "s"%char <-> ord p = 115) as Hs
    by (split; [now intros ->|intros H; now apply ord_inj]).
  assert (p = "k"%char <-> ord p = 107) as Hk
    by (split; [now intros ->|intros H; now apply ord_inj]).
  rewrite Hi, Hs, Hk. clear Hi Hs Hk.
  destruct (N.leb_spec 65 c), (N.leb_spec c 90); cbn [andb];
    destruct (N.eqb_spec c 304), (N.eqb_spec c 305), (N.eqb_spec c 383),
      (N.eqb_spec c 8490); cbn [orb]; lia.
Qed.

Lemma fold_lower (p : ascii) :
  between 97 122 (ord p) = true -> fold (ord p) = ord p.
Proof.
  intros Hp. unfold fold, between in *.
  apply andb_true_iff in Hp as [Hlo Hhi]. apply N.leb_le in Hlo, Hhi.
  destruct (N.leb_spec 65 (ord p)), (N.leb_spec (ord p) 90); cbn [andb];
    destruct (N.eqb_spec (ord p) 304), (N.eqb_spec (ord p) 305),
      (N.eqb_spec (ord p) 383), (N.eqb_spec (ord p) 8490); cbn [orb]; lia.
Qed.

(** The pattern word [w], whose letters lower to those of [w'], matches
    the names that spell [w']. *)
Lemma ci_word_spells (w w' : string) : forall name,
  map (fun p => fold (ord p)) (list_ascii_of_string w)
  = map ord (list_ascii_of_string w') ->
  forallb (fun p => between 97 122 (ord p)) (list_ascii_of_string w') = true ->
  (matches (ci_word w) name <-> spells w' name).
Proof.
  unfold matches, spells, ci_word.
  generalize (list_ascii_of_string w) as l, (list_ascii_of_string w') as l'.
  induction l as [|p l IH]; intros [|p' l'] name Hmap Hlow;
    try discriminate.
  - split; intros H; inversion H; constructor.
  - cbn [map forallb] in *. injection Hmap as Hp Hmap.
    apply andb_true_iff in Hlow as [Hp' Hlow].
    destruct name as [|c name].
    + split; intros H; inversion H.
    + split; intros H; inversion H; subst; constructor.
      * apply (fold_reads_as p' c Hp'). unfold ci_lit in *.
        rewrite Hp in *. now apply N.eqb_eq.
      * now apply (IH l').
      * unfold ci_lit. rewrite Hp. apply N.eqb_eq.
        now apply (fold_reads_as p' c Hp').
      * now apply (IH l').
Qed.

Lemma ci_lit_eq_sign c : ci_lit "=" c = true <-> c = ord "=".
Proof.
  unfold ci_lit. change (fold (ord "=")) with 61. change (ord "=") with 61.
  rewrite N.eqb_eq. unfold fold, between.
  destruct (N.leb_spec 65 c), (N.leb_spec c 90); cbn [andb];
    destruct (N.eqb_spec c 304), (N.eqb_spec c 305), (N.eqb_spec c 383),
      (N.eqb_spec c 8490); cbn [orb]; lia.
Qed.

Lemma matches_str_eq_sign b : matches [ci_lit "="] b <-> b = [ord "="].
Proof.
  unfold matches. split.
  - intros H. inversion H as [|p c pat m Hc Hm]; subst. inversion Hm; subst.
    now apply ci_lit_eq_sign in Hc as ->.
  - intros ->. constructor; [now apply ci_lit_eq_sign|constructor].
Qed.

Lemma param_alt_str_iff (w w' : string) r v :
  map (fun p => fold (ord p)) (list_ascii_of_string w)
  = map ord (list_ascii_of_string w') ->
  forallb (fun p => between 97 122 (ord p)) (list_ascii_of_string w') = true ->
  (param_alt w r = Some v <->
   exists name post,
     r = name ++ [ord "="] ++ v ++ post /\ spells w' name /\
     v <> [] /\ forallb not_amp_hash v = true /\
     (post = [] \/ exists c t, post = c :: t /\ not_amp_hash c = false)).
Proof.
  intros Hmap Hlow. unfold param_alt. split.
  - destruct (match_seq _ r) as [[mm rest]|] eqn:E; [|discriminate].
    destruct (match_seq_str_sound _ _ _ _ E) as [-> Hm].
    destruct (matches_str_app_inv _ _ _ Hm) as (name & b & -> & Hn & Hb).
    apply matches_str_eq_sign in Hb as ->.
    apply (ci_word_spells w w' name Hmap Hlow) in Hn.
    pose proof (span_str_app not_amp_hash rest) as Happ.
    pose proof (span_str_all not_amp_hash rest) as Hall.
    pose proof (span_str_stop not_amp_hash rest) as Hstop.
    destruct (fst (span not_amp_hash rest)) as [|c g] eqn:Eg; [discriminate|].
    intros [= <-].
    exists name, (snd (span not_amp_hash rest)).
    split; [now rewrite <- List.app_assoc, Happ|].
    split; [assumption|]. split; [discriminate|]. now split.
  - intros (name & post & -> & Hn & Hv & Hall & Hpost).
    apply (ci_word_spells w w' name Hmap Hlow) in Hn.
    rewrite (List.app_assoc name).
    rewrite match_seq_str_complete
      by (apply Forall2_app; [assumption|now apply matches_str_eq_sign]).
    rewrite (span_str_unique _ _ _ Hall Hpost). cbn [fst].
    destruct v; [contradiction|reflexivity].
Qed.

(** A name that spells [bcid] does not start as [selectedBcId] does. *)
Lemma param_alt_str_other name rest :
  spells "bcid" name -> param_alt "selectedBcId" (name ++ rest) = None.
Proof.
  intros H. inversion H as [|p c l name' Hc Hn]; subst.
  unfold param_alt. cbn [ci_word list_ascii_of_string map app match_seq].
  assert (ci_lit "s" c = false) as ->; [|reflexivity].
  unfold ci_lit. apply N.eqb_neq. intros E.
  change (fold (ord "s")) with (ord "s") in E.
  apply (fold_reads_as "s" c eq_refl) in E.
  unfold reads_as in *. change (ord "s") with 115 in *.
  change (ord "b") with 98 in *.
  destruct Hc as [Hc|[Hc|[[Hc _]|[[Hc _]|[Hc _]]]]]; try discriminate;
    destruct E as [E|[E|[[E _]|[[_ E]|[E _]]]]]; try discriminate; lia.
Qed.

Lemma param_match_at_str_iff suf v :
  param_match_at suf = Some v <-> param_at suf v.
Proof.
  unfold param_match_at, param_at, param_name. split.
  - destruct suf as [|sep r]; [discriminate|].
    destruct (is_sep sep) eqn:Es; [|discriminate].
    destruct (param_alt "selectedBcId" r) as [g|] eqn:E1.
    + intros [= ->].
      apply (param_alt_str_iff _ "selectedbcid") in E1
        as (name & post & -> & Hn & H); [|reflexivity|reflexivity].
      exists sep, name, post.
      split; [reflexivity|]. split; [assumption|]. split; [now left|tauto].
    + intros E2.
      apply (param_alt_str_iff _ "bcid") in E2
        as (name & post & -> & Hn & H); [|reflexivity|reflexivity].
      exists sep, name, post.
      split; [reflexivity|]. split; [assumption|]. split; [now right|tauto].
  - intros (sep & name & post & -> & Es & Hn & Hv & Hall & Hpost).
    rewrite Es. destruct Hn as [Hn|Hn].
    + assert (param_alt "selectedBcId" (name ++ [ord "="] ++ v ++ post)
              = Some v) as -> ; [|reflexivity].
      apply (param_alt_str_iff _ "selectedbcid"); [reflexivity|reflexivity|].
      exists name, post. tauto.
    + rewrite (param_alt_str_other name _ Hn).
      apply (param_alt_str_iff _ "bcid"); [reflexivity|reflexivity|].
      exists name, post. tauto.
Qed.

Lemma param_search_str_sound url v :
  re_search param_match_at url = Some v -> first_param url v.
Proof.
  intros H.
  destruct (re_search_str_Some _ _ _ H) as (pre & suf & -> & Hf & Hmin).
  exists pre, suf. split; [reflexivity|].
  split; [now apply param_match_at_str_iff|].
  intros pre' suf' v' Heq Hlen Hp.
  apply param_match_at_str_iff in Hp. rewrite (Hmin _ _ Heq Hlen) in Hp.
  discriminate.
Qed.

Lemma param_search_str_complete url v :
  first_param url v -> re_search param_match_at url = Some v.
Proof.
  intros (pre & suf & -> & Hp & Hmin).
  apply re_search_str_first; [now apply param_match_at_str_iff|].
  intros pre' suf' Heq Hlen.
  destruct (param_match_at suf') as [v'|] eqn:E; [|reflexivity].
  apply param_match_at_str_iff in E. now destruct (Hmin _ _ _ Heq Hlen E).
Qed.

Lemma param_value_str_substring suf v : param_at suf v -> substring_of v suf.
Proof.
  intros (sep & name & post & -> & _).
  exists (sep :: name ++ [ord "="]), post. cbn [app].
  now rewrite <- !List.app_assoc.
Qed.

End UnicodeRegex.

(** ** The extractor on every [str], and its restriction *)

Module UnicodeExtractor.
Import Unicode UnicodeRegex.
#[local] Open Scope list_scope.

Lemma is_bcid_str_length m : is_bcid m -> List.length m = 39.
Proof.
  intros H. unfold is_bcid, matches in H.
  now rewrite <- (Forall2_length H).
Qed.

(** Without such a parameter, or when the value of the leftmost one holds
    no identifier, the result is that of the search over the whole URL. *)
Lemma parse_bcid_from_url_str_fallback (url : str) :
  (forall v, first_param url v -> ~ contains_bcid v) ->
  parse_bcid_from_url url = BCID_search url.
Proof.
  intros H. unfold parse_bcid_from_url.
  destruct (re_search param_match_at url) as [candidate|] eqn:E;
    [|reflexivity].
  apply param_search_str_sound, H, BCID_search_str_None_iff in E.
  now rewrite E.
Qed.

(** The leftmost parameter is the one the search finds. *)
Lemma first_param_found url c v :
  re_search param_match_at url = Some c -> first_param url v -> v = c.
Proof.
  intros H Hp. apply param_search_str_complete in Hp. congruence.
Qed.

Lemma no_first_param_str url :
  re_search param_match_at url = None -> forall v, ~ first_param url v.
Proof.
  intros H v Hp. apply param_search_str_complete in Hp. congruence.
Qed.

(** C3, as amended.  For a [str] of any code points: when the leftmost
    [selectedBcId] or [bcId] parameter of the URL, its name read as
    [re.IGNORECASE] reads it, has a value that holds an identifier, the
    extractor gives the leftmost identifier inside that value: a part of
    the value cut out by the grammar, in the case it is written in, not
    the value itself. *)
Theorem parse_bcid_from_url_first_param (url v : str) :
  first_param url v -> contains_bcid v ->
  exists m, parse_bcid_from_url url = Some m /\ first_bcid v m.
Proof.
  intros Hp Hc. unfold parse_bcid_from_url.
  rewrite (param_search_str_complete _ _ Hp).
  destruct (BCID_search v) as [m|] eqn:E.
  - exists m. split; [reflexivity|now apply BCID_search_str_sound].
  - now apply BCID_search_str_None_iff in E.
Qed.

Lemma parse_bcid_from_url_first_param_witness :
  exists m,
    parse_bcid_from_url
      (of_string "https://cursor.com/agents/bc-11111111-1111-1111-1111-111111111111?"
       ++ long_s
          :: of_string "electedBcId=xbc-89BDB1ce-f9e2-4db0-a1f4-e703b692633a-7&tab=1")
    = Some m /\
    first_bcid (of_string "xbc-89BDB1ce-f9e2-4db0-a1f4-e703b692633a-7") m.
Proof.
  apply parse_bcid_from_url_first_param.
  - apply param_search_str_sound. vm_compute. reflexivity.
  - exists (of_string "bc-89BDB1ce-f9e2-4db0-a1f4-e703b692633a").
    apply BCID_search_str_contains. vm_compute. reflexivity.
Defined.

(** C3, as first stated, fails: this URL has a [selectedBcId] parameter
    whose value is an identifier, and the extractor gives the identifier
    of the path instead, because the [bcId] parameter before it holds
    none and the search then runs over the whole URL. *)
Lemma parse_bcid_from_url_later_param :
  ~ returns_param_identifier
      (of_string
         "https://cursor.com/agents/bc-11111111-1111-1111-1111-111111111111?bcId=none&selectedBcId=bc-22222222-2222-2222-2222-222222222222").
Proof.
  intros H.
  destruct (H (of_string "bc-22222222-2222-2222-2222-222222222222"))
    as (m & Hr & Hm & Hs).
  - exists (of_string "https://cursor.com/agents/bc-11111111-1111-1111-1111-111111111111?bcId=none"),
      (of_string "&selectedBcId=bc-22222222-2222-2222-2222-222222222222").
    split; [reflexivity|].
    apply param_match_at_str_iff. vm_compute. reflexivity.
  - exists (of_string "bc-22222222-2222-2222-2222-222222222222"). split.
    + apply (BCID_match_at_str_iff
               (of_string "bc-22222222-2222-2222-2222-222222222222")).
      vm_compute. reflexivity.
    + now exists [], [].
  - vm_compute in Hr. injection Hr as <-.
    destruct Hs as (pre & post & Heq).
    assert (List.length pre = 0 /\ List.length post = 0)%nat as [Lp Lq].
    { apply (f_equal (@List.length N)) in Heq.
      rewrite !List.length_app in Heq. cbn in Heq. lia. }
    destruct pre; [|discriminate]. destruct post; [|discriminate].
    discriminate.
Qed.

Import CursorAgentFetcher.

(** C8, as amended.  A [str] of any code points that holds no
    identifier anywhere makes [parse_bcid_from_url] return [None]; it is
    a total function of the string, so no URL makes it raise.  The
    reader of the fetcher does not raise either, but it looks for no
    identifier: it returns [None] exactly when urllib raises, which it
    catches, or reports no [selectedBcId] parameter or no value for it,
    and the first value as it stands otherwise. *)
Theorem parse_bcid_from_url_none {U : Urllib} :
  (forall url : str, ~ contains_bcid url -> parse_bcid_from_url url = None) /\
  (forall url : string,
     (fst (extract_agent_id url) = None <->
      (exists e, parse_query url = inl e) \/
      (exists params,
         parse_query url = inr params /\
         (params_get params "selectedBcId" = None \/
          params_get params "selectedBcId" = Some []))) /\
     (forall params v vs,
        parse_query url = inr params ->
        params_get params "selectedBcId" = Some (v :: vs) ->
        extract_agent_id url = (Some v, false))).
Proof.
  split.
  - intros url H. apply BCID_search_str_None_iff in H.
    unfold parse_bcid_from_url. rewrite H.
    destruct (re_search param_match_at url) as [candidate|] eqn:E;
      [|reflexivity].
    rewrite (BCID_search_str_substring candidate url);
      [reflexivity| |assumption].
    destruct (param_search_str_sound _ _ E) as (pre & suf & -> & Hp & _).
    apply substring_of_str_suffix. now apply param_value_str_substring.
  - intros url. unfold extract_agent_id. split.
    + destruct (parse_query url) as [e|params].
      * split; [intros _; left; now exists e|reflexivity].
      * destruct (params_get params "selectedBcId") as [[|v vs]|] eqn:E;
          cbn [fst].
        -- split; [intros _|reflexivity]. right. exists params.
           split; [reflexivity|now right].
        -- split; [discriminate|].
           intros [[e He]|(params' & He & [Hn|Hn])]; try discriminate;
             injection He as <-; congruence.
        -- split; [intros _|reflexivity]. right. exists params.
           split; [reflexivity|now left].
    + intros params v vs -> ->. reflexivity.
Qed.

Lemma parse_bcid_from_url_none_witness :
  parse_bcid_from_url
    (of_string "http://cursor.com:agents?" ++ long_s
       :: of_string "electedBcId=bc-89bdb1ce&x=%zz#bc-")
  = None /\
  @extract_agent_id example_urllib "https://cursor.com/agents?selectedBcId=a1"
  = (Some "a1"%string, false).
Proof.
  split.
  - apply (proj1 (@parse_bcid_from_url_none example_urllib)).
    apply BCID_search_str_None_iff. vm_compute. reflexivity.
  - apply (proj2 (proj2 (@parse_bcid_from_url_none example_urllib)
                    "https://cursor.com/agents?selectedBcId=a1")
             [("selectedBcId"%string, ["a1"%string])] "a1"%string []);
      reflexivity.
Defined.

(** C8, as first stated, fails for the reader of the fetcher: this URL
    holds no identifier, and [extract_agent_id] returns the value [a1]
    of its [selectedBcId] parameter. *)
Lemma extract_agent_id_without_identifier :
  ~ returns_none_without_identifier
      (fun url => fst (@extract_agent_id example_urllib url)).
Proof.
  intros H.
  specialize (H "https://cursor.com/agents?selectedBcId=a1").
  assert (fst (@extract_agent_id example_urllib
                 "https://cursor.com/agents?selectedBcId=a1") = Some "a1"%string)
    as E by reflexivity.
  rewrite H in E; [discriminate|].
  apply Regex.BCID_search_None_iff. vm_compute. reflexivity.
Qed.

(** X2.  For a [str] of any code points: when the URL has no
    [selectedBcId] or [bcId] parameter, or the value of the leftmost one
    holds no identifier, the extractor gives the leftmost identifier of
    the whole URL. *)
Theorem parse_bcid_from_url_leftmost (url m : str) :
  (forall v, first_param url v -> ~ contains_bcid v) ->
  first_bcid url m ->
  parse_bcid_from_url url = Some m.
Proof.
  intros H Hm. rewrite (parse_bcid_from_url_str_fallback url H).
  now apply BCID_search_str_complete.
Qed.

Lemma parse_bcid_from_url_leftmost_witness :
  parse_bcid_from_url
    (of_string "https://cursor.com/agents/bc-11111111-1111-1111-1111-111111111111?"
     ++ long_s
        :: of_string "electedBcId=zz&selectedBcId=bc-22222222-2222-2222-2222-222222222222")
  = Some (of_string "bc-11111111-1111-1111-1111-111111111111").
Proof.
  apply parse_bcid_from_url_leftmost.
  - intros v Hv.
    assert (v = of_string "zz") as ->
      by (apply (fun H => first_param_found _ _ _ H Hv);
          vm_compute; reflexivity).
    apply BCID_search_str_None_iff. vm_compute. reflexivity.
  - apply BCID_search_str_sound. vm_compute. reflexivity.
Defined.

End UnicodeExtractor.

(** ** The restriction to the code points below 256

    On a string of such code points the extractor on every [str] gives
    what [parse_bcid_from_url] gives. *)

Module Restriction.
Import Unicode(str, ord, of_string, fold).
#[local] Open Scope list_scope.

Lemma of_string_app (a b : string) :
  of_string (a ++ b) = of_string a ++ of_string b.
Proof.
  unfold of_string. rewrite StrFacts.list_of_app. apply map_app.
Qed.

Lemma fold_ord c : fold (ord c) = ord (ascii_lower c).
Proof. destruct c as [[] [] [] [] [] [] [] []]; vm_compute; reflexivity. Qed.

Lemma eqb_ord a b : N.eqb (ord a) (ord b) = Ascii.eqb a b.
Proof.
  destruct (Ascii.eqb_spec a b) as [->|Hne].
  - apply N.eqb_refl.
  - apply N.eqb_neq. intros H. now apply UnicodeRegex.ord_inj in H.
Qed.

Lemma ci_lit_ord p c : Unicode.ci_lit p (ord c) = ci_lit p c.
Proof. unfold Unicode.ci_lit, ci_lit. now rewrite !fold_ord, eqb_ord. Qed.

Lemma is_hex_ord c : Unicode.is_hex (ord c) = is_hex c.
Proof. destruct c as [[] [] [] [] [] [] [] []]; vm_compute; reflexivity. Qed.

Lemma is_sep_ord c : Unicode.is_sep (ord c) = is_sep c.
Proof. destruct c as [[] [] [] [] [] [] [] []]; vm_compute; reflexivity. Qed.

Lemma not_amp_hash_ord c : Unicode.not_amp_hash (ord c) = not_amp_hash c.
Proof. destruct c as [[] [] [] [] [] [] [] []]; vm_compute; reflexivity. Qed.

Lemma match_seq_of_string (pat' : list Unicode.atom) (pat : list atom) :
  Forall2 (fun (p' : Unicode.atom) (p : atom) =>
             forall c, p' (ord c) = p c) pat' pat ->
  forall s,
    Unicode.match_seq pat' (of_string s)
    = option_map (fun mr => (of_string (fst mr), of_string (snd mr)))
        (match_seq pat s).
Proof.
  induction 1 as [|p' p pat' pat Hp Hpat IH]; intros s; [reflexivity|].
  destruct s as [|c r]; [reflexivity|].
  cbn [match_seq]. change (of_string (String c r)) with (ord c :: of_string r).
  cbn [Unicode.match_seq]. rewrite Hp, IH.
  destruct (p c); [|reflexivity].
  now destruct (match_seq pat r) as [[m rest]|].
Qed.

Lemma re_search_of_string {A B} (g : A -> B)
    (f' : str -> option B) (f : string -> option A) :
  (forall s, f' (of_string s) = option_map g (f s)) ->
  forall s,
    Unicode.re_search f' (of_string s)
    = option_map g (re_search f s).
Proof.
  intros Hf. induction s as [|c r IH].
  - cbn [re_search]. change (of_string "") with (@nil N).
    cbn [Unicode.re_search]. change (@nil N) with (of_string "").
    rewrite Hf. now destruct (f "").
  - cbn [re_search].
    change (of_string (String c r)) with (ord c :: of_string r).
    cbn [Unicode.re_search].
    change (ord c :: of_string r) with (of_string (String c r)).
    rewrite Hf. destruct (f (String c r)); [reflexivity|exact IH].
Qed.

Lemma span_of_string (p' : Unicode.atom) (p : atom) :
  (forall c, p' (ord c) = p c) ->
  forall s,
    Unicode.span p' (of_string s)
    = (of_string (fst (Str.span p s)), of_string (snd (Str.span p s))).
Proof.
  intros Hp. induction s as [|c r IH]; [reflexivity|].
  change (of_string (String c r)) with (ord c :: of_string r).
  cbn [Unicode.span Str.span]. rewrite Hp, IH.
  destruct (p c); [|reflexivity]. now destruct (Str.span p r).
Qed.

Lemma ci_word_of_string w :
  Forall2 (fun (p' : Unicode.atom) (p : atom) =>
             forall c, p' (ord c) = p c)
    (Unicode.ci_word w) (ci_word w).
Proof.
  unfold Unicode.ci_word, ci_word.
  induction (list_ascii_of_string w) as [|p l IH]; constructor;
    [intros c; apply ci_lit_ord|exact IH].
Qed.

Lemma repeat_is_hex_of_string n :
  Forall2 (fun (p' : Unicode.atom) (p : atom) =>
             forall c, p' (ord c) = p c)
    (repeat Unicode.is_hex n) (repeat is_hex n).
Proof. induction n; constructor; [apply is_hex_ord|assumption]. Qed.

Lemma BCID_search_of_string s :
  Unicode.BCID_search (of_string s)
  = option_map of_string (BCID_search s).
Proof.
  apply re_search_of_string. intros t.
  unfold Unicode.BCID_match_at, BCID_match_at.
  rewrite (match_seq_of_string Unicode.BCID_REGEX BCID_REGEX).
  - now destruct (match_seq BCID_REGEX t) as [[m r]|].
  - unfold Unicode.BCID_REGEX, BCID_REGEX.
    repeat first
      [ apply Forall2_app
      | apply ci_word_of_string
      | apply repeat_is_hex_of_string
      | apply Forall2_cons; [intros c; apply ci_lit_ord|]
      | apply Forall2_nil ].
Qed.

Lemma param_alt_of_string w s :
  Unicode.param_alt w (of_string s)
  = option_map of_string (param_alt w s).
Proof.
  unfold Unicode.param_alt, param_alt.
  rewrite (match_seq_of_string _ (ci_word w ++ [ci_lit "="])).
  - destruct (match_seq _ s) as [[m rest]|]; [|reflexivity].
    cbn [option_map fst snd].
    rewrite (span_of_string _ _ not_amp_hash_ord). cbn [fst].
    now destruct (fst (Str.span not_amp_hash rest)).
  - apply Forall2_app; [apply ci_word_of_string|].
    constructor; [intros c; apply ci_lit_ord|constructor].
Qed.

Lemma param_match_at_of_string s :
  Unicode.param_match_at (of_string s)
  = option_map of_string (param_match_at s).
Proof.
  destruct s as [|c r]; [reflexivity|].
  change (of_string (String c r)) with (ord c :: of_string r).
  cbn [Unicode.param_match_at param_match_at].
  rewrite is_sep_ord, !param_alt_of_string.
  destruct (is_sep c); [|reflexivity].
  now destruct (param_alt "selectedBcId" r).
Qed.

(** The two readings of the extractor agree below U+0100. *)
Lemma parse_bcid_from_url_of_string (url : string) :
  Unicode.parse_bcid_from_url (of_string url)
  = option_map of_string (parse_bcid_from_url url).
Proof.
  unfold Unicode.parse_bcid_from_url, parse_bcid_from_url.
  rewrite (re_search_of_string of_string _ _ param_match_at_of_string).
  rewrite BCID_search_of_string.
  destruct (re_search param_match_at url) as [candidate|];
    [|reflexivity].
  cbn [option_map]. rewrite BCID_search_of_string.
  now destruct (BCID_search candidate).
Qed.

End Restriction.

(** ** The traversal *)

Module Traversal.

(** Induction on a tree, with the hypothesis for every child. *)
Lemma json_induction (P : json -> Prop) :
  P JNull -> (forall b, P (JBool b)) -> (forall n, P (JInt n)) ->
  (forall bits, P (JFloat bits)) -> (forall s, P (JStr s)) ->
  (forall items, Forall P items -> P (JArr items)) ->
  (forall fields, Forall (fun kv => P (snd kv)) fields -> P (JObj fields)) ->
  forall j, P j.
Proof.
  intros HN HB HI HF HS HA HO. fix IH 1.
  intros [ |b|n|bits|s|items|fields];
    [exact HN|apply HB|apply HI|apply HF|apply HS| | ].
  - apply HA. induction items as [|x items IHl]; constructor;
      [apply IH|exact IHl].
  - apply HO. induction fields as [|[k v] fields IHl]; constructor;
      [apply IH|exact IHl].
Qed.

(** Pre-order: the node, then the traversal of each child in turn. *)
Lemma iterate_json_nodes_eq node p :
  iterate_json_nodes node p
  = (p, node) ::
    flat_map (fun c => iterate_json_nodes (snd c) (p ++ [fst c])%list)
      (children node).
Proof.
  destruct node as [ |b|n|bits|s|items|fields]; try reflexivity.
  - simpl. f_equal. generalize 0 as i.
    induction items as [|x items IH]; intros i; simpl; [reflexivity|].
    now rewrite IH.
  - simpl. f_equal.
    induction fields as [|[k v] fields IH]; simpl; [reflexivity|].
    now rewrite IH.
Qed.

Lemma children_induction (P : json -> Prop) :
  (forall node, Forall (fun c => P (snd c)) (children node) -> P node) ->
  forall j, P j.
Proof.
  intros H. apply json_induction; intros; apply H; simpl;
    try solve [constructor].
  - apply Forall_forall. intros c Hc.
    apply in_map_iff in Hc as ([i x] & <- & Hin). simpl.
    apply in_combine_r in Hin.
    eapply Forall_forall in H0; eassumption.
  - apply Forall_forall. intros c Hc.
    apply in_map_iff in Hc as (kv & <- & Hin). simpl.
    eapply Forall_forall in H0; eassumption.
Qed.

Lemma map_flat_map {A B C} (f : B -> C) (g : A -> list B) l :
  map f (flat_map g l) = flat_map (fun x => map f (g x)) l.
Proof.
  induction l as [|x l IH]; simpl; [reflexivity|].
  now rewrite map_app, IH.
Qed.

Lemma filter_flat_map {A B} (f : B -> bool) (g : A -> list B) l :
  filter f (flat_map g l) = flat_map (fun x => filter f (g x)) l.
Proof.
  induction l as [|x l IH]; simpl; [reflexivity|].
  now rewrite filter_app, IH.
Qed.

Lemma flat_map_ext_in {A B} (f g : A -> list B) l :
  (forall x, In x l -> f x = g x) -> flat_map f l = flat_map g l.
Proof.
  induction l as [|x l IH]; simpl; intros H; [reflexivity|].
  rewrite (H x) by now left. rewrite IH; [reflexivity|].
  intros y Hy. apply H. now right.
Qed.

Lemma node_count_eq node :
  node_count node
  = S (list_sum (map (fun c => node_count (snd c)) (children node))).
Proof.
  destruct node as [ |b|n|bits|s|items|fields]; try reflexivity;
    simpl; f_equal.
  - change 0 with (0 + 0) at 2. generalize (0 + 0) as i.
    induction items as [|x items IH]; intros i; simpl; [reflexivity|].
    now rewrite (IH (S i)).
  - induction fields as [|[k v] fields IH]; simpl; [reflexivity|].
    now rewrite IH.
Qed.

Lemma dict_count_eq node :
  dict_count node
  = (if is_dict node then 1 else 0)
    + list_sum (map (fun c => dict_count (snd c)) (children node)).
Proof.
  destruct node as [ |b|n|bits|s|items|fields]; try reflexivity; simpl.
  - change 0 with (0 + 0) at 2. generalize (0 + 0) as i.
    induction items as [|x items IH]; intros i; simpl; [reflexivity|].
    now rewrite (IH (S i)).
  - f_equal.
    induction fields as [|[k v] fields IH]; simpl; [reflexivity|].
    now rewrite IH.
Qed.

(** The traversal yields as many pairs as the tree has nodes. *)
Lemma length_iterate_json_nodes : forall node p,
  List.length (iterate_json_nodes node p) = node_count node.
Proof.
  induction node as [node IH] using children_induction. intros p.
  rewrite iterate_json_nodes_eq, node_count_eq. cbn [List.length]. f_equal.
  rewrite length_flat_map. f_equal. apply map_ext_in.
  intros c Hc. eapply Forall_forall in IH; [|eassumption]. apply IH.
Qed.

(** The nodes yielded do not depend on the path the traversal starts
    with. *)
Lemma nodes_any_path : forall node p,
  map snd (iterate_json_nodes node p) = nodes node.
Proof.
  unfold nodes.
  induction node as [node IH] using children_induction. intros p.
  rewrite (iterate_json_nodes_eq node p), (iterate_json_nodes_eq node []).
  cbn [map snd]. f_equal. rewrite !map_flat_map. apply flat_map_ext_in.
  intros c Hc. eapply Forall_forall in IH; [|eassumption].
  simpl in IH. now rewrite !IH.
Qed.

Lemma nodes_eq node :
  nodes node = node :: flat_map (fun c => nodes (snd c)) (children node).
Proof.
  unfold nodes at 1. rewrite iterate_json_nodes_eq. cbn [map snd]. f_equal.
  rewrite map_flat_map. apply flat_map_ext_in.
  intros c _. apply nodes_any_path.
Qed.

Lemma dict_count_nodes : forall node,
  List.length (filter is_dict (nodes node)) = dict_count node.
Proof.
  induction node as [node IH] using children_induction.
  rewrite nodes_eq, dict_count_eq. cbn [filter].
  assert (E : forall l, List.length (if is_dict node then node :: l else l)
                        = (if is_dict node then 1 else 0) + List.length l)
    by (intros l; now destruct (is_dict node)).
  rewrite E, filter_flat_map, length_flat_map. f_equal.
  f_equal. apply map_ext_in. intros c Hc.
  eapply Forall_forall in IH; [|eassumption]. now rewrite IH.
Qed.

Lemma filter_length_le {A} (f g : A -> bool) l :
  (forall x, f x = true -> g x = true) ->
  List.length (filter f l) <= List.length (filter g l).
Proof.
  intros H. induction l as [|x l IH]; simpl; [lia|].
  destruct (f x) eqn:E.
  - rewrite (H x E). simpl. lia.
  - destruct (g x); simpl; lia.
Qed.

(** *** Paths *)

Lemma in_combine_seq {A} (l : list A) : forall s i x,
  In (i, x) (combine (seq s (List.length l)) l)
  <-> s <= i /\ nth_error l (i - s) = Some x.
Proof.
  induction l as [|y l IH]; intros s i x; simpl.
  - split; [tauto|]. intros [_ H]. destruct (i - s); discriminate.
  - rewrite IH. split.
    + intros [[= <- <-]|[Hle H]].
      * split; [lia|]. now rewrite Nat.sub_diag.
      * split; [lia|]. replace (i - s) with (S (i - S s)) by lia. exact H.
    + intros [Hle H]. destruct (Nat.eq_dec i s) as [->|Hne].
      * left. rewrite Nat.sub_diag in H. simpl in H. congruence.
      * right. split; [lia|].
        replace (i - s) with (S (i - S s)) in H by lia. exact H.
Qed.

Lemma dict_get_In fields k v : dict_get fields k = Some v -> In (k, v) fields.
Proof.
  induction fields as [|[k' v'] fields IH]; simpl; [discriminate|].
  destruct (String.eqb k' k) eqn:E.
  - apply String.eqb_eq in E as ->. intros [= ->]. now left.
  - intros H. right. now apply IH.
Qed.

Lemma In_dict_get fields k v :
  NoDup (dict_keys fields) -> In (k, v) fields -> dict_get fields k = Some v.
Proof.
  induction fields as [|[k' v'] fields IH]; simpl; [tauto|].
  intros Hnd [[= -> ->]|Hin].
  - now rewrite String.eqb_refl.
  - inversion Hnd as [|? ? Hnot Hnd']; subst.
    destruct (String.eqb k' k) eqn:E.
    + apply String.eqb_eq in E as ->. exfalso. apply Hnot.
      change k with (fst (k, v)). now apply in_map.
    + now apply IH.
Qed.

Lemma wf_json_children node :
  wf_json node ->
  NoDup (map fst (children node)) /\
  Forall (fun c => wf_json (snd c)) (children node).
Proof.
  destruct node as [ |b|n|bits|s|items|fields]; simpl;
    try (intros _; split; constructor).
  - intros H. split.
    + generalize 0 as i. clear H.
      induction items as [|x items IH]; intros i; simpl; [constructor|].
      constructor; [|apply IH].
      intros Hin. apply in_map_iff in Hin as ([st c] & E & Hin).
      apply in_map_iff in Hin as ([j y] & [= <- <-] & Hin).
      simpl in E. injection E as ->.
      apply in_combine_seq in Hin. lia.
    + generalize 0 as i.
      induction items as [|x items IH]; intros i; simpl; [constructor|].
      destruct H as [Hx H]. constructor; [exact Hx|]. now apply IH.
  - intros [Hnd H]. split.
    + rewrite map_map. simpl. unfold dict_keys in Hnd. clear H.
      induction fields as [|[k v] fields IH]; simpl; [constructor|].
      inversion Hnd as [|? ? Hnot Hnd']; subst.
      constructor; [|now apply IH].
      intros Hin. apply in_map_iff in Hin as ([k' v'] & [= ->] & Hin).
      apply Hnot. change k with (fst (k, v')). now apply in_map.
    + clear Hnd.
      induction fields as [|[k v] fields IH]; simpl; [constructor|].
      destruct H as [Hv H]. constructor; [exact Hv|]. now apply IH.
Qed.

(** Under [wf_json], the first step of a path chooses one child. *)
Lemma json_at_cons node st r n :
  wf_json node ->
  (json_at node (st :: r) = Some n
   <-> exists c, In (st, c) (children node) /\ json_at c r = Some n).
Proof.
  intros Hwf. destruct st as [k|i].
  - destruct node as [ |b|m|bits|s|items|fields]; simpl;
      try (split; [discriminate|intros (c & [] & _)]).
    + split; [discriminate|].
      intros (c & Hin & _).
      apply in_map_iff in Hin as (x & [=] & _).
    + destruct Hwf as [Hnd _]. split.
      * destruct (dict_get fields k) as [v|] eqn:E; [|discriminate].
        intros H. exists v. split; [|assumption].
        apply in_map_iff. exists (k, v). split; [reflexivity|].
        now apply dict_get_In.
      * intros (c & Hin & H).
        apply in_map_iff in Hin as ([k' v] & [= -> ->] & Hin).
        now rewrite (In_dict_get _ _ _ Hnd Hin).
  - destruct node as [ |b|m|bits|s|items|fields]; simpl;
      try (split; [discriminate|intros (c & [] & _)]).
    + split.
      * destruct (nth_error items i) as [v|] eqn:E; [|discriminate].
        intros H. exists v. split; [|assumption].
        apply in_map_iff. exists (i, v). split; [reflexivity|].
        apply in_combine_seq. rewrite Nat.sub_0_r. split; [lia|assumption].
      * intros (c & Hin & H).
        apply in_map_iff in Hin as ([j v] & [= -> ->] & Hin).
        apply in_combine_seq in Hin as [_ Hin].
        rewrite Nat.sub_0_r in Hin. now rewrite Hin.
    + split; [discriminate|].
      intros (c & Hin & _).
      apply in_map_iff in Hin as (x & [=] & _).
Qed.

(** The traversal of a well-formed tree yields the pair of a path and a
    node exactly when the path leads to the node. *)
Lemma iterate_json_nodes_In : forall node, wf_json node -> forall p q n,
  In (q, n) (iterate_json_nodes node p)
  <-> exists r, q = (p ++ r)%list /\ json_at node r = Some n.
Proof.
  induction node as [node IH] using children_induction.
  intros Hwf p q n.
  destruct (wf_json_children node Hwf) as [_ Hwfc].
  rewrite iterate_json_nodes_eq. cbn [In]. rewrite in_flat_map. split.
  - intros [[= <- <-]|(c & Hc & Hin)].
    + exists []. now rewrite app_nil_r.
    + pose proof Hc as Hc'.
      eapply Forall_forall in Hc'; [|exact IH].
      eapply Forall_forall in Hwfc; [|exact Hc].
      apply (Hc' Hwfc) in Hin as (r & -> & Hat).
      exists (fst c :: r). split; [now rewrite <- app_assoc|].
      apply json_at_cons; [assumption|].
      exists (snd c). split; [now destruct c|assumption].
  - intros (r & -> & Hat). destruct r as [|st r].
    + left. simpl in Hat. injection Hat as <-. now rewrite app_nil_r.
    + right. apply json_at_cons in Hat as (c & Hc & Hat); [|assumption].
      exists (st, c). split; [assumption|].
      pose proof Hc as Hc'.
      eapply Forall_forall in Hc'; [|exact IH].
      eapply Forall_forall in Hwfc; [|exact Hc].
      apply (Hc' Hwfc). exists r. simpl. split; [|assumption].
      now rewrite <- app_assoc.
Qed.

(** No path is yielded twice. *)
Lemma iterate_json_nodes_NoDup : forall node, wf_json node -> forall p,
  NoDup (map fst (iterate_json_nodes node p)).
Proof.
  induction node as [node IH] using children_induction.
  intros Hwf p.
  destruct (wf_json_children node Hwf) as [Hnd Hwfc].
  rewrite iterate_json_nodes_eq. cbn [map fst]. rewrite map_flat_map.
  constructor.
  - intros Hin. apply in_flat_map in Hin as (c & Hc & Hin).
    apply in_map_iff in Hin as ([q n] & E & Hin). simpl in E. subst q.
    eapply Forall_forall in Hwfc; [|exact Hc].
    apply (iterate_json_nodes_In _ Hwfc) in Hin as (r & E & _).
    apply (f_equal (@List.length step)) in E.
    rewrite !length_app in E. simpl in E. lia.
  - revert Hnd Hwfc IH. generalize (children node) as cs.
    induction cs as [|c cs IHcs]; simpl; intros Hnd Hwfc IH; [constructor|].
    inversion Hnd as [|? ? Hnot Hnd']; subst.
    inversion Hwfc as [|? ? Hc Hwfc']; subst.
    inversion IH as [|? ? IHc IH']; subst.
    apply NoDup_app; [now apply IHc|now apply IHcs|].
    intros q Hq Hq'.
    apply in_map_iff in Hq as ([q1 n1] & E1 & Hq). simpl in E1. subst q1.
    apply (iterate_json_nodes_In _ Hc) in Hq as (r & -> & _).
    apply in_flat_map in Hq' as (c' & Hc' & Hq').
    apply in_map_iff in Hq' as ([q2 n2] & E2 & Hq'). simpl in E2.
    eapply Forall_forall in Hwfc'; [|exact Hc'].
    apply (iterate_json_nodes_In _ Hwfc') in Hq' as (r' & -> & _).
    rewrite <- !app_assoc in E2. apply app_inv_head in E2.
    simpl in E2. injection E2 as E2 _.
    apply Hnot. rewrite <- E2. now apply in_map.
Qed.

(*TRAVERSAL-MORE*)
End Traversal.

(** ** Object finder *)

Module ObjectFinder.
Import Str Regex Traversal.

Lemma evaluate_candidates_eq f node cands results :
  evaluate_candidates f node cands results
  = (results ++ (if existsb (passes f) cands then [node] else []))%list.
Proof.
  induction cands as [|c cands IH]; simpl; [now rewrite app_nil_r|].
  unfold passes at 1.
  destruct (BCID_search c) as [bcid|]; simpl; [|exact IH].
  destruct (filtered_out f bcid); simpl; [exact IH|reflexivity].
Qed.

Lemma visit_eq f results node :
  visit f results node
  = (results ++ (if accepted f node then [node] else []))%list.
Proof.
  destruct node; simpl; try now rewrite app_nil_r.
  apply evaluate_candidates_eq.
Qed.

(** The finder keeps, in the order of the traversal, every node it
    accepts. *)
Lemma find_bc_objects_eq data f :
  find_bc_objects data f = filter (accepted f) (nodes data).
Proof.
  unfold find_bc_objects, nodes.
  change (filter (accepted f) (map snd (iterate_json_nodes data [])))
    with ([] ++ filter (accepted f) (map snd (iterate_json_nodes data [])))%list.
  generalize (@nil json) as acc.
  induction (iterate_json_nodes data []) as [|[p n] l IH]; intros acc; simpl.
  - now rewrite app_nil_r.
  - rewrite IH, visit_eq, <- app_assoc.
    now destruct (accepted f n).
Qed.

Lemma accepted_is_dict f node : accepted f node = true -> is_dict node = true.
Proof. now destruct node. Qed.

Lemma flat_map_children_arr {B} (g : json -> list B) items :
  flat_map (fun c => g (snd c)) (children (JArr items)) = flat_map g items.
Proof.
  simpl. generalize 0 as i.
  induction items as [|x items IH]; intros i; simpl; [reflexivity|].
  now rewrite IH.
Qed.

Lemma flat_map_children_obj {B} (g : json -> list B) fields :
  flat_map (fun c => g (snd c)) (children (JObj fields))
  = flat_map (fun kv => g (snd kv)) fields.
Proof.
  simpl. induction fields as [|[k v] fields IH]; simpl; [reflexivity|].
  now rewrite IH.
Qed.

Lemma find_bc_objects_arr items f :
  find_bc_objects (JArr items) f
  = flat_map (fun x => find_bc_objects x f) items.
Proof.
  rewrite find_bc_objects_eq, nodes_eq. cbn [filter accepted].
  rewrite filter_flat_map.
  rewrite (flat_map_children_arr (fun x => filter (accepted f) (nodes x))).
  apply flat_map_ext. intros x. now rewrite find_bc_objects_eq.
Qed.

Lemma find_bc_objects_obj fields f :
  find_bc_objects (JObj fields) f
  = ((if accepted f (JObj fields) then [JObj fields] else [])
     ++ flat_map (fun kv => find_bc_objects (snd kv) f) fields)%list.
Proof.
  rewrite find_bc_objects_eq, nodes_eq. cbn [filter].
  rewrite filter_flat_map.
  rewrite (flat_map_children_obj (fun x => filter (accepted f) (nodes x))).
  rewrite (flat_map_ext (fun kv => find_bc_objects (snd kv) f)
             (fun kv => filter (accepted f) (nodes (snd kv))))
    by (intros; apply find_bc_objects_eq).
  now destruct (accepted f (JObj fields)).
Qed.

(** The candidates of a node are string values of the node, and every
    string value is a candidate. *)
Lemma candidates_values fields c :
  In c (candidates fields) -> exists k, In (k, JStr c) fields.
Proof.
  unfold candidates. intros H. apply in_app_or in H as [H|H].
  - apply in_flat_map in H as (field & _ & H).
    destruct (dict_get fields field) as [[ | | | |s| | ]|] eqn:E;
      try contradiction.
    destruct H as [<-|[]]. exists field. now apply dict_get_In.
  - unfold str_values, dict_values in H.
    apply in_flat_map in H as (v & Hv & H).
    apply in_map_iff in Hv as ([k v'] & <- & Hin). simpl in H.
    destruct v'; try contradiction.
    destruct H as [<-|[]]. now exists k.
Qed.

Lemma values_candidates fields k c :
  In (k, JStr c) fields -> In c (candidates fields).
Proof.
  intros H. unfold candidates. apply in_or_app. right.
  unfold str_values, dict_values. apply in_flat_map.
  exists (JStr c). split; [|now left].
  change (JStr c) with (snd (k, JStr c)). now apply in_map.
Qed.

Lemma visited_nodes data node : visited data node <-> In node (nodes data).
Proof.
  unfold visited, nodes. rewrite in_map_iff. split.
  - intros [p H]. now exists (p, node).
  - intros ([p n] & <- & H). now exists p.
Qed.

Lemma accepted_has_identifier f node :
  accepted f node = true ->
  has_identifier (fun m => filtered_out f m = false) node.
Proof.
  destruct node as [ | | | | | |fields]; try discriminate. simpl.
  intros H. apply existsb_exists in H as (c & Hc & Hp).
  unfold passes in Hp.
  destruct (BCID_search c) as [m|] eqn:E; [|discriminate].
  apply negb_true_iff in Hp.
  destruct (candidates_values _ _ Hc) as [k Hk].
  destruct (BCID_search_contains _ _ E) as [Hm Hs].
  now exists fields, k, c, m.
Qed.

Lemma has_identifier_accepted node :
  has_identifier (fun _ => True) node -> accepted None node = true.
Proof.
  intros (fields & k & s & m & -> & Hin & Hm & Hs & _). simpl.
  apply existsb_exists. exists s. split; [now apply (values_candidates _ k)|].
  unfold passes. destruct (BCID_search s) as [m'|] eqn:E; [reflexivity|].
  apply BCID_search_None_iff in E. exfalso. apply E. now exists m.
Qed.

Lemma filtered_out_target target m :
  target <> "" -> filtered_out (Some target) m = false ->
  same_identifier target m.
Proof.
  intros Ht. unfold filtered_out, same_identifier.
  destruct target; [contradiction|]. simpl.
  intros H. apply negb_false_iff in H. now apply String.eqb_eq in H.
Qed.

Lemma has_identifier_impl (P Q : string -> Prop) node :
  (forall m, P m -> Q m) -> has_identifier P node -> has_identifier Q node.
Proof.
  intros H (fields & k & s & m & Hn & Hin & Hm & Hs & HP).
  exists fields, k, s, m. repeat split; auto.
Qed.

Lemma leftmost_identifier_accepted target node :
  has_leftmost_identifier (same_identifier target) node ->
  accepted (Some target) node = true.
Proof.
  intros (fields & k & s & m & -> & Hin & Hm & Hs). simpl.
  apply existsb_exists. exists s. split; [now apply (values_candidates _ k)|].
  unfold passes. rewrite (BCID_search_complete _ _ Hm).
  unfold filtered_out, same_identifier in *. rewrite Hs, String.eqb_refl.
  now rewrite andb_false_r.
Qed.

(** C1.  With a target, every node the finder yields is a [dict] of the
    tree with a string value that holds an identifier equal to the target
    up to case, and it yields every [dict] of the tree with a string
    value whose leftmost identifier is equal to the target up to case.
    Without a target, the finder yields exactly the [dict] nodes of the
    tree with a string value that holds an identifier; an empty target
    counts as no target. *)
Theorem find_bc_objects_filter (data : json) :
  (forall target node,
     target <> "" -> In node (find_bc_objects data (Some target)) ->
     visited data node /\ has_identifier (same_identifier target) node) /\
  (forall target node,
     visited data node ->
     has_leftmost_identifier (same_identifier target) node ->
     In node (find_bc_objects data (Some target))) /\
  (forall node,
     In node (find_bc_objects data None) <->
     visited data node /\ has_identifier (fun _ => True) node) /\
  find_bc_objects data (Some "") = find_bc_objects data None.
Proof.
  split; [|split; [intros target node Hv Hl|]].
  2:{ rewrite find_bc_objects_eq. apply filter_In. split.
      - now apply visited_nodes.
      - now apply leftmost_identifier_accepted. }
  all: repeat split.
  - rewrite find_bc_objects_eq in H0. apply filter_In in H0 as [H0 _].
    now apply visited_nodes.
  - rewrite find_bc_objects_eq in H0. apply filter_In in H0 as [_ H0].
    apply accepted_has_identifier in H0.
    revert H0. apply has_identifier_impl.
    intros m. now apply filtered_out_target.
  - rewrite find_bc_objects_eq in H. apply filter_In in H as [H _].
    now apply visited_nodes.
  - rewrite find_bc_objects_eq in H. apply filter_In in H as [_ H].
    apply accepted_has_identifier in H.
    revert H. now apply has_identifier_impl.
  - intros [Hv Hi]. rewrite find_bc_objects_eq. apply filter_In. split.
    + now apply visited_nodes.
    + now apply has_identifier_accepted.
  - rewrite !find_bc_objects_eq. apply filter_ext.
    intros [ | | | | | |fields]; reflexivity.
Qed.

Lemma find_bc_objects_filter_witness :
  let hit := JObj [("owner", JStr "agent BC-89BDB1CE-F9E2-4DB0-A1F4-E703B692633A"); ("n", JInt 1)] in
  let data := JObj [("props", JArr [JStr "bc-89bdb1ce-f9e2-4db0-a1f4-e703b692633a"; hit])] in
  visited data hit /\
  has_identifier (same_identifier "bc-89bdb1ce-f9e2-4db0-a1f4-e703b692633a") hit.
Proof.
  intros hit data.
  apply (proj1 (find_bc_objects_filter data)
           "bc-89bdb1ce-f9e2-4db0-a1f4-e703b692633a" hit).
  - discriminate.
  - vm_compute. left. reflexivity.
Defined.

(** C2.  The traversal is pre-order, with the children of a [dict] in key
    order and those of a [list] in index order; it yields one pair per
    node, and in a well-formed tree each path that leads to a node once
    and nothing else.  A visit adds at most one entry, and none for a
    node that is not a [dict], so the matches are at most as many as the
    [dict] nodes.  The result is the accepted nodes of the traversal, one
    per occurrence: a [list] of [n] copies of a tree gives [n] times the
    matches of the tree. *)
Theorem find_bc_objects_traversal (data : json) (bcid_filter : option string) :
  (forall node p,
     iterate_json_nodes node p
     = (p, node) ::
       flat_map (fun c => iterate_json_nodes (snd c) (p ++ [fst c])%list)
         (children node)) /\
  List.length (iterate_json_nodes data []) = node_count data /\
  (wf_json data ->
     NoDup (map fst (iterate_json_nodes data [])) /\
     forall q n,
       In (q, n) (iterate_json_nodes data []) <-> json_at data q = Some n) /\
  (forall results node,
     exists extra,
       visit bcid_filter results node = (results ++ extra)%list /\
       List.length extra <= 1 /\ (is_dict node = false -> extra = [])) /\
  List.length (find_bc_objects data bcid_filter) <= dict_count data /\
  find_bc_objects data bcid_filter
  = filter (accepted bcid_filter) (nodes data) /\
  (forall o n,
     find_bc_objects (JArr (repeat o n)) bcid_filter
     = List.concat (repeat (find_bc_objects o bcid_filter) n)).
Proof.
  split; [exact iterate_json_nodes_eq|].
  split; [apply length_iterate_json_nodes|].
  split.
  { intros Hwf. split; [now apply iterate_json_nodes_NoDup|].
    intros q n. rewrite (iterate_json_nodes_In data Hwf [] q n). simpl.
    split; [now intros (r & -> & H)|]. intros H. now exists q. }
  split.
  { intros results node.
    exists (if accepted bcid_filter node then [node] else []).
    split; [apply visit_eq|]. split.
    - destruct (accepted bcid_filter node); simpl; lia.
    - intros H. destruct (accepted bcid_filter node) eqn:E; [|reflexivity].
      apply accepted_is_dict in E. congruence. }
  split.
  { rewrite find_bc_objects_eq, <- dict_count_nodes.
    apply filter_length_le. apply accepted_is_dict. }
  split; [apply find_bc_objects_eq|].
  intros o n. rewrite find_bc_objects_arr.
  induction n as [|n IH]; simpl; [reflexivity|]. now rewrite IH.
Qed.

Lemma find_bc_objects_traversal_witness :
  let o := JObj [("id", JStr "bc-89bdb1ce-f9e2-4db0-a1f4-e703b692633a")] in
  let data := JObj [("a", JArr [o; o]); ("b", o)] in
  NoDup (map fst (iterate_json_nodes data [])) /\
  (forall q n,
     In (q, n) (iterate_json_nodes data []) <-> json_at data q = Some n) /\
  find_bc_objects data None = [o; o; o].
Proof.
  intros o data.
  destruct (find_bc_objects_traversal data None)
    as (_ & _ & Hwf & _ & _ & _ & _).
  destruct Hwf as [Hnd Hin].
  - simpl. repeat split; repeat constructor; simpl; intuition discriminate.
  - split; [exact Hnd|]. split; [exact Hin|]. vm_compute. reflexivity.
Defined.

End ObjectFinder.

(** ** Summarizer *)

Module Summarizer.
Import Heap.
#[local] Open Scope list_scope.

Lemma firstn_incl {A} n (l : list A) : incl (firstn n l) l.
Proof.
  intros x Hx. rewrite <- (firstn_skipn n l). apply in_or_app. now left.
Qed.

Lemma read_run {A} (H : heap) (l : loc) (d : dict) (f : dict -> option A) x :
  nth_error H l = Some d -> f d = Some x -> read l f H = Some (x, H).
Proof. intros E1 E2. unfold read. now rewrite E1, E2. Qed.

Lemma store_at_last (h : heap) (s s' : dict) :
  store_at (h ++ [s]) (List.length h) s' = Some (h ++ [s'])%list.
Proof.
  induction h as [|d h IH]; simpl; [reflexivity|]. now rewrite IH.
Qed.

Lemma nth_error_last (h : heap) (s : dict) :
  nth_error (h ++ [s]) (List.length h) = Some s.
Proof. rewrite nth_error_app2, Nat.sub_diag by lia. reflexivity. Qed.

Lemma nth_error_old (h : heap) (s : dict) l d :
  nth_error h l = Some d -> nth_error (h ++ [s]) l = Some d.
Proof.
  intros E. rewrite nth_error_app1; [assumption|].
  apply nth_error_Some. congruence.
Qed.

Lemma dict_has_get d key :
  dict_has d key = true <-> exists v, dict_get d key = Some v.
Proof.
  unfold dict_has. destruct (dict_get d key) as [v|].
  - split; [now exists v|reflexivity].
  - split; [discriminate|now intros [v H]].
Qed.

Lemma dict_get_keys d key :
  In key (dict_keys d) -> exists v, dict_get d key = Some v.
Proof.
  induction d as [|[k v] d IH]; simpl; [tauto|].
  intros [->|H].
  - rewrite String.eqb_refl. now exists v.
  - destruct (String.eqb k key); [now exists v|now apply IH].
Qed.

(** One turn of the first loop. *)
Lemma copy_allowlisted_run h obj d s key :
  nth_error h obj = Some d ->
  copy_allowlisted obj (List.length h) key (h ++ [s])
  = Some (tt, (h ++ [copy_if_present d s key])%list).
Proof.
  intros E. unfold copy_allowlisted, bind, contains, getitem, copy_if_present.
  rewrite (read_run _ obj d _ (dict_has d key)
             (nth_error_old _ _ _ _ E) eq_refl).
  unfold dict_has. destruct (dict_get d key) as [v|] eqn:G; [|reflexivity].
  rewrite (read_run _ obj d _ v (nth_error_old _ _ _ _ E) G).
  unfold setitem. now rewrite nth_error_last, store_at_last.
Qed.

(** One turn of the second loop, for a key of the object. *)
Lemma copy_fallback_run h obj d s key :
  nth_error h obj = Some d -> In key (dict_keys d) ->
  copy_fallback obj (List.length h) key (h ++ [s])
  = Some (tt, (h ++ [copy_if_new d s key])%list).
Proof.
  intros E Hk. unfold copy_fallback, bind, contains, getitem, copy_if_new.
  rewrite (read_run _ (List.length h) s _ (dict_has s key)
             (nth_error_last _ _) eq_refl).
  destruct (dict_has s key); [reflexivity|].
  destruct (dict_get_keys _ _ Hk) as [v G].
  rewrite (read_run _ obj d _ v (nth_error_old _ _ _ _ E) G).
  unfold setitem, copy_if_present.
  now rewrite nth_error_last, store_at_last, G.
Qed.

Lemma first_loop_run h obj d : forall ks s,
  nth_error h obj = Some d ->
  for_each ks (copy_allowlisted obj (List.length h)) (h ++ [s])
  = Some (tt, (h ++ [fold_left (copy_if_present d) ks s])%list).
Proof.
  induction ks as [|key ks IH]; intros s E; simpl; [reflexivity|].
  unfold bind. rewrite (copy_allowlisted_run _ _ _ _ _ E). now apply IH.
Qed.

Lemma second_loop_run h obj d : forall ks s,
  nth_error h obj = Some d -> incl ks (dict_keys d) ->
  for_each ks (copy_fallback obj (List.length h)) (h ++ [s])
  = Some (tt, (h ++ [fold_left (copy_if_new d) ks s])%list).
Proof.
  induction ks as [|key ks IH]; intros s E Hk; simpl; [reflexivity|].
  unfold bind.
  rewrite (copy_fallback_run _ _ _ _ _ E) by (apply Hk; now left).
  apply IH; [assumption|]. intros k Hin. apply Hk. now right.
Qed.

Lemma bind_run {A B} (m : M A) (f : A -> M B) h x h' :
  m h = Some (x, h') -> bind m f h = f x h'.
Proof. intros E. unfold bind. now rewrite E. Qed.

Lemma len_run h s : len (List.length h) (h ++ [s]) = Some (List.length s, h ++ [s]).
Proof. apply read_run with (d := s); [apply nth_error_last|reflexivity]. Qed.

Lemma keys_run h obj d s :
  nth_error h obj = Some d -> keys obj (h ++ [s]) = Some (dict_keys d, h ++ [s]).
Proof.
  intros E. apply read_run with (d := d); [|reflexivity].
  now apply nth_error_old.
Qed.

(** A run of [summarize_object] allocates the summary after the objects
    of the store and changes nothing else. *)
Lemma summarize_object_run h obj d :
  nth_error h obj = Some d ->
  summarize_object obj h
  = Some (List.length h, (h ++ [summary_of d])%list).
Proof.
  intros E. unfold summarize_object.
  erewrite bind_run; [|reflexivity].
  erewrite bind_run; [|apply first_loop_run; eassumption].
  erewrite bind_run; [|apply len_run].
  unfold summary_of.
  destruct (List.length (fold_left (copy_if_present d) keys_of_interest [])
            <=? 2)%nat.
  - erewrite bind_run; [reflexivity|].
    erewrite bind_run; [|apply keys_run; eassumption].
    apply second_loop_run; [assumption|apply firstn_incl].
  - erewrite bind_run; reflexivity.
Qed.

(** *** The summary as a function of the object *)

Lemma dict_set_new s k v :
  dict_has s k = false -> dict_set s k v = s ++ [(k, v)].
Proof.
  unfold dict_has. induction s as [|[k' v'] s IH]; simpl; [reflexivity|].
  destruct (String.eqb k' k); [discriminate|].
  intros H. now rewrite IH.
Qed.

Lemma dict_get_app s t k :
  dict_get (s ++ t) k
  = match dict_get s k with Some v => Some v | None => dict_get t k end.
Proof.
  induction s as [|[k' v'] s IH]; simpl; [reflexivity|].
  now destruct (String.eqb k' k).
Qed.

Lemma dict_has_snoc s k v k' :
  dict_has (s ++ [(k, v)]) k' = dict_has s k' || String.eqb k k'.
Proof.
  unfold dict_has. rewrite dict_get_app. simpl.
  destruct (dict_get s k'); [reflexivity|].
  now destruct (String.eqb k k').
Qed.

Lemma keys_of_interest_NoDup : NoDup keys_of_interest.
Proof.
  unfold keys_of_interest.
  repeat (constructor; [simpl; intuition discriminate|]). constructor.
Qed.

Lemma dict_has_hits d ks k :
  ~ In k ks -> dict_has (flat_map (hit d) ks) k = false.
Proof.
  induction ks as [|k' ks IH]; simpl; intros H; [reflexivity|].
  unfold dict_has. rewrite dict_get_app.
  assert (k' <> k) as Hne by tauto.
  unfold hit at 1. destruct (dict_get d k'); simpl.
  - apply String.eqb_neq in Hne. rewrite Hne. apply IH. tauto.
  - apply IH. tauto.
Qed.

Lemma first_loop_fold d : forall ks s,
  NoDup ks -> (forall k, In k ks -> dict_has s k = false) ->
  fold_left (copy_if_present d) ks s = s ++ flat_map (hit d) ks.
Proof.
  induction ks as [|k ks IH]; intros s Hnd Hs; simpl;
    [now rewrite app_nil_r|].
  inversion Hnd as [|? ? Hnot Hnd']; subst.
  unfold copy_if_present at 2, hit at 1.
  destruct (dict_get d k) as [v|].
  - rewrite dict_set_new by (apply Hs; now left).
    rewrite IH; [now rewrite <- app_assoc|assumption|].
    intros k' Hk'. rewrite dict_has_snoc, Hs by now right.
    simpl. apply String.eqb_neq. intros ->. contradiction.
  - apply IH; [assumption|]. intros k' Hk'. apply Hs. now right.
Qed.

Lemma allowlist_fold d :
  fold_left (copy_if_present d) keys_of_interest [] = allowlist_hits d.
Proof.
  rewrite first_loop_fold; [reflexivity|apply keys_of_interest_NoDup|].
  reflexivity.
Qed.

Lemma dict_get_hits d : forall ks key,
  In key ks -> dict_get (flat_map (hit d) ks) key = dict_get d key.
Proof.
  induction ks as [|k ks IH]; simpl; intros key Hin; [contradiction|].
  rewrite dict_get_app. unfold hit at 1.
  destruct (String.eqb k key) eqn:E.
  - apply String.eqb_eq in E as ->.
    destruct (dict_get d key) as [v|] eqn:G; simpl.
    + now rewrite String.eqb_refl.
    + destruct (in_dec string_dec key ks) as [Hi|Hn];
        [rewrite <- G; now apply IH|].
      pose proof (dict_has_hits d ks key Hn) as Hh. unfold dict_has in Hh.
      now destruct (dict_get (flat_map (hit d) ks) key).
  - destruct Hin as [->|Hin]; [now rewrite String.eqb_refl in E|].
    destruct (dict_get d k); simpl; [rewrite E|]; now apply IH.
Qed.

Lemma length_hits d ks : List.length (flat_map (hit d) ks) <= List.length ks.
Proof.
  induction ks as [|k ks IH]; simpl; [lia|].
  rewrite length_app. unfold hit at 1.
  destruct (dict_get d k); simpl; lia.
Qed.

(** In a [dict] with pairwise different keys the second loop adds, of its
    fields in turn, those whose key the summary does not have. *)
Lemma second_loop_fold d : forall l s,
  NoDup (map fst l) ->
  (forall kv, In kv l -> dict_get d (fst kv) = Some (snd kv)) ->
  fold_left (copy_if_new d) (map fst l) s
  = s ++ filter (fun kv => negb (dict_has s (fst kv))) l.
Proof.
  induction l as [|[k v] l IH]; intros s Hnd Hd; simpl;
    [now rewrite app_nil_r|].
  inversion Hnd as [|? ? Hnot Hnd']; subst.
  assert (Hd' : forall kv, In kv l -> dict_get d (fst kv) = Some (snd kv))
    by (intros kv Hkv; apply Hd; now right).
  unfold copy_if_new at 2.
  destruct (dict_has s k) eqn:Hk; simpl; [now apply IH|].
  pose proof (Hd (k, v) (or_introl eq_refl)) as G. simpl in G.
  unfold copy_if_present. rewrite G.
  rewrite dict_set_new by assumption.
  rewrite IH by assumption. rewrite <- app_assoc. simpl.
  do 2 f_equal. apply filter_ext_in. intros [k' v'] Hin.
  rewrite dict_has_snoc. simpl.
  replace (String.eqb k k') with false; [now rewrite orb_false_r|].
  symmetry. apply String.eqb_neq. intros ->. apply Hnot.
  change k' with (fst (k', v')). now apply in_map.
Qed.

Lemma NoDup_firstn {A} n (l : list A) : NoDup l -> NoDup (firstn n l).
Proof.
  intros H. rewrite <- (firstn_skipn n l) in H.
  now apply NoDup_app_remove_r in H.
Qed.

Lemma summary_of_wf d :
  NoDup (dict_keys d) ->
  summary_of d
  = if (List.length (allowlist_hits d) <=? 2)%nat
    then allowlist_hits d ++ fallback_fields d (allowlist_hits d)
    else allowlist_hits d.
Proof.
  intros Hnd. unfold summary_of. rewrite allowlist_fold.
  destruct (List.length (allowlist_hits d) <=? 2)%nat; [|reflexivity].
  unfold dict_keys. rewrite firstn_map.
  apply second_loop_fold.
  - rewrite <- firstn_map. now apply NoDup_firstn.
  - intros [k v] Hin. simpl. apply Traversal.In_dict_get; [assumption|].
    now apply (firstn_incl 10).
Qed.

(** Whatever the keys, the second loop appends at most one field per key
    it is given, under that key. *)
Lemma second_loop_extra d : forall ks s,
  exists extra,
    fold_left (copy_if_new d) ks s = s ++ extra /\
    List.length extra <= List.length ks /\ incl (dict_keys extra) ks.
Proof.
  induction ks as [|k ks IH]; intros s; simpl.
  - exists []. rewrite app_nil_r.
    split; [reflexivity|]. split; [simpl; lia|apply incl_refl].
  - assert (copy_if_new d s k = s \/ exists v, copy_if_new d s k = s ++ [(k, v)])
      as [->|[v ->]].
    { unfold copy_if_new, copy_if_present.
      destruct (dict_has s k) eqn:Hk; [now left|].
      destruct (dict_get d k) as [v|]; [|now left].
      right. exists v. now apply dict_set_new. }
    + destruct (IH s) as (extra & -> & Hl & Hi).
      exists extra.
      split; [reflexivity|]. split; [lia|now apply incl_tl].
    + destruct (IH (s ++ [(k, v)])) as (extra & -> & Hl & Hi).
      exists ((k, v) :: extra). rewrite <- app_assoc.
      split; [reflexivity|]. split; [simpl; lia|].
      intros x [<-|Hx]; [now left|right; now apply Hi].
Qed.

Lemma keys_hits d ks :
  dict_keys (flat_map (hit d) ks) = filter (dict_has d) ks.
Proof.
  unfold dict_keys, dict_has.
  induction ks as [|k ks IH]; simpl; [reflexivity|].
  rewrite map_app, IH. unfold hit.
  now destruct (dict_get d k).
Qed.

Lemma length_fallback_fields d s : List.length (fallback_fields d s) <= 10.
Proof.
  unfold fallback_fields.
  etransitivity; [apply filter_length_le|apply firstn_le_length].
Qed.

(** C6.  For a [dict] [d] held in the store at [obj], the run ends and
    gives a new [dict] placed after the objects of the store.  It holds
    the allowlisted fields that [d] has, with the values of [d], in the
    order of the allowlist; and, when these are at most two, after them
    the fields among the first ten of [d] not yet copied, in the order of
    [d], at most ten.  Every object of the store, [d] among them, is
    afterwards what it was. *)
Theorem summarize_object_copies (h : heap) (obj : loc) (d : dict) :
  nth_error h obj = Some d -> NoDup (dict_keys d) ->
  let hits := allowlist_hits d in
  let summary :=
    if (List.length hits <=? 2)%nat
    then hits ++ fallback_fields d hits else hits in
  summarize_object obj h = Some (List.length h, h ++ [summary]) /\
  dict_keys hits = filter (dict_has d) keys_of_interest /\
  (forall key, In key keys_of_interest -> dict_get hits key = dict_get d key) /\
  List.length (fallback_fields d hits) <= 10 /\
  (forall l d', nth_error h l = Some d' ->
                nth_error (h ++ [summary]) l = Some d').
Proof.
  intros E Hnd hits summary.
  split; [|split; [|split; [|split]]].
  - rewrite (summarize_object_run _ _ _ E). now rewrite summary_of_wf.
  - apply keys_hits.
  - apply dict_get_hits.
  - apply length_fallback_fields.
  - intros l d'. apply nth_error_old.
Qed.

Lemma scenario_object_NoDup : NoDup (dict_keys scenario_object).
Proof.
  unfold scenario_object, dict_keys. simpl.
  repeat (constructor; [simpl; intuition discriminate|]). constructor.
Qed.

Lemma summarize_object_copies_witness :
  summarize_object 0 [scenario_object]
  = Some (1, [scenario_object; firstn 10 scenario_object]).
Proof.
  exact (proj1 (summarize_object_copies [scenario_object] 0 scenario_object
                  eq_refl scenario_object_NoDup)).
Defined.

(** C9.  The summary never has more than 12 entries.  With more than two
    allowlisted fields it is these, at most 12; otherwise it is these, at
    most two, and then at most ten fields whose keys are among the first
    ten keys of the object.  The bound is below the sum of the size of
    the allowlist and ten. *)
Theorem summarize_object_size (h : heap) (obj : loc) (d : dict) :
  nth_error h obj = Some d ->
  exists s,
    summarize_object obj h = Some (List.length h, h ++ [s]) /\
    List.length s <= 12 /\
    (2 < List.length (allowlist_hits d) -> s = allowlist_hits d) /\
    (List.length (allowlist_hits d) <= 2 ->
       exists extra,
         s = allowlist_hits d ++ extra /\ List.length extra <= 10 /\
         incl (dict_keys extra) (firstn 10 (dict_keys d))) /\
    12 < List.length keys_of_interest + 10.
Proof.
  intros E. exists (summary_of d).
  split; [now apply summarize_object_run|].
  pose proof (length_hits d keys_of_interest) as Hh.
  change (List.length keys_of_interest) with 12 in Hh.
  fold (allowlist_hits d) in Hh.
  unfold summary_of. rewrite allowlist_fold.
  destruct (second_loop_extra d (firstn 10 (dict_keys d)) (allowlist_hits d))
    as (extra & Hx & Hl & Hi).
  pose proof (firstn_le_length 10 (dict_keys d)) as H10.
  destruct (Nat.leb_spec (List.length (allowlist_hits d)) 2) as [Hle|Hgt].
  - rewrite Hx. split; [rewrite length_app; lia|].
    split; [lia|]. split; [|simpl; lia].
    intros _. exists extra. split; [reflexivity|]. split; [lia|assumption].
  - split; [lia|]. split; [reflexivity|]. split; [lia|simpl; lia].
Qed.

Lemma summarize_object_size_witness :
  exists s,
    summarize_object 0 [twelve_fields] = Some (1, [twelve_fields; s]) /\
    List.length s <= 12.
Proof.
  destruct (summarize_object_size [twelve_fields] 0 twelve_fields eq_refl)
    as (s & Hrun & Hlen & _).
  exists s. split; [exact Hrun|exact Hlen].
Defined.

Example summarize_twelve :
  option_map (@List.length _) (summarize twelve_fields) = Some 12.
Proof. vm_compute. reflexivity. Qed.

(** The scenario of the specification: [id], [name] and the fields
    [extra1] to [extra8], the other eight of the first ten. *)
Example summarize_scenario :
  option_map dict_keys (summarize scenario_object)
  = Some [ "id"; "name"; "extra1"; "extra2"; "extra3"; "extra4"; "extra5";
           "extra6"; "extra7"; "extra8" ].
Proof. vm_compute. reflexivity. Qed.

End Summarizer.

(** ** Content decoder *)

Module ContentDecoder.
Import CursorAgentFetcher.
#[local] Open Scope list_scope.
#[local] Open Scope N_scope.
#[local] Ltac Zify.zify_post_hook ::= Z.to_euclidean_division_equations.

Lemma to_N_byte_of_N n : n < 256 -> Byte.to_N (byte_of_N n) = n.
Proof.
  intros H. unfold byte_of_N.
  destruct (Byte.of_N n) as [b|] eqn:E.
  - now apply Byte.to_of_N.
  - apply Byte.of_N_None_iff in E. lia.
Qed.

(** Settles the comparisons of the goal from the bounds at hand. *)
Ltac decide_tests :=
  repeat match goal with
  | |- context [N.ltb ?a ?b] => destruct (N.ltb_spec a b); try lia
  | |- context [N.leb ?a ?b] => destruct (N.leb_spec a b); try lia
  end;
  cbn [negb andb orb].

(** The decoder reads back the bytes of one encoded code point. *)
Lemma utf8_decode_encode_cp cp rest :
  scalar_value cp = true ->
  utf8_decode (map byte_of_N (utf8_encode_cp cp) ++ rest)
  = option_map (cons cp) (utf8_decode rest).
Proof.
  intros Hs.
  assert (cp < 55296 \/ 57343 < cp <= 1114111) as Hr.
  { unfold scalar_value in Hs.
    apply orb_true_iff in Hs as [Hs|Hs].
    - left. now apply N.ltb_lt.
    - right. apply andb_true_iff in Hs as [H1 H2].
      apply N.ltb_lt in H1. apply N.leb_le in H2. lia. }
  clear Hs. unfold utf8_encode_cp.
  destruct (N.ltb_spec cp 128) as [H1|H1].
  { cbn [map app utf8_decode]. rewrite to_N_byte_of_N by lia.
    decide_tests; reflexivity. }
  destruct (N.ltb_spec cp 2048) as [H2|H2].
  { cbn [map app utf8_decode]. rewrite !to_N_byte_of_N by lia.
    unfold is_cont. decide_tests.
    replace ((192 + cp / 64 - 192) * 64 + (128 + cp mod 64 - 128))
      with cp by lia.
    reflexivity. }
  destruct (N.ltb_spec cp 65536) as [H3|H3].
  { cbn [map app utf8_decode]. rewrite !to_N_byte_of_N by lia.
    unfold is_cont, scalar_value.
    replace ((224 + cp / 4096 - 224) * 4096
             + (128 + (cp / 64) mod 64 - 128) * 64 + (128 + cp mod 64 - 128))
      with cp by lia.
    decide_tests; reflexivity. }
  cbn [map app utf8_decode]. rewrite !to_N_byte_of_N by lia.
  unfold is_cont, scalar_value.
  replace ((240 + cp / 262144 - 240) * 262144
           + (128 + (cp / 4096) mod 64 - 128) * 4096
           + (128 + (cp / 64) mod 64 - 128) * 64 + (128 + cp mod 64 - 128))
    with cp by lia.
  decide_tests; reflexivity.
Qed.

(** Decoding what [str.encode("utf-8")] gives is the string. *)
Lemma utf8_decode_encode : forall s b,
  utf8_encode s = Some b -> utf8_decode b = Some s.
Proof.
  induction s as [|cp s IH]; simpl; intros b H.
  - now injection H as <-.
  - destruct (scalar_value cp) eqn:Hs; [|discriminate].
    destruct (utf8_encode s) as [b'|]; [|discriminate].
    simpl in H. injection H as <-.
    rewrite utf8_decode_encode_cp by assumption.
    now rewrite (IH b' eq_refl).
Qed.

Lemma starts_with_magic r :
  starts_with_gzip_magic (Byte.x1f :: Byte.x8b :: r) = true.
Proof. reflexivity. Qed.

Lemma stored_gzip_laws : GzipLaws stored_gzip.
Proof.
  split; intros b; simpl; [now exists b|reflexivity].
Qed.

(** C4.  With a gzip module that obeys its laws, the decoder gives back
    every string that UTF-8 can encode from the gzip compression of its
    encoding, after the one note that it decompressed. *)
Theorem decode_content_gzip_round_trip
    (G : Gzip) (L : GzipLaws G) (s : text) (b : bytes) :
  utf8_encode s = Some b ->
  decode_content (gzip_compress b) = ([Decompressed], s).
Proof.
  intros E. unfold decode_content, gunzip_if_framed.
  destruct (gzip_magic b) as [r Hr].
  rewrite gzip_round_trip. rewrite Hr, starts_with_magic.
  unfold decode_text. now rewrite (utf8_decode_encode _ _ E).
Qed.

Lemma decode_content_gzip_round_trip_witness :
  let s := [72; 233; 8364; 128512; 10] in
  exists b,
    utf8_encode s = Some b /\
    @decode_content stored_gzip (@gzip_compress stored_gzip b)
    = ([Decompressed], s).
Proof.
  intros s.
  exists [Byte.x48; Byte.xc3; Byte.xa9; Byte.xe2; Byte.x82; Byte.xac;
          Byte.xf0; Byte.x9f; Byte.x98; Byte.x80; Byte.x0a]%list.
  split; [vm_compute; reflexivity|].
  apply (decode_content_gzip_round_trip stored_gzip stored_gzip_laws).
  vm_compute. reflexivity.
Defined.

(** C5.  What the decoder returns is the UTF-8 decoding of the content
    left by the gzip step or, when that content is not UTF-8, its Latin-1
    decoding.  The Latin-1 codec accepts every byte sequence, so the
    base64 branch is never taken: its note is never printed.  The decoder
    is a total function to strings. *)
Theorem decode_content_text_or_latin1 (G : Gzip) (content : bytes) :
  let body := snd (gunzip_if_framed content) in
  (body = content \/
   starts_with_gzip_magic content = true /\
   gzip_decompress content = Some body) /\
  (utf8_decode body = Some (snd (decode_content content)) \/
   utf8_decode body = None /\
   snd (decode_content content) = map Byte.to_N body) /\
  (forall b, exists s, latin1_decode b = Some s) /\
  ~ In BinaryAsBase64 (fst (decode_content content)).
Proof.
  unfold decode_content, gunzip_if_framed, decode_text, latin1_decode.
  destruct (starts_with_gzip_magic content) eqn:Em;
    [destruct (gzip_decompress content) as [d|] eqn:Ed|]; simpl.
  all: repeat split;
    try solve [now left | right; now split | intros b; now eexists].
  all: try (destruct (utf8_decode _) eqn:Eu; simpl;
            [now left|right; now split]).
  all: destruct (utf8_decode _); simpl; intuition discriminate.
Qed.

(** The three outcomes on bytes that are not UTF-8, with and without a
    gzip frame that fails to decompress. *)
Example decode_content_latin1 :
  @decode_content stored_gzip [Byte.x63; Byte.x61; Byte.x66; Byte.xe9]
  = ([], [99; 97; 102; 233]).
Proof. vm_compute. reflexivity. Qed.

End ContentDecoder.

(** ** The command line tool *)

Module CommandLine.
Import Traversal ObjectFinder Summarizer.

Lemma snd_emit es r : snd (emit es r) = snd r.
Proof. reflexivity. Qed.

Lemma snd_say e r : snd (say e r) = snd r.
Proof. reflexivity. Qed.

Lemma summarize_total d : summarize d = Some (summary_of d).
Proof.
  unfold summarize.
  now rewrite (summarize_object_run [d] 0 d eq_refl).
Qed.

Lemma summarize_all_dicts : forall l,
  Forall (fun n => is_dict n = true) l -> exists ss, summarize_all l = Some ss.
Proof.
  induction l as [|n l IH]; intros H; simpl; [now eexists|].
  inversion H as [|? ? Hn Hl]; subst.
  destruct n; try discriminate.
  rewrite summarize_total. destruct (IH Hl) as [ss ->]. now eexists.
Qed.

Lemma find_bc_objects_dicts data f :
  Forall (fun n => is_dict n = true) (find_bc_objects data f).
Proof.
  rewrite find_bc_objects_eq. apply Forall_forall. intros n Hn.
  apply filter_In in Hn as [_ Hn]. now apply accepted_is_dict in Hn.
Qed.

(** Searching and reporting ends with code 0, with or without matches. *)
Lemma search_and_report_exit `{Platform} fmt data bcid :
  snd (search_and_report fmt data bcid) = Exit 0.
Proof.
  unfold search_and_report.
  pose proof (find_bc_objects_dicts data bcid) as Hd.
  destruct (find_bc_objects data bcid) as [|m ms] eqn:E.
  - destruct bcid as [b|]; [destruct (Str.truthy b)|]; reflexivity.
  - unfold report. destruct fmt; try reflexivity.
    destruct (summarize_all_dicts _ Hd) as [ss ->]. reflexivity.
Qed.

Lemma raise_for_status_error status :
  (400 <= status < 600)%Z -> raise_for_status status = Some HTTPError.
Proof.
  intros [H1 H2]. unfold raise_for_status.
  apply Z.leb_le in H1. apply Z.ltb_lt in H2. now rewrite H1, H2.
Qed.

(** C7.  When the cookie header is built, the run of [main] ends with
    code 2 if the fetch raises an HTTP error, which it does on every
    status from 400 to 599, or another request exception; with code 3 if
    the page is fetched and no [__NEXT_DATA__] payload comes out of it;
    and with code 0 if the payload comes out and the output file, when
    asked for, is written or fails with [OSError], whether the finder has
    matches or not. *)
Theorem main_exit_codes (P : Platform) (args : Args)
    (notes : list event) (cookie_header : option string) :
  build_cookie_header (a_cookie args) (a_cookie_file args)
  = (notes, inr cookie_header) ->
  let fetched := fetch_html (a_url args) cookie_header (a_timeout args) in
  (forall status text,
     requests_get (a_url args) (request_headers cookie_header) (a_timeout args)
     = inr (status, text) ->
     (400 <= status < 600)%Z -> fetched = inl HTTPError) /\
  (fetched = inl HTTPError \/ fetched = inl RequestException ->
   snd (main args) = Exit 2) /\
  (forall html,
     fetched = inr html -> extract_next_data html = inr JNull ->
     snd (main args) = Exit 3) /\
  (forall html data,
     fetched = inr html -> extract_next_data html = inr data ->
     data <> JNull -> output_written args data ->
     snd (main args) = Exit 0 /\
     (find_bc_objects data
        (if opt_truthy (a_bcid args) then a_bcid args
         else parse_bcid_from_url (a_url args)) = [] ->
      snd (main args) = Exit 0)).
Proof.
  intros Hc fetched. subst fetched.
  split; [|split; [|split]].
  - intros status text Hg Hs. unfold fetch_html.
    now rewrite Hg, (raise_for_status_error _ Hs).
  - intros Hf. unfold main. rewrite snd_emit, Hc, snd_emit.
    now destruct Hf as [-> | ->].
  - intros html Hf He. unfold main. rewrite snd_emit, Hc, snd_emit.
    now rewrite Hf, He.
  - intros html data Hf He Hn Hw.
    assert (snd (main args) = Exit 0) as Hm; [|now split].
    unfold main. rewrite snd_emit, Hc, snd_emit. rewrite Hf, He.
    unfold output_written in Hw.
    destruct data; try contradiction;
      (destruct (a_output args) as [file|];
       [destruct (Str.truthy file);
        [destruct (Hw eq_refl) as [-> | ->]|]|]);
      rewrite ?snd_say; apply search_and_report_exit.
Qed.

Lemma main_exit_codes_witness :
  snd (main (example_args "https://cursor.com/missing")) = Exit 2 /\
  snd (main (example_args "http://localhost:1/agents")) = Exit 2 /\
  snd (main (example_args "https://cursor.com/login")) = Exit 3 /\
  snd (main (example_args "https://cursor.com/agents")) = Exit 0.
Proof.
  split; [|split; [|split]].
  - destruct (main_exit_codes example_platform
                (example_args "https://cursor.com/missing") [] None eq_refl)
      as (Hs & H2 & _).
    apply H2. left. apply (Hs 404%Z ""); [reflexivity|lia].
  - destruct (main_exit_codes example_platform
                (example_args "http://localhost:1/agents") [] None eq_refl)
      as (_ & H2 & _).
    apply H2. right. reflexivity.
  - destruct (main_exit_codes example_platform
                (example_args "https://cursor.com/login") [] None eq_refl)
      as (_ & _ & H3 & _).
    apply (H3 login_page); reflexivity.
  - destruct (main_exit_codes example_platform
                (example_args "https://cursor.com/agents") [] None eq_refl)
      as (_ & _ & _ & H0).
    apply (H0 next_data_page (JObj [])); try reflexivity. discriminate.
Defined.

(** C10.  [extract_next_data] gives [None] when no tag is found, when
    the body of the tag is empty, and when the body is not JSON; the
    caller gets the same value in the three cases, and a run of [main]
    that gets it prints the same error and ends with code 3. *)
Theorem extract_next_data_none (P : Platform) (html : string) :
  (soup_find_next_data html = None -> extract_next_data html = inr JNull) /\
  (soup_find_next_data html = Some "" -> extract_next_data html = inr JNull) /\
  (forall text,
     soup_find_next_data html = Some text ->
     json_loads text = inl JSONDecodeError ->
     extract_next_data html = inr JNull) /\
  (forall args notes cookie_header,
     build_cookie_header (a_cookie args) (a_cookie_file args)
     = (notes, inr cookie_header) ->
     fetch_html (a_url args) cookie_header (a_timeout args) = inr html ->
     extract_next_data html = inr JNull ->
     snd (main args) = Exit 3 /\
     exists before, fst (main args) = (before ++ [(Stderr, ErrNoNextData)])%list).
Proof.
  split; [|split; [|split]].
  - intros E. unfold extract_next_data. now rewrite E.
  - intros E. unfold extract_next_data. now rewrite E.
  - intros text E1 E2. unfold extract_next_data. rewrite E1, E2.
    now destruct (Str.truthy text).
  - intros args notes cookie_header Hc Hf He. unfold main.
    rewrite Hc, Hf, He. split; [reflexivity|].
    unfold emit, say, done. simpl.
    eexists. rewrite app_assoc. reflexivity.
Qed.

Lemma extract_next_data_none_witness :
  @extract_next_data example_platform login_page = inr JNull /\
  @extract_next_data example_platform broken_page = inr JNull /\
  snd (main (example_args "https://cursor.com/login")) = Exit 3 /\
  snd (main (example_args "https://cursor.com/broken")) = Exit 3.
Proof.
  destruct (extract_next_data_none example_platform login_page)
    as (Hnone & _ & _ & Hmain1).
  destruct (extract_next_data_none example_platform broken_page)
    as (_ & _ & Hjson & Hmain2).
  assert (@extract_next_data example_platform login_page = inr JNull) as E1
    by (apply Hnone; reflexivity).
  assert (@extract_next_data example_platform broken_page = inr JNull) as E2
    by (apply (Hjson "{oops"); reflexivity).
  split; [exact E1|]. split; [exact E2|]. split.
  - apply (Hmain1 (example_args "https://cursor.com/login") [] None);
      [reflexivity|reflexivity|exact E1].
  - apply (Hmain2 (example_args "https://cursor.com/broken") [] None);
      [reflexivity|reflexivity|exact E2].
Defined.

End CommandLine.

(** * Further properties *)

(** ** Identifier extractor: what a result is *)

Module ExtractorProperties.
Import Str StrFacts Regex ParamRegex IdentifierExtractor.

(** X1.  The extractor returns [None] exactly for the URLs that hold no
    identifier; and what it returns otherwise is an identifier, of 39
    characters, that occurs in the URL as it is written there. *)
Theorem parse_bcid_from_url_result (url : string) :
  (parse_bcid_from_url url = None <-> ~ contains_bcid url) /\
  (forall m, parse_bcid_from_url url = Some m ->
     is_bcid m /\ substring_of m url /\ String.length m = 39).
Proof.
  split.
  - split.
    + unfold parse_bcid_from_url. intros H.
      apply BCID_search_None_iff.
      destruct (re_search param_match_at url) as [candidate|];
        [destruct (BCID_search candidate); [discriminate|]|]; exact H.
    + intros H. apply BCID_search_None_iff in H.
      unfold parse_bcid_from_url. rewrite H.
      destruct (re_search param_match_at url) as [candidate|] eqn:E;
        [|reflexivity].
      rewrite (BCID_search_substring candidate url);
        [reflexivity| |assumption].
      destruct (param_search_sound _ _ E) as (pre & suf & -> & Hp & _).
      apply substring_of_suffix. now apply param_value_substring.
  - intros m H.
    assert (is_bcid m /\ substring_of m url) as [Hm Hs].
    { unfold parse_bcid_from_url in H.
      destruct (re_search param_match_at url) as [candidate|] eqn:E.
      - destruct (BCID_search candidate) as [bcid|] eqn:Ec.
        + injection H as ->.
          destruct (BCID_search_contains _ _ Ec) as [Hm Hs].
          split; [assumption|].
          apply (substring_of_trans m candidate url); [assumption|].
          destruct (param_search_sound _ _ E) as (pre & suf & -> & Hp & _).
          apply substring_of_suffix. now apply param_value_substring.
        + now apply BCID_search_contains.
      - now apply BCID_search_contains. }
    repeat split; try assumption. now apply is_bcid_length.
Qed.

End ExtractorProperties.

(** ** Object finder: the exact filter, and how results compose *)

Module FinderProperties.
Import Str Regex Traversal ObjectFinder.

Lemma accepted_leftmost target node :
  target <> "" -> accepted (Some target) node = true ->
  has_leftmost_identifier (same_identifier target) node.
Proof.
  intros Ht. destruct node as [ | | | | | |fields]; try discriminate. simpl.
  intros H. apply existsb_exists in H as (c & Hc & Hp).
  unfold passes in Hp.
  destruct (BCID_search c) as [m|] eqn:E; [|discriminate].
  apply negb_true_iff in Hp.
  destruct (candidates_values _ _ Hc) as [k Hk].
  exists fields, k, c, m. repeat split; try assumption.
  - now apply BCID_search_sound.
  - now apply filtered_out_target.
Qed.

(** X3.  With a target, the finder yields exactly the [dict] nodes of the
    tree that have a string value whose leftmost identifier equals the
    target up to case: an identifier further to the right in a string is
    never compared. *)
Theorem find_bc_objects_leftmost (data : json) (target : string) (node : json) :
  target <> "" ->
  (In node (find_bc_objects data (Some target)) <->
   visited data node /\
   has_leftmost_identifier (same_identifier target) node).
Proof.
  intros Ht. rewrite find_bc_objects_eq, filter_In, visited_nodes.
  split; intros [Hv Ha]; (split; [assumption|]).
  - now apply accepted_leftmost.
  - now apply leftmost_identifier_accepted.
Qed.

Lemma find_bc_objects_leftmost_witness :
  let two := JObj [("note", JStr "bc-00000000-0000-0000-0000-000000000000 replaces bc-89bdb1ce-f9e2-4db0-a1f4-e703b692633a")] in
  let data := JArr [two] in
  (In two (find_bc_objects data (Some "BC-00000000-0000-0000-0000-000000000000")) <->
   visited data two /\
   has_leftmost_identifier
     (same_identifier "BC-00000000-0000-0000-0000-000000000000") two) /\
  find_bc_objects data (Some "bc-89bdb1ce-f9e2-4db0-a1f4-e703b692633a") = [].
Proof.
  intros two data. split.
  - apply find_bc_objects_leftmost. discriminate.
  - vm_compute. reflexivity.
Defined.

Lemma accepted_without_target f node :
  accepted f node = true -> accepted None node = true.
Proof.
  destruct node as [ | | | | | |fields]; try discriminate. simpl.
  intros H. apply existsb_exists in H as (c & Hc & Hp).
  apply existsb_exists. exists c. split; [assumption|].
  unfold passes in *. now destruct (BCID_search c).
Qed.

(** X4.  The matches for a target are the matches without a target that
    pass the test for the target, in the same order: a target only
    removes entries. *)
Theorem find_bc_objects_restricts (data : json) (bcid_filter : option string) :
  find_bc_objects data bcid_filter
  = filter (accepted bcid_filter) (find_bc_objects data None).
Proof.
  rewrite !find_bc_objects_eq.
  induction (nodes data) as [|n l IH]; simpl; [reflexivity|].
  destruct (accepted bcid_filter n) eqn:E.
  - rewrite (accepted_without_target _ _ E). simpl. now rewrite E, IH.
  - destruct (accepted None n); simpl; [now rewrite E|exact IH].
Qed.

Lemma filtered_out_same_lower t t' m :
  lower t = lower t' ->
  filtered_out (Some t) m = filtered_out (Some t') m.
Proof.
  intros H. unfold filtered_out. rewrite H.
  destruct t, t'; try reflexivity; discriminate.
Qed.

Lemma existsb_same {A} (p q : A -> bool) l :
  (forall x, p x = q x) -> existsb p l = existsb q l.
Proof.
  intros H. induction l as [|x l IH]; simpl; [reflexivity|].
  now rewrite H, IH.
Qed.

(** X5.  Two targets that differ in case only give the same matches. *)
Theorem find_bc_objects_target_case (data : json) (t t' : string) :
  lower t = lower t' ->
  find_bc_objects data (Some t) = find_bc_objects data (Some t').
Proof.
  intros H. rewrite !find_bc_objects_eq. apply filter_ext.
  intros [ | | | | | |fields]; try reflexivity. simpl.
  apply existsb_same. intros c. unfold passes. destruct (BCID_search c); [|reflexivity].
  now rewrite (filtered_out_same_lower t t').
Qed.

Lemma find_bc_objects_target_case_witness :
  let data :=
    JObj [("agent", JObj [("bcId", JStr "bc-89bdb1ce-F9E2-4db0-a1f4-e703b692633a")])] in
  find_bc_objects data (Some "BC-89BDB1CE-F9E2-4DB0-A1F4-E703B692633A")
  = find_bc_objects data (Some "bc-89bdb1ce-f9e2-4db0-a1f4-e703b692633a").
Proof.
  intros data. apply find_bc_objects_target_case. vm_compute. reflexivity.
Defined.

Lemma existsb_incl {A} (p : A -> bool) l l' :
  incl l l' -> existsb p l = true -> existsb p l' = true.
Proof.
  intros Hi H. apply existsb_exists in H as (x & Hx & Hp).
  apply existsb_exists. exists x. split; [now apply Hi|assumption].
Qed.

Lemma accepted_values f node : accepted f node = values_accept f node.
Proof.
  destruct node as [ | | | | | |fields]; try reflexivity. simpl.
  destruct (existsb (passes f) (str_values (dict_values fields))) eqn:E.
  - revert E. apply existsb_incl. unfold candidates.
    intros c Hc. apply in_or_app. now right.
  - destruct (existsb (passes f) (candidates fields)) eqn:E'; [|reflexivity].
    rewrite <- E. symmetry. revert E'. apply existsb_incl.
    intros c Hc. destruct (candidates_values _ _ Hc) as [k Hk].
    unfold str_values, dict_values. apply in_flat_map.
    exists (JStr c). split; [|now left].
    change (JStr c) with (snd (k, JStr c)). now apply in_map.
Qed.

(** X6.  The look at the fields [id], [bcId], [bc_id] and [bcid] before
    the others changes nothing: the finder yields the [dict] nodes one of
    whose string values passes the test, whatever its key. *)
Theorem find_bc_objects_any_key (data : json) (bcid_filter : option string) :
  find_bc_objects data bcid_filter
  = filter (values_accept bcid_filter) (nodes data).
Proof.
  rewrite find_bc_objects_eq. apply filter_ext. apply accepted_values.
Qed.

(** X7.  The matches of a [dict] are the [dict] itself, if it is
    accepted, then the matches of its values in key order; the matches of
    a [list] are those of its items in index order; a scalar has none.
    An accepted [dict] thus comes before the accepted nodes inside it. *)
Theorem find_bc_objects_compose (bcid_filter : option string) :
  (forall fields,
     find_bc_objects (JObj fields) bcid_filter
     = (own_match bcid_filter (JObj fields)
        ++ flat_map (fun kv => find_bc_objects (snd kv) bcid_filter) fields)%list) /\
  (forall items,
     find_bc_objects (JArr items) bcid_filter
     = flat_map (fun x => find_bc_objects x bcid_filter) items) /\
  (forall node,
     is_dict node = false -> children node = [] ->
     find_bc_objects node bcid_filter = []).
Proof.
  split; [|split].
  - intros fields. apply find_bc_objects_obj.
  - intros items. apply find_bc_objects_arr.
  - intros node Hd Hc. rewrite find_bc_objects_eq, nodes_eq, Hc. simpl.
    destruct (accepted bcid_filter node) eqn:E; [|reflexivity].
    apply accepted_is_dict in E. congruence.
Qed.

End FinderProperties.

(** ** Summarizer: where the entries come from *)

Module SummarizerProperties.
Import Heap Traversal ObjectFinder Summarizer CommandLine.
#[local] Open Scope list_scope.

Lemma hits_incl d ks : incl (flat_map (hit d) ks) d.
Proof.
  intros [k v] H. apply in_flat_map in H as (key & _ & H).
  unfold hit in H. destruct (dict_get d key) as [v'|] eqn:G; [|contradiction].
  destruct H as [[= <- <-]|[]]. now apply dict_get_In.
Qed.

Lemma fallback_incl d s : incl (fallback_fields d s) d.
Proof.
  intros kv H. unfold fallback_fields in H. apply filter_In in H as [H _].
  now apply (firstn_incl 10).
Qed.

Lemma NoDup_keys_filter (p : string * json -> bool) (l : dict) :
  NoDup (dict_keys l) -> NoDup (dict_keys (filter p l)).
Proof.
  unfold dict_keys. induction l as [|kv l IH]; simpl; intros H; [constructor|].
  inversion H as [|? ? Hnot Hnd]; subst.
  destruct (p kv); simpl; [|now apply IH].
  constructor; [|now apply IH].
  intros Hin. apply Hnot. apply in_map_iff in Hin as (x & E & Hx).
  apply filter_In in Hx as [Hx _]. rewrite <- E. now apply in_map.
Qed.

Lemma dict_has_keys s k : In k (dict_keys s) -> dict_has s k = true.
Proof.
  intros H. apply dict_has_get. now apply dict_get_keys.
Qed.

(** X8.  In a store where [obj] is a [dict] with pairwise different keys,
    every entry of the summary is a field of the object, key and value,
    and the keys of the summary are pairwise different: the summary
    neither invents nor alters nor repeats a field. *)
Theorem summarize_object_fields (h : heap) (obj : loc) (d : dict) :
  nth_error h obj = Some d -> NoDup (dict_keys d) ->
  exists s,
    summarize_object obj h = Some (List.length h, h ++ [s]) /\
    incl s d /\ NoDup (dict_keys s).
Proof.
  intros E Hnd. exists (summary_of d).
  split; [now apply summarize_object_run|].
  rewrite (summary_of_wf d Hnd).
  assert (NoDup (dict_keys (allowlist_hits d))) as Hh.
  { unfold allowlist_hits. rewrite keys_hits.
    apply NoDup_filter, keys_of_interest_NoDup. }
  destruct (List.length (allowlist_hits d) <=? 2)%nat.
  - split.
    + apply incl_app; [apply hits_incl|apply fallback_incl].
    + unfold dict_keys. rewrite map_app. apply NoDup_app; [exact Hh| |].
      * apply NoDup_keys_filter. unfold dict_keys. rewrite <- firstn_map.
        now apply NoDup_firstn.
      * intros k Hk Hk'. apply dict_has_keys in Hk.
        apply in_map_iff in Hk' as ([k' v] & <- & Hin).
        apply filter_In in Hin as [_ Hin]. simpl in *.
        rewrite Hk in Hin. discriminate.
  - split; [apply hits_incl|exact Hh].
Qed.

Lemma summarize_object_fields_witness :
  exists s,
    summarize_object 0 [scenario_object] = Some (1, [scenario_object; s]) /\
    incl s scenario_object /\ NoDup (dict_keys s).
Proof.
  exact (summarize_object_fields [scenario_object] 0 scenario_object
           eq_refl scenario_object_NoDup).
Defined.

Lemma fallback_keeps d ks s : s <> [] -> fold_left (copy_if_new d) ks s <> [].
Proof.
  intros Hs. destruct (second_loop_extra d ks s) as (extra & -> & _).
  destruct s; [contradiction|discriminate].
Qed.

(** X9.  The summary is empty for the empty object only. *)
Theorem summarize_empty (d : dict) : summarize d = Some [] <-> d = [].
Proof.
  rewrite summarize_total. split.
  - intros [= H]. destruct d as [|[k v] d]; [reflexivity|]. exfalso.
    revert H. unfold summary_of.
    destruct (fold_left (copy_if_present ((k, v) :: d)) keys_of_interest [])
      as [|e s1] eqn:E1.
    + simpl. unfold copy_if_new at 2, copy_if_present. simpl.
      rewrite String.eqb_refl. simpl. apply fallback_keeps. discriminate.
    + destruct (List.length (e :: s1) <=? 2)%nat; [|discriminate].
      apply fallback_keeps. discriminate.
  - intros ->. reflexivity.
Qed.



End SummarizerProperties.

(** ** Content decoder: strictness, plain text, broken frames *)

Module DecoderProperties.
Import CursorAgentFetcher ContentDecoder.
#[local] Open Scope list_scope.
#[local] Open Scope N_scope.
#[local] Ltac Zify.zify_post_hook ::= Z.to_euclidean_division_equations.

Lemma byte_of_to_N c : byte_of_N (Byte.to_N c) = c.
Proof. unfold byte_of_N. now rewrite Byte.of_to_N. Qed.

Lemma scalar_value_iff cp :
  scalar_value cp = true <-> cp < 55296 \/ 57343 < cp <= 1114111.
Proof.
  unfold scalar_value.
  rewrite orb_true_iff, andb_true_iff, N.ltb_lt, N.ltb_lt, N.leb_le. tauto.
Qed.

Lemma is_cont_iff b : is_cont b = true <-> 128 <= b < 192.
Proof. unfold is_cont. rewrite andb_true_iff, N.leb_le, N.ltb_lt. tauto. Qed.

Ltac pick_branch :=
  repeat match goal with
  | |- context [N.ltb ?a ?b] => destruct (N.ltb_spec a b); try lia
  end.

Lemma encode_cp_1 b0 : b0 < 128 -> utf8_encode_cp b0 = [b0].
Proof. intros H. unfold utf8_encode_cp. now pick_branch. Qed.

Lemma encode_cp_2 b0 b1 :
  192 <= b0 < 224 -> 128 <= b1 < 192 ->
  128 <= (b0 - 192) * 64 + (b1 - 128) ->
  utf8_encode_cp ((b0 - 192) * 64 + (b1 - 128)) = [b0; b1].
Proof.
  intros H0 H1 Hc. unfold utf8_encode_cp. pick_branch.
  f_equal; [lia|]. f_equal. lia.
Qed.

Lemma encode_cp_3 b0 b1 b2 :
  224 <= b0 < 240 -> 128 <= b1 < 192 -> 128 <= b2 < 192 ->
  2048 <= (b0 - 224) * 4096 + (b1 - 128) * 64 + (b2 - 128) ->
  utf8_encode_cp ((b0 - 224) * 4096 + (b1 - 128) * 64 + (b2 - 128))
  = [b0; b1; b2].
Proof.
  intros H0 H1 H2 Hc. unfold utf8_encode_cp. pick_branch.
  f_equal; [lia|]. f_equal; [lia|]. f_equal. lia.
Qed.

Lemma encode_cp_4 b0 b1 b2 b3 :
  240 <= b0 < 248 -> 128 <= b1 < 192 -> 128 <= b2 < 192 -> 128 <= b3 < 192 ->
  65536 <= (b0 - 240) * 262144 + (b1 - 128) * 4096 + (b2 - 128) * 64
           + (b3 - 128) ->
  utf8_encode_cp ((b0 - 240) * 262144 + (b1 - 128) * 4096 + (b2 - 128) * 64
                  + (b3 - 128))
  = [b0; b1; b2; b3].
Proof.
  intros H0 H1 H2 H3 Hc. unfold utf8_encode_cp. pick_branch.
  f_equal; [lia|]. f_equal; [lia|]. f_equal; [lia|]. f_equal. lia.
Qed.

Lemma encode_cons cp s bs b :
  scalar_value cp = true ->
  map byte_of_N (utf8_encode_cp cp) = bs ->
  utf8_encode s = Some b ->
  utf8_encode (cp :: s) = Some (bs ++ b).
Proof. intros Hs <- E. simpl. now rewrite Hs, E. Qed.

(** The decoder accepts nothing but what the encoder writes. *)
Lemma utf8_encode_decode : forall n b,
  (List.length b <= n)%nat -> forall s,
  utf8_decode b = Some s -> utf8_encode s = Some b.
Proof.
  induction n as [|n IH]; intros b Hlen s H.
  { destruct b; [|simpl in Hlen; lia]. simpl in H. now injection H as <-. }
  destruct b as [|c0 r0]; [simpl in H; now injection H as <-|].
  cbn [utf8_decode] in H. simpl in Hlen.
  pose proof (Byte.to_N_bounded c0) as B0.
  destruct (N.ltb_spec (Byte.to_N c0) 128) as [L1|L1].
  { destruct (utf8_decode r0) as [s'|] eqn:E; [|discriminate].
    injection H as <-.
    apply (encode_cons _ _ [c0]).
    - apply scalar_value_iff. lia.
    - rewrite encode_cp_1 by assumption. simpl. now rewrite byte_of_to_N.
    - apply (IH r0); [lia|assumption]. }
  destruct (N.ltb_spec (Byte.to_N c0) 192) as [L2|L2]; [discriminate|].
  destruct r0 as [|c1 r1]; [discriminate|]. simpl in Hlen.
  destruct (is_cont (Byte.to_N c1)) eqn:C1; [|discriminate].
  apply is_cont_iff in C1. cbn [negb] in H.
  destruct (N.ltb_spec (Byte.to_N c0) 224) as [L3|L3].
  { destruct (N.ltb_spec ((Byte.to_N c0 - 192) * 64 + (Byte.to_N c1 - 128)) 128)
      as [|Hc]; [discriminate|].
    destruct (utf8_decode r1) as [s'|] eqn:E; [|discriminate].
    injection H as <-.
    apply (encode_cons _ _ [c0; c1]).
    - apply scalar_value_iff. lia.
    - rewrite encode_cp_2 by (assumption || lia).
      simpl. now rewrite !byte_of_to_N.
    - apply (IH r1); [lia|assumption]. }
  destruct r1 as [|c2 r2]; [discriminate|]. simpl in Hlen.
  destruct (is_cont (Byte.to_N c2)) eqn:C2; [|discriminate].
  apply is_cont_iff in C2. cbn [negb] in H.
  destruct (N.ltb_spec (Byte.to_N c0) 240) as [L4|L4].
  { destruct (N.ltb_spec ((Byte.to_N c0 - 224) * 4096
                          + (Byte.to_N c1 - 128) * 64 + (Byte.to_N c2 - 128))
                2048) as [|Hc]; [discriminate|].
    destruct (scalar_value _) eqn:S; [|discriminate]. cbn [negb orb] in H.
    destruct (utf8_decode r2) as [s'|] eqn:E; [|discriminate].
    injection H as <-.
    apply (encode_cons _ _ [c0; c1; c2]).
    - assumption.
    - rewrite encode_cp_3 by (assumption || lia).
      simpl. now rewrite !byte_of_to_N.
    - apply (IH r2); [lia|assumption]. }
  destruct r2 as [|c3 r3]; [discriminate|]. simpl in Hlen.
  destruct (is_cont (Byte.to_N c3)) eqn:C3; [|discriminate].
  apply is_cont_iff in C3. cbn [negb] in H.
  destruct (N.ltb_spec (Byte.to_N c0) 248) as [L5|L5]; [|discriminate].
  destruct (N.ltb_spec ((Byte.to_N c0 - 240) * 262144
                        + (Byte.to_N c1 - 128) * 4096
                        + (Byte.to_N c2 - 128) * 64 + (Byte.to_N c3 - 128))
              65536) as [|Hc]; [discriminate|].
  destruct (scalar_value _) eqn:S; [|discriminate]. cbn [negb orb] in H.
  destruct (utf8_decode r3) as [s'|] eqn:E; [|discriminate].
  injection H as <-.
  apply (encode_cons _ _ [c0; c1; c2; c3]).
  - assumption.
  - rewrite encode_cp_4 by (assumption || lia).
    simpl. now rewrite !byte_of_to_N.
  - apply (IH r3); [lia|assumption].
Qed.

Lemma magic_is_not_utf8 r : utf8_decode (Byte.x1f :: Byte.x8b :: r) = None.
Proof. reflexivity. Qed.

Lemma starts_with_magic_inv content :
  starts_with_gzip_magic content = true ->
  exists r, content = Byte.x1f :: Byte.x8b :: r.
Proof.
  destruct content as [|c0 [|c1 r]]; try discriminate. simpl.
  intros H. apply andb_true_iff in H as [H0 H1].
  apply Byte.byte_dec_bl in H0, H1. subst. now exists r.
Qed.

(** X11.  Whatever the gzip module does, the decoder gives back every
    string from its plain UTF-8 encoding, and prints nothing: no UTF-8
    text starts with the two magic bytes, so the gzip step leaves the
    bytes alone. *)
Theorem decode_content_plain_utf8 (G : Gzip) (s : text) (b : bytes) :
  utf8_encode s = Some b ->
  starts_with_gzip_magic b = false /\ decode_content b = ([], s).
Proof.
  intros E. apply utf8_decode_encode in E.
  assert (starts_with_gzip_magic b = false) as Hm.
  { destruct (starts_with_gzip_magic b) eqn:M; [|reflexivity].
    destruct (starts_with_magic_inv _ M) as [r ->].
    rewrite magic_is_not_utf8 in E. discriminate. }
  split; [exact Hm|].
  unfold decode_content, gunzip_if_framed, decode_text. now rewrite Hm, E.
Qed.

Lemma decode_content_plain_utf8_witness :
  let s := [31; 233; 8364; 128512] in
  let b := [Byte.x1f; Byte.xc3; Byte.xa9; Byte.xe2; Byte.x82; Byte.xac;
            Byte.xf0; Byte.x9f; Byte.x98; Byte.x80] in
  starts_with_gzip_magic b = false /\
  @decode_content failing_gzip b = ([], s).
Proof.
  intros s b. apply (decode_content_plain_utf8 failing_gzip s b).
  vm_compute. reflexivity.
Defined.

(** X12.  Content that starts with the magic bytes and that gzip refuses
    is kept whole: the decoder notes the failure and returns the Latin-1
    decoding of all the bytes, the two magic bytes first, since these two
    are never UTF-8. *)
Theorem decode_content_broken_frame (G : Gzip) (content : bytes) :
  starts_with_gzip_magic content = true ->
  gzip_decompress content = None ->
  decode_content content = ([DecompressFailed], map Byte.to_N content) /\
  firstn 2 (snd (decode_content content)) = [31; 139].
Proof.
  intros M D.
  assert (decode_content content
          = ([DecompressFailed], map Byte.to_N content)) as E.
  { unfold decode_content, gunzip_if_framed, decode_text. rewrite M, D.
    destruct (starts_with_magic_inv _ M) as [r ->].
    now rewrite magic_is_not_utf8. }
  split; [exact E|]. rewrite E.
  destruct (starts_with_magic_inv _ M) as [r ->]. reflexivity.
Qed.

Lemma decode_content_broken_frame_witness :
  @decode_content failing_gzip [Byte.x1f; Byte.x8b; Byte.x08; Byte.x41]
  = ([DecompressFailed], [31; 139; 8; 65]).
Proof.
  exact (proj1 (decode_content_broken_frame failing_gzip
                  [Byte.x1f; Byte.x8b; Byte.x08; Byte.x41] eq_refl eq_refl)).
Defined.

Lemma utf8_encode_scalars : forall s,
  Forall (fun cp => scalar_value cp = true) s ->
  exists b, utf8_encode s = Some b.
Proof.
  induction s as [|cp s IH]; intros H; simpl; [now eexists|].
  inversion H as [|? ? Hc Hs]; subst. rewrite Hc.
  destruct (IH Hs) as [b ->]. now eexists.
Qed.

(** X13.  The string the decoder returns can always be written back as
    UTF-8: it holds no surrogate and no value above U+10FFFF, whether it
    came from the UTF-8 codec or from the Latin-1 one. *)
Theorem decode_content_encodable (G : Gzip) (content : bytes) :
  exists b, utf8_encode (snd (decode_content content)) = Some b.
Proof.
  unfold decode_content.
  destruct (gunzip_if_framed content) as [notes body].
  unfold decode_text, latin1_decode.
  destruct (utf8_decode body) as [s|] eqn:E; simpl.
  - exists body. now apply (utf8_encode_decode (List.length body)).
  - apply utf8_encode_scalars. apply Forall_forall.
    intros cp Hcp. apply in_map_iff in Hcp as (c & <- & _).
    apply scalar_value_iff. pose proof (Byte.to_N_bounded c). lia.
Qed.

End DecoderProperties.

(** ** The command line tool: what an exit code means, and the options *)

Module CommandLineProperties.
Import Str StrFacts CommandLine.




(** X15.  A [__NEXT_DATA__] tag whose body is the JSON text [null] counts
    as no payload: [json.loads] gives [None] for it, and the run reports
    the payload as missing and ends with code 3. *)
Theorem main_null_payload (P : Platform) (args : Args)
    (notes : list event) (cookie_header : option string) (html text : string) :
  build_cookie_header (a_cookie args) (a_cookie_file args)
  = (notes, inr cookie_header) ->
  fetch_html (a_url args) cookie_header (a_timeout args) = inr html ->
  soup_find_next_data html = Some text ->
  json_loads text = inr JNull ->
  snd (main args) = Exit 3 /\
  exists before, fst (main args) = (before ++ [(Stderr, ErrNoNextData)])%list.
Proof.
  intros Hc Hf Hs Hj.
  assert (extract_next_data html = inr JNull) as He.
  { unfold extract_next_data. rewrite Hs, Hj. now destruct (Str.truthy text). }
  unfold main. rewrite Hc, Hf, He. split; [reflexivity|].
  unfold emit, say, done. simpl. eexists. rewrite List.app_assoc. reflexivity.
Qed.

Lemma main_null_payload_witness :
  snd (@main null_platform
         (@Build_Args null_platform "https://cursor.com/agents" None None
            (Some "cookie.txt") tt FmtSummary (Some "out.json")))
  = Exit 3.
Proof.
  exact (proj1 (main_null_payload null_platform
                  (@Build_Args null_platform "https://cursor.com/agents" None
                     None (Some "cookie.txt") tt FmtSummary (Some "out.json"))
                  [] (Some "sid=1") null_page "null"
                  eq_refl eq_refl eq_refl eq_refl)).
Defined.




End CommandLineProperties.

(** ** The cookie header *)

Module CookieProperties.
Import Str StrFacts.

Lemma rev_onto_app s : forall acc, rev_onto s acc = rev s ++ acc.
Proof.
  unfold rev. induction s as [|c s IH]; intros acc; simpl; [reflexivity|].
  rewrite (IH (String c acc)), (IH (String c "")).
  now rewrite app_assoc.
Qed.

Lemma rev_cons c s : rev (String c s) = rev s ++ String c "".
Proof. unfold rev at 1. simpl. apply rev_onto_app. Qed.

Lemma rev_app a : forall b, rev (a ++ b) = rev b ++ rev a.
Proof.
  induction a as [|c a IH]; intros b; simpl.
  - now rewrite app_nil_r.
  - now rewrite !rev_cons, IH, app_assoc.
Qed.

Lemma rev_rev s : rev (rev s) = s.
Proof.
  induction s as [|c s IH]; [reflexivity|].
  now rewrite rev_cons, rev_app, IH.
Qed.

Lemma lstrip_head s c r : lstrip s = String c r -> is_space c = false.
Proof.
  unfold lstrip. intros H.
  destruct (span_stop is_space s) as [E|(c' & r' & E & Hc)];
    rewrite E in H; [discriminate|]. now injection H as <- _.
Qed.

(** [strip] leaves no white space at either end. *)
Lemma strip_trimmed s : trimmed (strip s).
Proof.
  unfold strip. set (a := lstrip s). set (b := lstrip (rev a)).
  assert (exists sp, rev a = sp ++ b) as [sp Hsp].
  { exists (fst (span is_space (rev a))). unfold b, lstrip.
    now rewrite span_app. }
  split.
  - intros c r H. apply (lstrip_head s c (r ++ rev sp)). fold a.
    rewrite <- (rev_rev a), Hsp, rev_app, H. reflexivity.
  - intros r c H. apply (lstrip_head (rev a) c (rev r)). fold b.
    rewrite <- (rev_rev b), H, rev_app. reflexivity.
Qed.

(** X17.  The cookie that [build_cookie_header] returns has no white
    space at either end, and [fetch_html] sends a [Cookie] header only
    for a cookie that is not empty: a cookie of white space alone, given
    on the command line or read from the file, sends the request without
    a [Cookie] header.  A cookie given on the command line that is not
    empty is used without the cookie file being read. *)
Theorem cookie_header_trimmed (P : Platform)
    (raw_cookie cookie_file : option string)
    (notes : list event) (cookie : option string) :
  build_cookie_header raw_cookie cookie_file = (notes, inr cookie) ->
  (forall c, cookie = Some c -> trimmed c) /\
  (request_headers cookie = base_headers \/
   exists c, cookie = Some c /\ c <> "" /\
             request_headers cookie = (base_headers ++ [("Cookie", c)])%list) /\
  (opt_truthy raw_cookie = true ->
   notes = [] /\ cookie = option_map strip raw_cookie).
Proof.
  intros H. split; [|split].
  - intros c ->. unfold build_cookie_header in H.
    destruct (opt_truthy raw_cookie).
    + destruct raw_cookie as [raw|]; [|discriminate].
      injection H as _ <-. apply strip_trimmed.
    + destruct cookie_file as [file|]; [|discriminate].
      destruct (Str.truthy file); [|discriminate].
      destruct (read_text file) as [[]|content]; try discriminate.
      injection H as _ <-. apply strip_trimmed.
  - unfold request_headers. destruct cookie as [c|]; [|now left].
    destruct c as [|ch c]; [now left|].
    right. eexists. split; [reflexivity|]. split; [discriminate|reflexivity].
  - intros Ht. unfold build_cookie_header in H. rewrite Ht in H.
    injection H as <- <-. now split.
Qed.

Lemma cookie_header_trimmed_witness :
  @build_cookie_header null_platform (Some " ") (Some "cookie.txt")
  = ([], inr (Some "")) /\
  request_headers (Some "") = base_headers /\
  @build_cookie_header null_platform None (Some "cookie.txt")
  = ([], inr (Some "sid=1")) /\
  trimmed "sid=1".
Proof.
  assert (@build_cookie_header null_platform (Some " ") (Some "cookie.txt")
          = ([], inr (Some ""))) as E1 by reflexivity.
  assert (@build_cookie_header null_platform None (Some "cookie.txt")
          = ([], inr (Some "sid=1"))) as E2 by reflexivity.
  split; [exact E1|]. split; [reflexivity|]. split; [exact E2|].
  exact (proj1 (cookie_header_trimmed null_platform None (Some "cookie.txt")
                  [] (Some "sid=1") E2) "sid=1" eq_refl).
Defined.

End CookieProperties.

(** ** The fetcher: what a fetched record holds *)

Module FetchProperties.
Import CursorAgentFetcher AgentFetch.
#[local] Open Scope list_scope.

Section Facts.
Context {Se : Session} {Fi : @Files Se} {Gz : Gzip} {Ur : Urllib}.

(** X18.  A fetch makes one request and always returns a record.  The
    record keeps the URL, the time and the identifier read from the URL;
    a payload comes with status 200 and no error message only; a record
    without an error message has status 200; any other status, and a
    request that raised, come with an error message and no payload. *)
Theorem fetch_agent_data_record (timeout : Z) (url0 : string) (n : nat) :
  let out := fetch_agent_data timeout url0 n in
  let agent_data := snd (fst out) in
  snd out = S n /\
  url agent_data = Some url0 /\
  timestamp agent_data = Some (strftime_now n) /\
  agent_id agent_data = fst (extract_agent_id url0) /\
  (data agent_data <> None ->
   status_code agent_data = Some 200%Z /\ error_message agent_data = None) /\
  (error_message agent_data = None -> status_code agent_data = Some 200%Z) /\
  (forall s, status_code agent_data = Some s -> s <> 200%Z ->
     error_message agent_data <> None /\ data agent_data = None) /\
  (status_code agent_data = None ->
     error_message agent_data <> None /\ data agent_data = None /\
     content_type agent_data = None /\ response_size agent_data = None).
Proof.
  unfold fetch_agent_data, bind, now, prints, print, request, ret.
  destruct (extract_agent_id url0) as [id reported]. cbn [fst snd].
  destruct (session_get n url0 timeout) as [e|response]; cbn [fst snd].
  { repeat split; try discriminate; intros; cbn in *; congruence. }
  destruct (Z.eqb_spec (r_status_code response) 200) as [E|E].
  - destruct (read_body response) as [lines [e|dat]]; cbn [fst snd];
      rewrite ?E; repeat split; try discriminate; intros; cbn in *;
      congruence.
  - cbn [fst snd]. repeat split; try discriminate; intros; cbn in *;
      congruence.
Qed.

Lemma fetch_agent_data_count timeout url0 n :
  snd (fetch_agent_data timeout url0 n) = S n.
Proof.
  unfold fetch_agent_data, bind, now, prints, print, request, ret.
  destruct (extract_agent_id url0) as [id reported]. cbn [fst snd].
  destruct (session_get n url0 timeout) as [e|response]; [reflexivity|].
  destruct (r_status_code response =? 200)%Z; [|reflexivity].
  now destruct (read_body response) as [lines [e|dat]].
Qed.

Lemma length_truncate_html s : List.length (truncate_html s) <= 5000 + 3.
Proof.
  unfold truncate_html. generalize 5000 as cap. intros cap.
  destruct (Nat.ltb_spec cap (List.length s)) as [L|L]; [|lia].
  rewrite length_app, length_firstn. cbn [List.length]. lia.
Qed.

Lemma firstn_truncate_html s : firstn 5000 (truncate_html s) = firstn 5000 s.
Proof.
  unfold truncate_html. generalize 5000 as cap. intros cap.
  destruct (Nat.ltb_spec cap (List.length s)) as [L|L]; [|reflexivity].
  rewrite firstn_app, length_firstn, firstn_firstn.
  replace (cap - Nat.min cap (List.length s)) with 0 by lia.
  rewrite firstn_0, app_nil_r. f_equal. lia.
Qed.

Lemma truncate_html_cases s :
  (List.length s <= 5000 -> truncate_html s = s) /\
  (5000 < List.length s ->
   truncate_html s = firstn 5000 s ++ [46; 46; 46]%N).
Proof.
  unfold truncate_html. generalize 5000 as cap. intros cap.
  destruct (Nat.ltb_spec cap (List.length s)); split; intros;
    try reflexivity; lia.
Qed.

(** X19.  A page that answers 200 with a body [response.json()] refuses
    is stored decoded: whole as text, or, when it looks like HTML, with
    its first 5000 characters followed by three dots (whole when it is
    not longer), at most 5003 characters, beside what
    [extract_agent_info] read from the whole page; no error message is
    set. *)
Theorem fetch_agent_data_page (timeout : Z) (url0 : string) (n : nat)
    (response : Response) :
  session_get n url0 timeout = inr response ->
  r_status_code response = 200%Z ->
  r_json response = inl EJSONDecode ->
  let decoded := snd (decode_content (r_content response)) in
  let agent_data := snd (fst (fetch_agent_data timeout url0 n)) in
  error_message agent_data = None /\
  (looks_like_html decoded = false ->
   data agent_data = Some (TextData decoded)) /\
  (looks_like_html decoded = true ->
   exists raw,
     data agent_data
     = Some (HtmlData raw (fst (extract_agent_info decoded))) /\
     List.length raw <= 5000 + 3 /\
     firstn 5000 raw = firstn 5000 decoded /\
     (List.length decoded <= 5000 -> raw = decoded) /\
     (5000 < List.length decoded ->
      raw = firstn 5000 decoded ++ [46; 46; 46]%N)).
Proof.
  intros Hg Hs Hj decoded agent_data. subst agent_data decoded.
  unfold fetch_agent_data, bind, now, prints, print, request, ret.
  destruct (extract_agent_id url0) as [id reported]. cbn [fst snd].
  rewrite Hg, Hs. cbn [Z.eqb Pos.eqb]. unfold read_body. rewrite Hj.
  destruct (decode_content (r_content response)) as [notes decoded].
  cbn [snd].
  destruct (looks_like_html decoded) eqn:L.
  - destruct (extract_agent_info decoded) as [info warned]. cbn.
    split; [reflexivity|]. split; [discriminate|]. intros _.
    exists (truncate_html decoded).
    split; [reflexivity|]. split; [apply length_truncate_html|].
    split; [apply firstn_truncate_html|].
    apply truncate_html_cases.
  - cbn. split; [reflexivity|]. split; [reflexivity|discriminate].
Qed.

End Facts.

Lemma fetch_agent_data_page_witness :
  data (snd (fst (@fetch_agent_data example_session stored_gzip example_urllib
                    30 "https://cursor.com/agents/page" 0)))
  = Some (TextData [123; 125]%N).
Proof.
  refine (proj1 (proj2 (@fetch_agent_data_page example_session stored_gzip
                          example_urllib 30 "https://cursor.com/agents/page" 0
                          (example_response 200 (inl EJSONDecode))
                          eq_refl eq_refl eq_refl)) _).
  reflexivity.
Defined.

Section MoreFacts.
Context {Se : Session} {Fi : @Files Se} {Gz : Gzip} {Ur : Urllib}.

Lemma try_each_spec timeout : forall urls n,
  let out := try_each timeout urls n in
  (exists i,
     i < List.length urls /\
     is_200 (answer_at timeout urls n i) = true /\
     (forall j, j < i -> is_200 (answer_at timeout urls n j) = false) /\
     snd (fst out) = answer_at timeout urls n i /\ snd out = n + i + 1) \/
  ((forall j, j < List.length urls ->
      is_200 (answer_at timeout urls n j) = false) /\
   snd (fst out) = no_endpoints /\ snd out = n + List.length urls).
Proof.
  induction urls as [|u urls IH]; intros n; cbn zeta.
  - right. simpl. repeat split; [intros; lia|lia].
  - cbn [try_each]. unfold bind, print, ret. cbv beta iota.
    pose proof (fetch_agent_data_count timeout u n) as Hc.
    destruct (fetch_agent_data timeout u n) as [[l1 ad] n1] eqn:Ef.
    cbn [snd] in Hc. subst n1.
    assert (answer_at timeout (u :: urls) n 0 = ad) as H0.
    { unfold answer_at. simpl. now rewrite Nat.add_0_r, Ef. }
    assert (forall k, answer_at timeout (u :: urls) n (S k)
                      = answer_at timeout urls (S n) k) as HS.
    { intros k. unfold answer_at. simpl. now rewrite Nat.add_succ_r. }
    destruct (is_200 ad) eqn:E200.
    + left. exists 0. cbn [fst snd List.length].
      rewrite H0. repeat split; try lia; try assumption.
    + specialize (IH (S n)). cbn zeta in IH.
      destruct (try_each timeout urls (S n)) as [[l2 r] n2].
      cbn [fst snd] in *.
      destruct IH as [(i & Hi & Ha & Hb & Hr & Hn)|(Hb & Hr & Hn)].
      * left. exists (S i). rewrite HS. cbn [List.length].
        repeat split; try lia; try assumption.
        intros [|j] Hj; [now rewrite H0|]. rewrite HS. apply Hb. lia.
      * right. cbn [List.length]. repeat split; try lia; try assumption.
        intros [|j] Hj; [now rewrite H0|]. rewrite HS. apply Hb. lia.
Qed.

(** X20.  [try_alternative_endpoints] asks the four addresses built from
    the identifier in turn, one request each, and stops at the first that
    answers 200, whose record it returns; when none does, it has made
    four requests and returns a record that holds nothing but the message
    that no endpoint was found. *)
Theorem try_alternative_endpoints_first (timeout : Z) (base_url id : string)
    (n : nat) :
  let out := try_alternative_endpoints timeout base_url id n in
  let urls := alternative_urls id in
  (exists i,
     i < 4 /\
     is_200 (answer_at timeout urls n i) = true /\
     (forall j, j < i -> is_200 (answer_at timeout urls n j) = false) /\
     snd (fst out) = answer_at timeout urls n i /\ snd out = n + i + 1) \/
  ((forall j, j < 4 -> is_200 (answer_at timeout urls n j) = false) /\
   snd (fst out) = no_endpoints /\ snd out = n + 4).
Proof.
  cbv zeta. unfold try_alternative_endpoints, bind, print. cbv beta iota.
  pose proof (try_each_spec timeout (alternative_urls id) n) as H.
  cbv zeta in H.
  destruct (try_each timeout (alternative_urls id) n) as [[l r] n'].
  exact H.
Qed.

Lemma main_run (args : FetchArgs) (n : nat) :
  let first := snd (fst (fetch_agent_data (f_timeout args) (f_url args) n)) in
  let tried :=
    try_each (f_timeout args)
      (alternative_urls (match agent_id first with Some id => id | None => "" end))
      (S n) in
  let use_alternatives :=
    negb (is_200 first) && f_try_alternatives args
    && opt_truthy (agent_id first) in
  let final :=
    if use_alternatives && is_200 (snd (fst tried))
    then snd (fst tried) else first in
  snd (fst (main args n)) = (if is_200 final then 0 else 1)%Z /\
  snd (main args n) = if use_alternatives then snd tried else S n.
Proof.
  cbv zeta. unfold main, bind. 
  pose proof (fetch_agent_data_count (f_timeout args) (f_url args) n) as Hc.
  destruct (fetch_agent_data (f_timeout args) (f_url args) n)
    as [[l1 first] n1]. cbn [fst snd] in *. subst n1.
  destruct (agent_id first) as [id|] eqn:Eid; cbn [opt_truthy].
  - destruct (negb (is_200 first) && f_try_alternatives args && Str.truthy id)
      eqn:Euse.
    + unfold try_alternative_endpoints, bind, print, ret. cbv beta iota.
      destruct (try_each (f_timeout args) (alternative_urls id) (S n))
        as [[l2 alt] n2]. cbn [fst snd andb].
      destruct (f_output args) as [o|];
        [destruct (Str.truthy o);
         [unfold save_data;
          destruct (dump_agent_data o (if is_200 alt then alt else first))|]|];
        cbn [fst snd print]; now split.
    + unfold ret, print. cbv beta iota. cbn [andb].
      destruct (f_output args) as [o|];
        [destruct (Str.truthy o);
         [unfold save_data; destruct (dump_agent_data o first)|]|];
        cbn [fst snd print]; now split.
  - rewrite andb_false_r. unfold ret, print. cbv beta iota. cbn [andb].
    destruct (f_output args) as [o|];
      [destruct (Str.truthy o);
       [unfold save_data; destruct (dump_agent_data o first)|]|];
      cbn [fst snd print]; now split.
Qed.

(** The code that [main] returns, once the arguments are parsed. *)
Lemma main_code_after_parsing (args : FetchArgs) (n : nat) :
  let out := main args n in
  let code := snd (fst out) in
  let first := snd (fst (fetch_agent_data (f_timeout args) (f_url args) n)) in
  let urls :=
    alternative_urls (match agent_id first with Some id => id | None => "" end) in
  (code = 0%Z \/ code = 1%Z) /\
  (code = 0%Z <->
   is_200 first = true \/
   (f_try_alternatives args = true /\ opt_truthy (agent_id first) = true /\
    exists i, i < 4 /\
      is_200 (answer_at (f_timeout args) urls (S n) i) = true)) /\
  (is_200 first = true \/ f_try_alternatives args = false -> snd out = S n) /\
  snd out <= n + 5.
Proof.
  cbv zeta. destruct (main_run args n) as [Hcode Hcount]. cbv zeta in *.
  set (first := snd (fst (fetch_agent_data (f_timeout args) (f_url args) n))) in *.
  set (urls := alternative_urls
                 (match agent_id first with Some id => id | None => "" end)) in *.
  pose proof (try_each_spec (f_timeout args) urls (S n)) as Ht.
  cbv zeta in Ht.
  destruct (try_each (f_timeout args) urls (S n)) as [[l2 alt] n2].
  cbn [fst snd] in *. rewrite Hcode, Hcount. clear Hcode Hcount.
  assert (List.length urls = 4) as L4 by reflexivity. rewrite L4 in Ht.
  destruct (is_200 first) eqn:E1; cbn [negb andb]; rewrite ?E1.
  { split; [now left|]. split; [|split; [reflexivity|lia]].
    split; [now left|reflexivity]. }
  destruct (f_try_alternatives args) eqn:E2; cbn [andb]; rewrite ?E1.
  2:{ split; [now right|]. split; [|split; [reflexivity|lia]].
      split; [discriminate|]. intros [H|(H & _)]; discriminate. }
  destruct (opt_truthy (agent_id first)) eqn:E3; cbn [andb]; rewrite ?E1.
  2:{ split; [now right|]. split; [|split; [intros [H|H]; discriminate|lia]].
      split; [discriminate|]. intros [H|(_ & H & _)]; discriminate. }
  destruct Ht as [(i & Hi & Ha & Hb & Hr & Hn)|(Hb & Hr & Hn)].
  - subst alt. rewrite Ha. cbv iota. rewrite Ha.
    split; [now left|]. split; [|split; [|lia]].
    + split; [|reflexivity]. intros _. right.
      split; [reflexivity|]. split; [reflexivity|]. now exists i.
    + intros [H|H]; discriminate.
  - subst alt. cbn [is_200 no_endpoints status_code]. cbv iota.
    fold (is_200 first). rewrite E1.
    split; [now right|]. split; [|split; [|lia]].
    + split; [discriminate|].
      intros [H|(_ & _ & i & Hi & Ha)]; [discriminate|].
      rewrite (Hb i Hi) in Ha. discriminate.
    + intros [H|H]; discriminate.
Qed.

(** X22.  Status 200 decides alone.  When the address answers 200 and
    [response.json()] raises something other than a JSON decoding error,
    the record keeps status 200 beside an error message and no payload,
    and the exit code is 0 all the same, after that one request. *)
Theorem main_succeeds_on_200 (args : FetchArgs) (n : nat)
    (response : Response) (e : fexn) :
  session_get n (f_url args) (f_timeout args) = inr response ->
  r_status_code response = 200%Z ->
  r_json response = inl e -> e <> EJSONDecode ->
  let first := snd (fst (fetch_agent_data (f_timeout args) (f_url args) n)) in
  status_code first = Some 200%Z /\
  error_message first = Some (failure (f_timeout args) e) /\
  data first = None /\
  snd (fst (main args n)) = 0%Z /\ snd (main args n) = S n.
Proof.
  intros Hg Hs Hj He. cbv zeta.
  destruct (main_run args n) as [Hcode Hcount]. cbv zeta in *.
  assert (snd (fst (fetch_agent_data (f_timeout args) (f_url args) n))
          = {| agent_id := fst (extract_agent_id (f_url args));
               url := Some (f_url args); status_code := Some 200%Z;
               content_type := Some match r_content_type response with
                                    | Some c => c | None => "unknown" end;
               response_size := Some (List.length (r_content response));
               error_message := Some (failure (f_timeout args) e);
               timestamp := Some (strftime_now n); data := None |}) as Ef.
  { unfold fetch_agent_data, bind, now, prints, print, request, ret.
    destruct (extract_agent_id (f_url args)) as [id reported].
    cbn [fst snd]. rewrite Hg, Hs. cbn [Z.eqb Pos.eqb].
    unfold read_body. rewrite Hj. now destruct e. }
  rewrite Ef in *. cbn [status_code error_message data is_200] in *.
  cbn [Z.eqb Pos.eqb negb andb] in *.
  repeat split; assumption.
Qed.

End MoreFacts.

Section EntryFacts.
Context {Se : Session} {Fi : @Files Se} {Gz : Gzip} {Ur : Urllib}
  {Ap : Argparse}.

(** X21.  The exit code of the fetcher.  When argparse refuses the
    arguments or prints its help, the process ends with the code of
    argparse, and nothing is requested or printed by [main].  Otherwise
    [main] returns 0 or 1, and 0 exactly when the address given, or
    else, with [--try-alternatives] and an identifier in the URL that is
    not empty, one of the four alternative addresses, answers 200; the
    run makes one request when the address answers 200 or the
    alternatives are not tried, and never more than five. *)
Theorem main_exit_code (argv : list string) (n : nat) :
  let out := main_argv argv n in
  match parse_args argv with
  | inl code => out = ([], ParserExit code, n)
  | inr args =>
      let first :=
        snd (fst (fetch_agent_data (f_timeout args) (f_url args) n)) in
      let urls :=
        alternative_urls
          (match agent_id first with Some id => id | None => "" end) in
      exists code,
        snd (fst out) = Returned code /\
        (code = 0%Z \/ code = 1%Z) /\
        (code = 0%Z <->
         is_200 first = true \/
         (f_try_alternatives args = true /\
          opt_truthy (agent_id first) = true /\
          exists i, i < 4 /\
            is_200 (answer_at (f_timeout args) urls (S n) i) = true)) /\
        (is_200 first = true \/ f_try_alternatives args = false ->
         snd out = S n) /\
        snd out <= n + 5
  end.
Proof.
  cbv zeta. unfold main_argv.
  destruct (parse_args argv) as [code|args]; [reflexivity|].
  pose proof (main_code_after_parsing args n) as H. cbv zeta in H.
  unfold bind, ret.
  destruct (main args n) as [[l code] n']. cbn [fst snd] in *.
  exists code. split; [reflexivity|exact H].
Qed.

End EntryFacts.

Lemma try_alternative_endpoints_example :
  let out := @try_alternative_endpoints example_session stored_gzip
               example_urllib 30 "https://cursor.com/agents?selectedBcId=a1"
               "a1" 1 in
  is_200 (snd (fst out)) = true /\ snd out = 3.
Proof. vm_compute. split; reflexivity. Qed.

Lemma main_succeeds_on_200_witness :
  let args := {| f_url := "https://cursor.com/agents/odd"; f_output := None;
                 f_timeout := 30; f_try_alternatives := true |} in
  snd (fst (@main example_session example_files stored_gzip example_urllib
              args 0)) = 0%Z.
Proof.
  intros args.
  refine (proj1 (proj2 (proj2 (proj2
            (@main_succeeds_on_200 example_session example_files stored_gzip
               example_urllib args 0 (example_response 200 (inl EOther)) EOther
               eq_refl eq_refl eq_refl _))))).
  discriminate.
Defined.

End FetchProperties.

(** ** The web viewer *)

Module ViewerProperties.
Import CursorAgentFetcher AgentFetch WebViewer.
#[local] Open Scope list_scope.

Section Facts.
Context {Se : Session} {Gz : Gzip} {Ur : Urllib}.

Lemma store_get_set_same (st : store) k v :
  store_get (store_set st k v) k = Some v.
Proof.
  induction st as [|[k' v'] st IH]; cbn [store_set store_get].
  - now rewrite String.eqb_refl.
  - destruct (String.eqb k' k) eqn:E; cbn [store_get]; rewrite E;
      [reflexivity|exact IH].
Qed.

Lemma store_get_set_other (st : store) k v k2 :
  k2 <> k -> store_get (store_set st k v) k2 = store_get st k2.
Proof.
  intros Hne. induction st as [|[k' v'] st IH]; cbn [store_set store_get].
  - destruct (String.eqb k k2) eqn:E; [|reflexivity].
    apply String.eqb_eq in E. congruence.
  - destruct (String.eqb k' k) eqn:E; cbn [store_get].
    + apply String.eqb_eq in E. subst k'.
      destruct (String.eqb k k2) eqn:E2; [|reflexivity].
      apply String.eqb_eq in E2. congruence.
    + now rewrite IH.
Qed.

Lemma store_get_absent (st : store) k :
  store_get st k = None <-> ~ In k (store_keys st).
Proof.
  induction st as [|[k' v'] st IH]; cbn [store_get store_keys map fst In].
  - tauto.
  - destruct (String.eqb k' k) eqn:E.
    + apply String.eqb_eq in E. split; [discriminate|]. intros H. tauto.
    + apply String.eqb_neq in E. fold (store_keys st). tauto.
Qed.

Lemma store_get_present (st : store) k d :
  NoDup (store_keys st) -> In (k, d) st -> store_get st k = Some d.
Proof.
  induction st as [|[k' v'] st IH]; cbn [store_get store_keys map fst In];
    [tauto|].
  fold (store_keys st). intros Hnd [Heq|Hin].
  - injection Heq as -> ->. now rewrite String.eqb_refl.
  - apply NoDup_cons_iff in Hnd as [Hk Hnd].
    destruct (String.eqb k' k) eqn:E.
    + apply String.eqb_eq in E. subst k'. exfalso. apply Hk.
      unfold store_keys. now apply (in_map fst) in Hin.
    + now apply IH.
Qed.

Lemma store_set_present (st : store) k v d :
  store_get st k = Some d ->
  store_keys (store_set st k v) = store_keys st.
Proof.
  induction st as [|[k' v'] st IH]; cbn [store_set store_get]; [discriminate|].
  destruct (String.eqb k' k) eqn:E; [reflexivity|].
  intros H. cbn [store_keys map fst]. f_equal. now apply IH.
Qed.

Lemma store_set_absent (st : store) k v :
  store_get st k = None -> store_set st k v = st ++ [(k, v)].
Proof.
  induction st as [|[k' v'] st IH]; cbn [store_set store_get app];
    [reflexivity|].
  destruct (String.eqb k' k) eqn:E; [discriminate|].
  intros H. f_equal. now apply IH.
Qed.

Lemma store_set_keys (st : store) k v :
  NoDup (store_keys st) -> NoDup (store_keys (store_set st k v)).
Proof.
  intros Hnd. destruct (store_get st k) as [d|] eqn:E.
  - now rewrite (store_set_present st k v d E).
  - rewrite (store_set_absent st k v E). unfold store_keys.
    rewrite map_app. cbn [map fst].
    apply store_get_absent in E. fold (store_keys st) in *.
    induction (store_keys st) as [|k0 ks IH]; cbn [app].
    + constructor; [intros []|constructor].
    + apply NoDup_cons_iff in Hnd as [Hk Hnd]. constructor.
      * rewrite in_app_iff. cbn [In] in *. intros [H|[H|[]]]; [tauto|].
        subst k0. tauto.
      * apply IH; [exact Hnd|]. cbn [In] in E. tauto.
Qed.

Lemma store_set_length (st : store) k v :
  List.length (store_set st k v)
  = match store_get st k with
    | Some _ => List.length st
    | None => S (List.length st)
    end.
Proof.
  induction st as [|[k' v'] st IH]; cbn [store_set store_get List.length];
    [reflexivity|].
  destruct (String.eqb k' k) eqn:E; cbn [List.length]; [reflexivity|].
  rewrite IH. now destruct (store_get st k).
Qed.

Lemma store_set_twice (st : store) k v v' :
  store_set (store_set st k v) k v' = store_set st k v'.
Proof.
  induction st as [|[k' d] st IH]; cbn [store_set].
  - now rewrite String.eqb_refl.
  - destruct (String.eqb k' k) eqn:E; cbn [store_set]; rewrite E;
      [reflexivity|now rewrite IH].
Qed.

(** What one call of the handler does, request by request. *)
Lemma fetch_agent_run (form_url : option string) (st : store) (n : nat) :
  let url0 := strip (match form_url with Some u => u | None => "" end) in
  fetch_agent form_url st n
  = if Str.truthy url0 then
      let timestamp0 := str_int (time_seconds (S n)) in
      (fst (fst (fetch_agent_data 30 url0 n)),
       (RedirectToView timestamp0,
        store_set st timestamp0 (snd (fst (fetch_agent_data 30 url0 n)))),
       S n)
    else ([], (UrlRequired, st), n).
Proof.
  cbv zeta. unfold fetch_agent.
  destruct (Str.truthy _); [|reflexivity].
  unfold bind, clock, ret.
  pose proof (FetchProperties.fetch_agent_data_count 30
                (strip match form_url with Some u => u | None => "" end) n)
    as Hn.
  destruct (fetch_agent_data 30 _ n) as [[l1 x] n1]. cbn [fst snd] in *.
  subst n1. now rewrite app_nil_r.
Qed.

Lemma fetch_agent_data_url timeout url0 n :
  url (snd (fst (fetch_agent_data timeout url0 n))) = Some url0.
Proof.
  unfold fetch_agent_data, bind, now, prints, print, request, ret.
  destruct (extract_agent_id url0) as [id reported]. cbn [fst snd].
  destruct (session_get n url0 timeout) as [e|response]; [reflexivity|].
  destruct (r_status_code response =? 200)%Z.
  - now destruct (read_body response) as [lines [e|dat]].
  - destruct (r_status_code response =? 404)%Z; [reflexivity|].
    now destruct (r_status_code response =? 403)%Z.
Qed.

(** X23.  Fetch, then view.  A posted address that is not blank costs
    one request, made for the address without its surrounding white
    space and with the timeout of 30 seconds, whatever the answer; the
    reply redirects to the key read from the clock after the request,
    and both the page and the API then show the record of that fetch
    under that key. *)
Theorem fetch_agent_then_view (u : string) (st : store) (n : nat) :
  Str.truthy (strip u) = true ->
  let out := fetch_agent (Some u) st n in
  let st' := snd (snd (fst out)) in
  let agent_data := snd (fst (fetch_agent_data 30 (strip u) n)) in
  let key := str_int (time_seconds (S n)) in
  fst (snd (fst out)) = RedirectToView key /\
  snd out = S n /\
  url agent_data = Some (strip u) /\
  view_agent key st' = ViewPage agent_data key /\
  get_agent_data key st' = AgentJson agent_data.
Proof.
  intros Hu. cbv zeta. rewrite fetch_agent_run. cbv zeta. rewrite Hu.
  cbn [fst snd]. unfold view_agent, get_agent_data.
  rewrite store_get_set_same, fetch_agent_data_url. tauto.
Qed.

(** X24.  The store only grows.  A call of the fetch handler answers 400
    exactly when the posted address is missing or blank, and then makes
    no request, prints nothing and leaves the store alone; otherwise it
    redirects.  Every key stored before is still stored after, records
    under keys other than the one redirected to are untouched, keys stay
    distinct, and the store gains at most one entry. *)
Theorem fetch_agent_store (form_url : option string) (st : store) (n : nat) :
  let out := fetch_agent form_url st n in
  let answer := fst (snd (fst out)) in
  let st' := snd (snd (fst out)) in
  let blank :=
    negb (Str.truthy (strip match form_url with Some u => u | None => "" end))
  in
  http_status answer = (if blank then 400 else 302)%Z /\
  (blank = true -> st' = st /\ snd out = n /\ fst (fst out) = []) /\
  (forall k d, store_get st k = Some d -> store_get st' k <> None) /\
  (forall k, answer <> RedirectToView k -> store_get st' k = store_get st k) /\
  (NoDup (store_keys st) -> NoDup (store_keys st')) /\
  List.length st <= List.length st' <= S (List.length st).
Proof.
  cbv zeta. rewrite fetch_agent_run. cbv zeta.
  destruct (Str.truthy _); cbn [fst snd negb http_status].
  - set (key := str_int (time_seconds (S n))).
    set (agent_data := snd (fst (fetch_agent_data 30 _ n))).
    split; [reflexivity|]. split; [discriminate|]. split; [|split; [|split]].
    + intros k d Hk. destruct (String.eqb k key) eqn:E.
      * apply String.eqb_eq in E. subst k. rewrite store_get_set_same.
        discriminate.
      * apply String.eqb_neq in E. rewrite (store_get_set_other _ _ _ _ E).
        congruence.
    + intros k Hk. apply store_get_set_other. congruence.
    + apply store_set_keys.
    + rewrite store_set_length. destruct (store_get st key); lia.
  - split; [reflexivity|]. split; [tauto|]. split; [congruence|].
    split; [reflexivity|]. split; [tauto|]. lia.
Qed.

(** X25.  Two fetches within one second share a key.  When the clock
    shows the same second after both requests, the second record takes
    the place of the first: the key the first reply redirected to now
    shows the second record, and the store has no more entries and no
    other keys than after the first fetch: it is the store the second
    fetch alone would have left. *)
Theorem fetch_agent_same_second (u1 u2 : string) (st : store) (n1 n2 : nat) :
  Str.truthy (strip u1) = true -> Str.truthy (strip u2) = true ->
  time_seconds (S n1) = time_seconds (S n2) ->
  let out1 := fetch_agent (Some u1) st n1 in
  let st1 := snd (snd (fst out1)) in
  let out2 := fetch_agent (Some u2) st1 n2 in
  let st2 := snd (snd (fst out2)) in
  let second := snd (fst (fetch_agent_data 30 (strip u2) n2)) in
  exists key,
    fst (snd (fst out1)) = RedirectToView key /\
    fst (snd (fst out2)) = RedirectToView key /\
    view_agent key st2 = ViewPage second key /\
    store_keys st2 = store_keys st1 /\
    st2 = snd (snd (fst (fetch_agent (Some u2) st n2))).
Proof.
  intros H1 H2 Ht. cbv zeta. rewrite !fetch_agent_run. cbv zeta.
  rewrite H1, H2. cbn [fst snd]. rewrite <- Ht.
  exists (str_int (time_seconds (S n1))).
  split; [reflexivity|]. split; [reflexivity|]. unfold view_agent.
  rewrite store_get_set_same. split; [reflexivity|]. split.
  - apply (store_set_present _ _ _ _ (store_get_set_same st _ _)).
  - apply store_set_twice.
Qed.

(** X26.  Every line of the list leads somewhere.  The list has one line
    per stored record, in the order of the store; when the keys are
    distinct, as the fetch handler keeps them, the key of each line
    opens the page and the API entry of a record with that line's URL,
    identifier, status and fetch time. *)
Theorem list_agents_rows (st : store) :
  NoDup (store_keys st) ->
  exists rows,
    list_agents st = ListPage rows /\
    map row_timestamp rows = store_keys st /\
    forall r, In r rows ->
      exists d,
        view_agent (row_timestamp r) st = ViewPage d (row_timestamp r) /\
        get_agent_data (row_timestamp r) st = AgentJson d /\
        row_url r = url d /\ row_agent_id r = agent_id d /\
        row_status_code r = status_code d /\ row_fetch_time r = timestamp d.
Proof.
  intros Hnd. unfold list_agents. eexists. split; [reflexivity|]. split.
  - unfold store_keys. rewrite map_map. apply map_ext. now intros [k d].
  - intros r Hr. apply in_map_iff in Hr as ([k d] & <- & Hin).
    exists d. cbn [row_timestamp row_url row_agent_id row_status_code
                   row_fetch_time].
    unfold view_agent, get_agent_data.
    rewrite (store_get_present st k d Hnd Hin). tauto.
Qed.

Lemma str_int_inj z z' : str_int z = str_int z' -> z = z'.
Proof.
  assert (forall x, DecimalString.NilZero.int_of_string (str_int x)
                    = Some (Z.to_int x)) as Hback.
  { intros x. unfold str_int. apply DecimalString.NilZero.isi.
    - destruct x as [|q|q]; cbn; try discriminate.
      intros H. injection H as H. revert H. apply DecimalPos.Unsigned.to_uint_nonnil.
    - destruct x as [|q|q]; cbn; try discriminate.
      intros H. injection H as H. revert H. apply DecimalPos.Unsigned.to_uint_nonnil. }
  intros H. apply DecimalZ.to_int_inj.
  pose proof (Hback z) as H1. rewrite H, Hback in H1. congruence.
Qed.

(** X27.  Fetches in different seconds keep apart.  When the clock shows
    different seconds after two requests, the two replies redirect to
    different keys and the store afterwards shows each record under its
    own key. *)
Theorem fetch_agent_other_second (u1 u2 : string) (st : store) (n1 n2 : nat) :
  Str.truthy (strip u1) = true -> Str.truthy (strip u2) = true ->
  time_seconds (S n1) <> time_seconds (S n2) ->
  let out1 := fetch_agent (Some u1) st n1 in
  let out2 := fetch_agent (Some u2) (snd (snd (fst out1))) n2 in
  let st2 := snd (snd (fst out2)) in
  let first := snd (fst (fetch_agent_data 30 (strip u1) n1)) in
  let second := snd (fst (fetch_agent_data 30 (strip u2) n2)) in
  exists key1 key2,
    key1 <> key2 /\
    fst (snd (fst out1)) = RedirectToView key1 /\
    fst (snd (fst out2)) = RedirectToView key2 /\
    view_agent key1 st2 = ViewPage first key1 /\
    view_agent key2 st2 = ViewPage second key2.
Proof.
  intros H1 H2 Ht. cbv zeta. rewrite !fetch_agent_run. cbv zeta.
  rewrite H1, H2. cbn [fst snd].
  exists (str_int (time_seconds (S n1))), (str_int (time_seconds (S n2))).
  assert (str_int (time_seconds (S n1)) <> str_int (time_seconds (S n2)))
    as Hne by (intros H; now apply str_int_inj in H).
  split; [exact Hne|]. split; [reflexivity|]. split; [reflexivity|].
  unfold view_agent.
  rewrite (store_get_set_other _ _ _ _ Hne), !store_get_set_same. tauto.
Qed.

End Facts.

Lemma fetch_agent_other_second_witness :
  exists key1 key2,
    key1 <> key2 /\
    (@view_agent example_session key1
      (snd (snd (fst (@fetch_agent example_session stored_gzip example_urllib
         (Some "https://cursor.com/agents/odd")
         (snd (snd (fst (@fetch_agent example_session stored_gzip
                           example_urllib
                           (Some "https://cursor.com/agents/page") [] 0))))
         5))))
    = ViewPage
        (snd (fst (@fetch_agent_data example_session stored_gzip
                     example_urllib 30 "https://cursor.com/agents/page" 0)))
        key1).
Proof.
  destruct (@fetch_agent_other_second example_session stored_gzip
              example_urllib
              "https://cursor.com/agents/page" "https://cursor.com/agents/odd"
              [] 0 5 eq_refl eq_refl ltac:(discriminate))
    as (key1 & key2 & Hne & _ & _ & H & _).
  exists key1, key2. split; [exact Hne|exact H].
Defined.

Lemma fetch_agent_then_view_witness :
  @view_agent example_session "1704067201"
    (snd (snd (fst (@fetch_agent example_session stored_gzip example_urllib
                      (Some " https://cursor.com/agents/page ") [] 0))))
  = ViewPage
      (snd (fst (@fetch_agent_data example_session stored_gzip example_urllib
                   30 "https://cursor.com/agents/page" 0)))
      "1704067201".
Proof.
  exact (proj1 (proj2 (proj2 (proj2
           (@fetch_agent_then_view example_session stored_gzip example_urllib
              " https://cursor.com/agents/page " [] 0 eq_refl))))).
Defined.

Lemma fetch_agent_same_second_witness :
  exists key,
    @view_agent frozen_session key
      (snd (snd (fst (@fetch_agent frozen_session stored_gzip example_urllib
         (Some "https://cursor.com/agents/odd")
         (snd (snd (fst (@fetch_agent frozen_session stored_gzip
                           example_urllib
                           (Some "https://cursor.com/agents/page") [] 0))))
         5))))
    = ViewPage
        (snd (fst (@fetch_agent_data frozen_session stored_gzip example_urllib
                     30 "https://cursor.com/agents/odd" 5)))
        key.
Proof.
  destruct (@fetch_agent_same_second frozen_session stored_gzip example_urllib
              "https://cursor.com/agents/page" "https://cursor.com/agents/odd"
              [] 0 5 eq_refl eq_refl eq_refl) as (key & _ & _ & H & _).
  exists key. exact H.
Defined.

Lemma list_agents_rows_witness :
  exists rows,
    @list_agents example_session example_store = ListPage rows /\
    map row_timestamp rows = ["1704067201"; "1704067208"].
Proof.
  assert (NoDup (@store_keys example_session example_store)) as Hnd.
  { vm_compute. repeat constructor; cbn; intuition discriminate. }
  destruct (@list_agents_rows example_session example_store Hnd)
    as (rows & Hl & Hk & _).
  exists rows. split; [exact Hl|]. rewrite Hk. reflexivity.
Defined.

End ViewerProperties.
